(** * Incremental graph store, layout, highlight overlay and viewport
      of the knowledge-graph viewer

    A shallow embedding of the graph code of
    [KnowledgeGraphConstruction/static/js/single_qa.js] (the single-run
    viewer) and of the link resolver of
    [KnowledgeGraphConstruction/static/js/runs_qa_generation.js] (the
    multi-run preview), with the properties the design document states
    about them; and of the code around them in the two files: the full
    reload, the redistribution, the expansion panel, the lines of the
    links and the helpers of the viewer, the nodes and the fit of the
    preview, the list of runs and the pagination of the data page, with
    the properties the code shows.

    Conventions of the embedding.
    - A JavaScript string is a [string], the bytes of its UTF-8
      encoding: the strings are well formed (no lone surrogate), so that
      equality and containment of strings are those of their bytes; where
      the code counts or cuts code units ([hashCode], [truncateText]) the
      string is the list of its UTF-16 code units.  A property that may
      be absent ([undefined]) is an [option]; a property that is present
      holds a value of its type.  A property that is [null] reads as an
      absent one wherever the code tests it or takes it through [||];
      where the code copies the properties of a record (the merge of
      [updateGraph]) a [null] has no value here.  A string is truthy
      when it is not empty.
    - A JavaScript number that holds a count, an index or a pixel size of
      the DOM is a [nat] or a [Z]; a coordinate is a real number: the
      arithmetic of the code is read in [R], without the rounding of
      IEEE doubles.
    - A [Set] of strings is a [gset string].  An object literal used as
      a dictionary is the [gmap] of its own properties, read through
      [getProperty] and written through [setProperty]: a key that the
      object does not own and that the standard [Object.prototype]
      defines is answered with the member of the prototype.
    - An array is a [list]; an object reached through a reference that
      the code mutates is named by its index in the array that owns it.
    - [Math.random()] is an argument: the two numbers drawn while the
      node of index [i] is placed are [rnd i].
    - The page is initialised: [initGraph] has run, the group [g] and the
      simulation exist.  The force simulation moves the nodes between
      events; the functions below are the synchronous part of each
      handler. *)

From Stdlib Require Import Reals Lra Lia ZArith List String Ascii DecimalString.
From stdpp Require Import gmap strings.
Import ListNotations.

(** ** JavaScript values *)

Module Js.

(** [!!s] for a string. *)
Definition truthy (s : string) : bool := negb (String.eqb s "").

(** [a || b] where both sides are strings or [undefined]. *)
Definition or (a b : option string) : option string :=
  match a with
  | Some s => if truthy s then a else b
  | None => b
  end.

(** [a || 'lit']. *)
Definition or_lit (a : option string) (lit : string) : string :=
  match a with
  | Some s => if truthy s then s else lit
  | None => lit
  end.

(** [n || 0] for a number. *)
Definition or_zero (n : option Z) : Z :=
  match n with
  | Some z => z
  | None => 0%Z
  end.

(** [!!a] for a string or [undefined]. *)
Definition truthy_opt (a : option string) : bool :=
  match a with
  | Some s => truthy s
  | None => false
  end.

(** [`${a}`]: the text a template literal gives a string or [undefined]. *)
Definition show (a : option string) : string :=
  match a with
  | Some s => s
  | None => "undefined"
  end.

(** [s.includes(t)]. *)
Fixpoint includes (s t : string) : bool :=
  String.prefix t s ||
  match s with
  | EmptyString => false
  | String _ s' => includes s' t
  end.

(** The white space [String.prototype.trim] removes: the characters
    [WhiteSpace] and [LineTerminator] of the language, each given by the
    bytes of its UTF-8 encoding.  One byte: U+0009 to U+000D and U+0020.
    Two bytes: U+00A0.  Three bytes: U+1680, U+2000 to U+200A, U+2028,
    U+2029, U+202F, U+205F, U+3000 and U+FEFF. *)
Definition is_space (c : ascii) : bool :=
  let n := nat_of_ascii c in
  (Nat.eqb n 32 || (Nat.leb 9 n && Nat.leb n 13))%bool.

Definition is_space2 (a b : ascii) : bool :=
  (Nat.eqb (nat_of_ascii a) 194 && Nat.eqb (nat_of_ascii b) 160)%bool.

Definition is_space3 (a b c : ascii) : bool :=
  let a := nat_of_ascii a in
  let b := nat_of_ascii b in
  let c := nat_of_ascii c in
  ((Nat.eqb a 225 && Nat.eqb b 154 && Nat.eqb c 128) ||
   (Nat.eqb a 226 && Nat.eqb b 128 &&
      ((Nat.leb 128 c && Nat.leb c 138) || Nat.eqb c 168 || Nat.eqb c 169 ||
       Nat.eqb c 175)) ||
   (Nat.eqb a 226 && Nat.eqb b 129 && Nat.eqb c 159) ||
   (Nat.eqb a 227 && Nat.eqb b 128 && Nat.eqb c 128) ||
   (Nat.eqb a 239 && Nat.eqb b 187 && Nat.eqb c 191))%bool.

(** The string without the white space it starts with. *)
Fixpoint trim_start (s : string) : string :=
  match s with
  | EmptyString => EmptyString
  | String a s1 =>
      if is_space a then trim_start s1
      else
        match s1 with
        | EmptyString => s
        | String b s2 =>
            if is_space2 a b then trim_start s2
            else
              match s2 with
              | EmptyString => s
              | String c s3 => if is_space3 a b c then trim_start s3 else s
              end
        end
  end.

(** The string is made of white space only. *)
Definition blank (s : string) : bool := String.eqb (trim_start s) "".

(** The string without the white space it ends with: its bytes up to the
    first place from which only white space follows. *)
Fixpoint trim_end (s : string) : string :=
  match s with
  | EmptyString => EmptyString
  | String c s' => if blank s then EmptyString else String c (trim_end s')
  end.

(** [s.trim()]. *)
Definition trim (s : string) : string := trim_end (trim_start s).

(** [Math.floor] and [Math.ceil]. *)
Definition floor (r : R) : Z := Zfloor r.
Definition ceil (r : R) : Z := Zceil r.

End Js.

(** ** The single-run viewer: [single_qa.js] *)

Module SingleQA.

(** The page the script runs in: the size of [.graph-container], the
    value of the [#initial-entity] input ([None] when the page has no
    such element) and whether the [#expansion-info] element exists. *)
Record Page := {
  clientWidth : Z;
  clientHeight : Z;
  initial_entity : option string;
  expansion_container : bool
}.

(** A node record as a [graph_update] event carries it: its id and name,
    and the optional fields the script reads.  A record carries no
    coordinates. *)
Record NodeRecord := {
  rec_id : string;
  rec_name : string;
  rec_type : option string;
  rec_description : option string;
  rec_group : option Z;
  rec_expansion_status : option string;
  rec_expansion_order : option Z
}.

(** A node of [currentGraphData.nodes]. *)
Record Node := {
  node_id : string;
  node_name : string;
  node_type : string;
  node_description : string;
  node_group : Z;
  node_expansion_status : string;
  node_expansion_order : option Z;
  node_x : R;
  node_y : R
}.

(** A link record as an event carries it. *)
Record LinkRecord := {
  lrec_source_id : option string;
  lrec_source : option string;
  lrec_target_id : option string;
  lrec_target : option string;
  lrec_relation : option string;
  lrec_relationship : option string
}.

(** A link of [currentGraphData.links]. *)
Record Link := {
  link_source : option string;
  link_target : option string;
  link_source_id : option string;
  link_target_id : option string;
  link_id : string;
  link_relation : option string;
  link_relationship : option string
}.

(** [currentGraphData]. *)
Record GraphData := {
  nodes : list Node;
  links : list Link
}.

Definition emptyGraph : GraphData := {| nodes := []; links := [] |}.

(** [data.expansion_info], as far as [updateGraph] reads it: the ids of
    [expansion_nodes] and the id of [current_node]. *)
Record ExpansionInfo := {
  expansion_nodes : list string;
  current_node : option string
}.

(** The payload of a [graph_update] event. *)
Record UpdateData := {
  data_expansion_info : option ExpansionInfo;
  data_nodes : option (list NodeRecord);
  data_links : option (list LinkRecord)
}.

(** *** Initial placement *)

Section Placement.
Local Open Scope R_scope.

Definition containerWidth (pg : Page) : Z :=
  if Z.eqb (clientWidth pg) 0 then 1200%Z else clientWidth pg.
Definition containerHeight (pg : Page) : Z :=
  if Z.eqb (clientHeight pg) 0 then 800%Z else clientHeight pg.

Definition centerX (pg : Page) : R := IZR (containerWidth pg) / 2.
Definition centerY (pg : Page) : R := IZR (containerHeight pg) / 2.

(** The ring of a node among 7 to 20 nodes. *)
Definition layer (index : nat) : Z := Js.floor (sqrt (INR index)).
Definition nodesInLayer (index : nat) : Z := Z.max 6 (layer index * 6).

(** The grid of a node among more than 20 nodes. *)
Definition gridSize (totalNodes : nat) : Z :=
  (Js.ceil (sqrt (INR totalNodes)) + 2)%Z.
Definition cellWidth (pg : Page) (totalNodes : nat) : R :=
  Rmax 120 (Rmin (IZR (containerWidth pg)) (IZR (containerHeight pg))
            / IZR (gridSize totalNodes)).
Definition cellHeight (pg : Page) (totalNodes : nat) : R :=
  cellWidth pg totalNodes * (866 / 1000).
Definition row (index totalNodes : nat) : Z :=
  Js.floor (INR index / IZR (gridSize totalNodes)).
Definition col (index totalNodes : nat) : Z :=
  (Z.of_nat index mod gridSize totalNodes)%Z.
Definition offsetX (pg : Page) (index totalNodes : nat) : R :=
  IZR (row index totalNodes mod 2) * (cellWidth pg totalNodes / 2).

(** The coordinates [createPositionedNode] computes; [u] and [v] are the
    two results of [Math.random()] in its last branch. *)
Definition position (pg : Page) (index totalNodes : nat) (u v : R) : R * R :=
  if (totalNodes <=? 1)%nat then
    (centerX pg, centerY pg)
  else if (totalNodes <=? 6)%nat then
    let angle := INR index / INR totalNodes * 2 * PI in
    let radius := 120 in
    (centerX pg + cos angle * radius, centerY pg + sin angle * radius)
  else if (totalNodes <=? 20)%nat then
    let angleStep := 2 * PI / IZR (nodesInLayer index) in
    let angle := IZR (Z.of_nat index mod nodesInLayer index) * angleStep in
    let radius := 80 + IZR (layer index) * 100 in
    (centerX pg + cos angle * radius, centerY pg + sin angle * radius)
  else
    let g := IZR (gridSize totalNodes) in
    let x := (IZR (col index totalNodes) - g / 2) * cellWidth pg totalNodes
             + centerX pg + offsetX pg index totalNodes in
    let y := (IZR (row index totalNodes) - g / 2) * cellHeight pg totalNodes
             + centerY pg in
    (x + (u - 5 / 10) * 40, y + (v - 5 / 10) * 40).

End Placement.

(** What [createPositionedNode] returns. *)
Record PositionedNode := {
  pos_id : string;
  pos_name : string;
  pos_type : option string;
  pos_x : R;
  pos_y : R
}.

Definition createPositionedNode (pg : Page) (id name : string)
    (type : option string) (index totalNodes : nat) (u v : R) : PositionedNode :=
  let p := position pg index totalNodes u v in
  {| pos_id := id; pos_name := name; pos_type := type;
     pos_x := fst p; pos_y := snd p |}.

(** *** The seed node and the self-heal pass *)

(** [status === 'normal' || !status]. *)
Definition is_normal (status : string) : bool :=
  (String.eqb status "normal" || negb (Js.truthy status))%bool.

(** The test of the second search of [findInitialNode]. *)
Definition matches_entity (inputEntity : string) (n : Node) : Prop :=
  node_name n = inputEntity ∨ node_id n = inputEntity ∨
  Js.includes (node_name n) inputEntity ∨ Js.includes inputEntity (node_name n).

#[global] Instance matches_entity_dec e n : Decision (matches_entity e n).
Proof. unfold matches_entity. apply _. Defined.

(** [findInitialNode]: the node it returns, named by its index in
    [currentGraphData.nodes]. *)
Definition findInitialNode (pg : Page) (ns : list Node) : option nat :=
  match list_find (λ n, node_expansion_order n = Some 0%Z) ns with
  | Some (i, _) => Some i
  | None =>
      let byInput :=
        match initial_entity pg with
        | Some value =>
            let inputEntity := Js.trim value in
            if Js.truthy inputEntity
            then fst <$> list_find (matches_entity inputEntity) ns
            else None
        | None => None
        end in
      match byInput with
      | Some i => Some i
      | None => match ns with [] => None | _ :: _ => Some 0%nat end
      end
  end.

(** [initialNode.expansion_status = 'expansion'; initialNode.expansion_order = 0]
    under the guard of [ensureInitialNodeExpansionStatus]. *)
Definition promoteInitial (n : Node) : Node :=
  if is_normal (node_expansion_status n) then
    {| node_id := node_id n; node_name := node_name n; node_type := node_type n;
       node_description := node_description n; node_group := node_group n;
       node_expansion_status := "expansion"; node_expansion_order := Some 0%Z;
       node_x := node_x n; node_y := node_y n |}
  else n.

(** The body of the [forEach] of [ensureInitialNodeExpansionStatus]. *)
Definition healStatus (n : Node) : Node :=
  match node_expansion_order n with
  | Some order =>
      if ((0 <=? order)%Z && is_normal (node_expansion_status n))%bool then
        {| node_id := node_id n; node_name := node_name n; node_type := node_type n;
           node_description := node_description n; node_group := node_group n;
           node_expansion_status := "expansion";
           node_expansion_order := node_expansion_order n;
           node_x := node_x n; node_y := node_y n |}
      else n
  | None => n
  end.

Definition ensureInitialNodeExpansionStatus (pg : Page) (st : GraphData) : GraphData :=
  match findInitialNode pg (nodes st) with
  | None => st
  | Some i =>
      {| nodes := map healStatus (alter promoteInitial i (nodes st));
         links := links st |}
  end.

(** *** [updateGraph] *)

(** The loop over [data.nodes] that writes the status of the nodes of the
    expansion sequence into the records. *)
Definition markExpansion (info : ExpansionInfo) (r : NodeRecord) : NodeRecord :=
  let expansionNodeIds : gset string := list_to_set (expansion_nodes info) in
  if bool_decide (rec_id r ∈ expansionNodeIds) then
    {| rec_id := rec_id r; rec_name := rec_name r; rec_type := rec_type r;
       rec_description := rec_description r; rec_group := rec_group r;
       rec_expansion_status :=
         Some (if bool_decide (current_node info = Some (rec_id r))
               then "current" else "expansion");
       rec_expansion_order := rec_expansion_order r |}
  else r.

Definition markedNodes (data : UpdateData) : option (list NodeRecord) :=
  match data_expansion_info data, data_nodes data with
  | Some info, Some rs => Some (map (markExpansion info) rs)
  | _, rs => rs
  end.

(** The object a new node becomes: the positioned node, the record spread
    over it, and the defaults. *)
Definition newNode (pg : Page) (r : NodeRecord) (index totalNodes : nat)
    (uv : R * R) : Node :=
  let positionedNode :=
    createPositionedNode pg (rec_id r) (rec_name r) (rec_type r)
                         index totalNodes (fst uv) (snd uv) in
  {| node_id := rec_id r; node_name := rec_name r;
     node_type := Js.or_lit (rec_type r) "concept";
     node_description := Js.or_lit (rec_description r) "";
     node_group := Js.or_zero (rec_group r);
     node_expansion_status := Js.or_lit (rec_expansion_status r) "normal";
     node_expansion_order := rec_expansion_order r;
     node_x := pos_x positionedNode; node_y := pos_y positionedNode |}.

(** [Object.assign(existingNode, node)], the position put back, and the
    two expansion fields. *)
Definition assignNode (r : NodeRecord) (existingNode : Node) : Node :=
  {| node_id := rec_id r; node_name := rec_name r;
     node_type := default (node_type existingNode) (rec_type r);
     node_description := default (node_description existingNode) (rec_description r);
     node_group := default (node_group existingNode) (rec_group r);
     node_expansion_status := Js.or_lit (rec_expansion_status r) "normal";
     node_expansion_order := rec_expansion_order r;
     node_x := node_x existingNode; node_y := node_y existingNode |}.

(** One turn of the incremental loop over [data.nodes]. *)
Definition mergeNode (pg : Page) (rnd : nat → R * R)
    (existingNodeIds : gset string) (cur : list Node) (r : NodeRecord) : list Node :=
  if bool_decide (rec_id r ∈ existingNodeIds) then
    match list_find (λ n, node_id n = rec_id r) cur with
    | Some (i, _) => alter (assignNode r) i cur
    | None => cur
    end
  else
    cur ++ [newNode pg r (length cur) (length cur + 1) (rnd (length cur))].

Definition updateNodes (pg : Page) (rnd : nat → R * R) (isIncremental : bool)
    (cur : list Node) (rs : list NodeRecord) : list Node :=
  if isIncremental then
    let existingNodeIds : gset string := list_to_set (map node_id cur) in
    fold_left (mergeNode pg rnd existingNodeIds) rs cur
  else
    imap (λ index r, newNode pg r index (length rs) (rnd index)) rs.

(** The normalised link of [processedLinks]. *)
Definition processLink (l : LinkRecord) : Link :=
  let sourceId := Js.or (lrec_source_id l) (lrec_source l) in
  let targetId := Js.or (lrec_target_id l) (lrec_target l) in
  {| link_source := sourceId; link_target := targetId;
     link_source_id := sourceId; link_target_id := targetId;
     link_id := Js.show sourceId +:+ "-" +:+ Js.show targetId +:+ "-" +:+
                Js.or_lit (Js.or (lrec_relation l) (lrec_relationship l)) "related";
     link_relation := lrec_relation l;
     link_relationship := lrec_relationship l |}.

Definition updateLinks (isIncremental : bool) (cur : list Link)
    (ls : list LinkRecord) : list Link :=
  let processedLinks := map processLink ls in
  if isIncremental then
    let existingLinkIds : gset string := list_to_set (map link_id cur) in
    cur ++ List.filter (λ l, bool_decide (link_id l ∉ existingLinkIds)) processedLinks
  else processedLinks.

(** [updateGraph(data, isIncremental)] on an initialised page: the store
    after the call.  [updateExpansionDisplay] runs the self-heal pass on
    the store as it is before the merge when the page shows the expansion
    panel. *)
Definition updateGraph (pg : Page) (rnd : nat → R * R) (st : GraphData)
    (data : UpdateData) (isIncremental : bool) : GraphData :=
  let st0 :=
    match data_expansion_info data with
    | Some _ =>
        if expansion_container pg then ensureInitialNodeExpansionStatus pg st else st
    | None => st
    end in
  let nodes1 :=
    match markedNodes data with
    | Some rs => updateNodes pg rnd isIncremental (nodes st0) rs
    | None => nodes st0
    end in
  let links1 :=
    match data_links data with
    | Some ls => updateLinks isIncremental (links st0) ls
    | None => links st0
    end in
  ensureInitialNodeExpansionStatus pg {| nodes := nodes1; links := links1 |}.

(** The handler of the [graph_update] event. *)
Definition applyIncremental (pg : Page) (rnd : nat → R * R) (st : GraphData)
    (data : UpdateData) : GraphData :=
  updateGraph pg rnd st data true.

(** *** Node radius and the viewport *)

(** The test of the [filter] of [getNodeRadius]: the link touches [d]. *)
Definition touches (d : Node) (l : Link) : bool :=
  (bool_decide (Js.or (link_source_id l) (link_source l) = Some (node_id d)) ||
   bool_decide (Js.or (link_target_id l) (link_target l) = Some (node_id d)))%bool.

Definition connectionCount (st : GraphData) (d : Node) : nat :=
  length (List.filter (touches d) (links st)).

Definition getNodeRadius (st : GraphData) (d : Node) : nat :=
  let baseRadius := 25%nat in
  let radiusIncrement := Nat.min (connectionCount st d * 2) 15 in
  (baseRadius + radiusIncrement)%nat.

(** The [viewBox] attribute. *)
Record ViewBox := {
  viewBoxX : R;
  viewBoxY : R;
  viewBoxWidth : R;
  viewBoxHeight : R
}.

(** A zoom transform: [d3.zoomIdentity.translate(x, y).scale(k)]. *)
Record Transform := {
  transform_k : R;
  transform_x : R;
  transform_y : R
}.

Section Viewport.
Local Open Scope R_scope.

Definition padding : R := 100.

(** [Math.min] and [Math.max] over the nodes.  The code starts the four
    folds at plus or minus [Infinity]; the node list is not empty where
    they run, and the folds here start at the value of the first node. *)
Definition foldMin (f : Node → R) (n0 : Node) (rest : list Node) : R :=
  fold_left (λ m n, Rmin m (f n)) rest (f n0).
Definition foldMax (f : Node → R) (n0 : Node) (rest : list Node) : R :=
  fold_left (λ m n, Rmax m (f n)) rest (f n0).

(** The bounds [adjustViewBox] computes. *)
Record Bounds := {
  minX : R; maxX : R; minY : R; maxY : R
}.

Definition circleBounds (st : GraphData) (n0 : Node) (rest : list Node) : Bounds :=
  let radius n := INR (getNodeRadius st n) in
  {| minX := foldMin (λ n, node_x n - radius n) n0 rest;
     maxX := foldMax (λ n, node_x n + radius n) n0 rest;
     minY := foldMin (λ n, node_y n - radius n) n0 rest;
     maxY := foldMax (λ n, node_y n + radius n) n0 rest |}.

Definition graphWidth (b : Bounds) : R := maxX b - minX b + padding * 2.
Definition graphHeight (b : Bounds) : R := maxY b - minY b + padding * 2.
Definition graphCenterX (b : Bounds) : R := (minX b + maxX b) / 2.
Definition graphCenterY (b : Bounds) : R := (minY b + maxY b) / 2.

(** The [scale] of [adjustViewBox]. *)
Definition viewScale (pg : Page) (b : Bounds) : R :=
  Rmin (Rmin (IZR (clientWidth pg) / graphWidth b)
             (IZR (clientHeight pg) / graphHeight b)) 1.

(** [adjustViewBox]: the [viewBox] it sets, [None] when it returns
    before setting one. *)
Definition adjustViewBox (pg : Page) (st : GraphData) : option ViewBox :=
  match nodes st with
  | [] => None
  | n0 :: rest =>
      let b := circleBounds st n0 rest in
      let scale := viewScale pg b in
      let w := Rmax (graphWidth b) (IZR (clientWidth pg) / scale) in
      let h := Rmax (graphHeight b) (IZR (clientHeight pg) / scale) in
      Some {| viewBoxX := graphCenterX b - w / 2;
              viewBoxY := graphCenterY b - h / 2;
              viewBoxWidth := w; viewBoxHeight := h |}
  end.

(** [!r] for a number that is not [NaN]. *)
Definition falsy (r : R) : bool := if Req_dec_T r 0 then true else false.

(** The body of [fitView] on the data [nodes] of its selection: the
    transform handed to [zoom.transform], [None] when it returns before. *)
Definition fitTransform (pg : Page) (sel : list Node) : option Transform :=
  match sel with
  | [] => None
  | n0 :: rest =>
      let x0 := foldMin node_x n0 rest in
      let x1 := foldMax node_x n0 rest in
      let y0 := foldMin node_y n0 rest in
      let y1 := foldMax node_y n0 rest in
      if (falsy x0 || falsy x1 || falsy y0 || falsy y1)%bool then None
      else
        let graphWidth := Rmax (x1 - x0) 200 + padding * 2 in
        let graphHeight := Rmax (y1 - y0) 200 + padding * 2 in
        let scale := Rmin (Rmin (IZR (clientWidth pg) / graphWidth)
                                (IZR (clientHeight pg) / graphHeight)) (15 / 10) in
        Some {| transform_k := scale;
                transform_x := IZR (clientWidth pg) / 2 - (x0 + x1) / 2 * scale;
                transform_y := IZR (clientHeight pg) / 2 - (y0 + y1) / 2 * scale |}
  end.

End Viewport.

(** *** The rendered elements *)

(** The style properties the script writes on the circle of a node
    group, and the [sampled] class of the group. *)
Record NodeStyle := {
  circle_fill : string;
  circle_stroke : string;
  circle_stroke_width : string;
  circle_opacity : option string;
  circle_filter : option string;
  group_sampled : bool
}.

(** The style properties the script writes on a link line. *)
Record LinkStyle := {
  line_stroke : string;
  line_stroke_width : string;
  line_opacity : string;
  line_marker_end : string;
  line_filter : option string;
  line_sampled : bool
}.

(** The children of the group [g]: the [.node-group] elements and the
    [.link] elements, each with the datum bound to it. *)
Record Dom := {
  node_groups : list (Node * NodeStyle);
  link_elems : list (Link * LinkStyle)
}.

(** The data of [g.selectAll(selector)] for a class selector, over node
    groups. *)
Definition selectNodeData (selector : string) (dom : Dom) : list Node :=
  if String.eqb selector ".node-group" then map fst (node_groups dom) else [].

(** [fitView]: it selects [.node]. *)
Definition fitView (pg : Page) (dom : Dom) : option Transform :=
  fitTransform pg (selectNodeData ".node" dom).

Definition getNodeColor (d : Node) : string :=
  if String.eqb (node_expansion_status d) "current" then "#1e40af"
  else if String.eqb (node_expansion_status d) "expansion" then "#60a5fa"
  else "#94a3b8".

(** The style [renderCurrentGraph] gives the circle of a node group it
    has just created. *)
Definition renderedNodeStyle (d : Node) : NodeStyle :=
  let strokeColor :=
    if String.eqb (node_expansion_status d) "current" then "#1e3a8a"
    else if String.eqb (node_expansion_status d) "expansion" then "#2563eb"
    else "#6b7280" in
  let strokeWidth :=
    if String.eqb (node_expansion_status d) "current" then "4"
    else if String.eqb (node_expansion_status d) "expansion" then "3"
    else "2" in
  {| circle_fill := getNodeColor d; circle_stroke := strokeColor;
     circle_stroke_width := strokeWidth +:+ "px";
     circle_opacity := None; circle_filter := None; group_sampled := false |}.

(** The style [renderCurrentGraph] gives a link line. *)
Definition renderedLinkStyle : LinkStyle :=
  {| line_stroke := "#64748b"; line_stroke_width := "2.5";
     line_opacity := "0.8"; line_marker_end := "url(#arrowhead)";
     line_filter := None; line_sampled := false |}.

(** The filter of [validLinks]. *)
Definition hasNode (ns : list Node) (endpoint : option string) : bool :=
  match list_find (λ n, Some (node_id n) = endpoint) ns with
  | Some _ => true
  | None => false
  end.

Definition validLink (ns : list Node) (l : Link) : bool :=
  (hasNode ns (Js.or (link_source_id l) (link_source l)) &&
   hasNode ns (Js.or (link_target_id l) (link_target l)))%bool.

(** The link as the force simulation holds it: [source] and [target] are
    set from the ids (and stand for the node objects of these ids). *)
Definition boundLink (l : Link) : Link :=
  {| link_source := Js.or (link_source_id l) (link_source l);
     link_target := Js.or (link_target_id l) (link_target l);
     link_source_id := link_source_id l; link_target_id := link_target_id l;
     link_id := link_id l; link_relation := link_relation l;
     link_relationship := link_relationship l |}.

(** [renderCurrentGraph] on an empty group [g]: one node group per node,
    one line per valid link. *)
Definition renderCurrentGraph (st : GraphData) : Dom :=
  let validLinks := List.filter (validLink (nodes st)) (links st) in
  {| node_groups := map (λ d, (d, renderedNodeStyle d)) (nodes st);
     link_elems := map (λ l, (boundLink l, renderedLinkStyle)) validLinks |}.

(** *** The highlight overlay *)

(** A node and a link of a [sampled_graph_update] event. *)
Record SampledNode := {
  sampled_id : option string;
  sampled_name : option string
}.

Record SampledLink := {
  sampled_source_id : option string;
  sampled_source : option string;
  sampled_target_id : option string;
  sampled_target : option string
}.

(** [`${a}-${b}`]. *)
Definition pairKey (a b : option string) : string :=
  Js.show a +:+ "-" +:+ Js.show b.

(** [set.has(a)] for a string or [undefined]. *)
Definition has (set : gset string) (a : option string) : bool :=
  match a with
  | Some s => bool_decide (s ∈ set)
  | None => false
  end.

Definition sampledNodeIds (sampledNodes : list SampledNode) : gset string :=
  fold_left
    (λ set node,
       let nodeId := Js.or (sampled_id node) (sampled_name node) in
       if Js.truthy_opt nodeId then set ∪ {[ Js.show nodeId ]} else set)
    sampledNodes ∅.

Definition sampledLinkIds (sampledLinks : list SampledLink) : gset string :=
  fold_left
    (λ set link,
       let sourceId := Js.or (sampled_source_id link) (sampled_source link) in
       let targetId := Js.or (sampled_target_id link) (sampled_target link) in
       if (Js.truthy_opt sourceId && Js.truthy_opt targetId)%bool
       then set ∪ {[ pairKey sourceId targetId ]} ∪ {[ pairKey targetId sourceId ]}
       else set)
    sampledLinks ∅.

Definition connectedLinkIds (st : GraphData) (sampledNodes : list SampledNode)
    (sampledLinks : list SampledLink) : gset string :=
  fold_left
    (λ set link,
       let sourceId := Js.or (link_source_id link) (link_source link) in
       let targetId := Js.or (link_target_id link) (link_target link) in
       if (has (sampledNodeIds sampledNodes) sourceId ||
           has (sampledNodeIds sampledNodes) targetId)%bool
       then set ∪ {[ pairKey sourceId targetId ]} ∪ {[ pairKey targetId sourceId ]}
       else set)
    (links st) (sampledLinkIds sampledLinks).

(** The first pass over the node groups. *)
Definition resetNodeStyle (d : Node) : NodeStyle :=
  {| circle_fill := getNodeColor d; circle_stroke := "#6b7280";
     circle_stroke_width := "2px"; circle_opacity := Some "1";
     circle_filter := Some "none"; group_sampled := false |}.

Definition sampledNodeStyle : NodeStyle :=
  {| circle_fill := "#3b82f6"; circle_stroke := "#1d4ed8";
     circle_stroke_width := "4px"; circle_opacity := Some "1";
     circle_filter := Some "drop-shadow(0 0 8px rgba(59, 130, 246, 0.6))";
     group_sampled := true |}.

Definition dimmedNodeStyle (d : Node) : NodeStyle :=
  {| circle_fill := getNodeColor d; circle_stroke := "#6b7280";
     circle_stroke_width := "1px"; circle_opacity := Some "0.4";
     circle_filter := Some "none"; group_sampled := false |}.

(** The second pass over the node groups. *)
Definition isSampledNode (ids : gset string) (d : Node) : bool :=
  (bool_decide (node_id d ∈ ids) || bool_decide (node_name d ∈ ids))%bool.

Definition highlightNodeStyle (ids : gset string) (d : Node) : NodeStyle :=
  if isSampledNode ids d then sampledNodeStyle else dimmedNodeStyle d.

(** The first pass over the links. *)
Definition resetLinkStyle : LinkStyle :=
  {| line_stroke := "#94a3b8"; line_stroke_width := "2"; line_opacity := "1";
     line_marker_end := "url(#arrowhead)"; line_filter := Some "none";
     line_sampled := false |}.

Definition sampledLinkStyle : LinkStyle :=
  {| line_stroke := "#1d4ed8"; line_stroke_width := "4"; line_opacity := "1";
     line_marker_end := "url(#arrowhead-highlight)";
     line_filter := Some "drop-shadow(0 0 4px rgba(29, 78, 216, 0.5))";
     line_sampled := true |}.

Definition dimmedLinkStyle : LinkStyle :=
  {| line_stroke := "#94a3b8"; line_stroke_width := "1"; line_opacity := "0.3";
     line_marker_end := "url(#arrowhead)"; line_filter := Some "none";
     line_sampled := false |}.

(** The second pass over the links; [d.source] and [d.target] are the
    node objects of the simulation, read through their [id]. *)
Definition isHighlightedLink (ids : gset string) (d : Link) : bool :=
  let linkId1 := pairKey (link_source d) (link_target d) in
  let linkId2 := pairKey (link_target d) (link_source d) in
  (bool_decide (linkId1 ∈ ids) || bool_decide (linkId2 ∈ ids))%bool.

Definition highlightLinkStyle (ids : gset string) (d : Link) : LinkStyle :=
  if isHighlightedLink ids d then sampledLinkStyle else dimmedLinkStyle.

(** [highlightSampledGraph(sampledNodes, sampledLinks)]: both passes over
    the node groups, then both passes over the links.  Each pass writes
    every property of the style records. *)
Definition highlightSampledGraph (st : GraphData) (sampledNodes : list SampledNode)
    (sampledLinks : list SampledLink) (dom : Dom) : Dom :=
  let nodeIds := sampledNodeIds sampledNodes in
  let linkIds := connectedLinkIds st sampledNodes sampledLinks in
  let groups1 := map (λ e, (fst e, resetNodeStyle (fst e))) (node_groups dom) in
  let groups2 := map (λ e, (fst e, highlightNodeStyle nodeIds (fst e))) groups1 in
  let lines1 := map (λ e, (fst e, resetLinkStyle)) (link_elems dom) in
  let lines2 := map (λ e, (fst e, highlightLinkStyle linkIds (fst e))) lines1 in
  {| node_groups := groups2; link_elems := lines2 |}.

(** *** Vocabulary of the placement *)

Section PlacementSpec.
Local Open Scope R_scope.

(** The point of the circle of centre [(cx, cy)] and radius [r] at [k/m]
    of a full turn: vertex [k] of a regular polygon of [m] vertices. *)
Definition onCircle (cx cy r k m : R) : R * R :=
  (cx + r * cos (2 * PI * (k / m)), cy + r * sin (2 * PI * (k / m))).

(** The rings, in integer arithmetic: [floor(sqrt(i))] is [Nat.sqrt i]. *)
Definition ringIndex (i : nat) : Z := Z.of_nat (Nat.sqrt i).
Definition ringCapacity (i : nat) : Z := Z.max 6 (ringIndex i * 6).
Definition ringRadius (i : nat) : R := 80 + IZR (ringIndex i) * 100.

(** The grid, in integer arithmetic: [ceil(sqrt(n))] is [Z.sqrt_up n]. *)
Definition gridSide (n : nat) : Z := (Z.sqrt_up (Z.of_nat n) + 2)%Z.

(** The side of a cell of the grid in a container of the given width and
    height. *)
Definition cellSize (width height : R) (n : nat) : R :=
  Rmax 120 (Rmin width height / IZR (gridSide n)).

(** The cell of node [i] in the hex-offset grid around the centre of a
    container of the given width and height: column [i mod side], row
    [i / side], the odd rows shifted right by half a cell. *)
Definition gridPoint (width height : R) (i n : nat) : R * R :=
  let side := gridSide n in
  let r := (Z.of_nat i / side)%Z in
  let c := (Z.of_nat i mod side)%Z in
  ((IZR c - IZR side / 2) * cellSize width height n + width / 2
     + (if Z.odd r then cellSize width height n / 2 else 0),
   (IZR r - IZR side / 2) * (cellSize width height n * (866 / 1000)) + height / 2).

(** The four cases of the initial placement of node [i] among [n] in a
    container of the given width and height, whose centre is
    [(width / 2, height / 2)]. *)
Definition placementSpec (width height : R) (i n : nat) (p : R * R) : Prop :=
  ((n ≤ 1)%nat → p = (width / 2, height / 2)) ∧
  ((1 < n ≤ 6)%nat → p = onCircle (width / 2) (height / 2) 120 (INR i) (INR n)) ∧
  ((6 < n ≤ 20)%nat →
     p = onCircle (width / 2) (height / 2) (ringRadius i)
                  (IZR (Z.of_nat i mod ringCapacity i)) (IZR (ringCapacity i))) ∧
  ((20 < n)%nat →
     Rabs (fst p - fst (gridPoint width height i n)) <= 20 ∧
     Rabs (snd p - snd (gridPoint width height i n)) <= 20).

(** The width and the height the placement works with: those of the
    container, and 1200 and 800 in place of a width and a height of 0. *)
Definition widthOr1200 (pg : Page) : R :=
  if decide (clientWidth pg = 0%Z) then 1200 else IZR (clientWidth pg).
Definition heightOr800 (pg : Page) : R :=
  if decide (clientHeight pg = 0%Z) then 800 else IZR (clientHeight pg).

End PlacementSpec.

(** *** Vocabulary of the overlay *)

(** Every element in the style of an element that is not sampled. *)
Definition dimAll (dom : Dom) : Dom :=
  {| node_groups := map (λ e, (fst e, dimmedNodeStyle (fst e))) (node_groups dom);
     link_elems := map (λ e, (fst e, dimmedLinkStyle)) (link_elems dom) |}.

(** A link of the store between two ids, with a relation. *)
Definition plainLink (source target relation : string) : Link :=
  processLink {| lrec_source_id := None; lrec_source := Some source;
                 lrec_target_id := None; lrec_target := Some target;
                 lrec_relation := Some relation; lrec_relationship := None |}.

(** *** Vocabulary of the viewport *)

Section ViewportSpec.
Local Open Scope R_scope.

(** [scale] is the largest factor, at most 1, at which a box of the given
    width and height fits a container of the given width and height. *)
Definition largestFit (scale boxW boxH contW contH : R) : Prop :=
  scale <= 1 ∧ scale * boxW <= contW ∧ scale * boxH <= contH ∧
  ∀ s, s <= 1 → s * boxW <= contW → s * boxH <= contH → s <= scale.

(** The circle of a node, widened by the margin, lies in the view box. *)
Definition inViewBox (st : GraphData) (vb : ViewBox) (n : Node) : Prop :=
  let radius := INR (getNodeRadius st n) in
  viewBoxX vb <= node_x n - radius - padding ∧
  node_x n + radius + padding <= viewBoxX vb + viewBoxWidth vb ∧
  viewBoxY vb <= node_y n - radius - padding ∧
  node_y n + radius + padding <= viewBoxY vb + viewBoxHeight vb.

End ViewportSpec.

(** *** Vocabulary of the properties of the store *)

(** [n'] is [n] with the same identity and at the same place. *)
Definition keeps (n n' : Node) : Prop :=
  node_id n' = node_id n ∧ node_x n' = node_x n ∧ node_y n' = node_y n.

(** Every node of [ns] is still in [ns'], at the same index, with the
    same identity and at the same place. *)
Definition preserved (ns ns' : list Node) : Prop :=
  ∀ i n, ns !! i = Some n → ∃ n', ns' !! i = Some n' ∧ keeps n n'.

(** The ids of the nodes of a store, in order. *)
Definition nodeIds (st : GraphData) : list string := map node_id (nodes st).

(** The ids of the node records of a batch, in order. *)
Definition batchIds (data : UpdateData) : list string :=
  match data_nodes data with
  | Some rs => map rec_id rs
  | None => []
  end.

(** A sequence of [graph_update] events, each with the random numbers
    drawn while it is handled. *)
Definition applyAll (pg : Page) (st : GraphData)
    (events : list ((nat → R * R) * UpdateData)) : GraphData :=
  fold_left (λ st e, applyIncremental pg (fst e) st (snd e)) events st.

(** A page of 1200 by 800 pixels without the optional elements, and a
    source of random numbers that always draws 0. *)
Definition plainPage : Page :=
  {| clientWidth := 1200; clientHeight := 800;
     initial_entity := None; expansion_container := false |}.

Definition zeroRandom : nat → R * R := λ _, (0%R, 0%R).

(** A record that carries an id and a name only. *)
Definition bareRecord (id name : string) : NodeRecord :=
  {| rec_id := id; rec_name := name; rec_type := None;
     rec_description := None; rec_group := None;
     rec_expansion_status := None; rec_expansion_order := None |}.

(** A batch of node records only. *)
Definition nodeBatch (rs : list NodeRecord) : UpdateData :=
  {| data_expansion_info := None; data_nodes := Some rs; data_links := None |}.

(** A record that carries an id, a name and a type. *)
Definition typedRecord (id name type : string) : NodeRecord :=
  {| rec_id := id; rec_name := name; rec_type := Some type;
     rec_description := None; rec_group := None;
     rec_expansion_status := None; rec_expansion_order := None |}.

(** A node of the store with the default attributes. *)
Definition plainNode (id name : string) (x y : R) : Node :=
  {| node_id := id; node_name := name; node_type := "concept";
     node_description := ""; node_group := 0;
     node_expansion_status := "normal"; node_expansion_order := None;
     node_x := x; node_y := y |}.

(** *** Vocabulary of the idempotence of the merge *)

(** What the loop over the records [rs] makes of a node that was in the
    store before the loop: the node, with the record of its id assigned
    to it if the batch has one. *)
Definition assignFrom (rs : list NodeRecord) (n : Node) : Node :=
  match list_find (λ r, rec_id r = node_id n) rs with
  | Some (_, r) => assignNode r n
  | None => n
  end.

(** The nodes the loop creates for the records [rs], the store holding
    [k] nodes before the first of them. *)
Fixpoint newsFrom (pg : Page) (rnd : nat → R * R) (k : nat)
    (rs : list NodeRecord) : list Node :=
  match rs with
  | [] => []
  | r :: rs' => newNode pg r k (k + 1) (rnd k) :: newsFrom pg rnd (S k) rs'
  end.

(** Two nodes that differ at most in their expansion fields. *)
Definition sameBody (n n' : Node) : Prop :=
  node_id n' = node_id n ∧ node_name n' = node_name n ∧
  node_type n' = node_type n ∧ node_description n' = node_description n ∧
  node_group n' = node_group n ∧ node_x n' = node_x n ∧ node_y n' = node_y n.

(** The type of the record, when it has one, is not the empty string. *)
Definition typeNotEmpty (r : NodeRecord) : Prop := rec_type r ≠ Some "".

(** The three steps of an incremental [updateGraph] before its last
    self-heal pass: the store after [updateExpansionDisplay], its nodes
    after the loop over the records, its links after the loop over the
    link records. *)
Definition preMerge (pg : Page) (data : UpdateData) (st : GraphData) : GraphData :=
  match data_expansion_info data with
  | Some _ =>
      if expansion_container pg then ensureInitialNodeExpansionStatus pg st else st
  | None => st
  end.

Definition mergedNodes (pg : Page) (rnd : nat → R * R) (data : UpdateData)
    (st0 : GraphData) : list Node :=
  match markedNodes data with
  | Some rs => updateNodes pg rnd true (nodes st0) rs
  | None => nodes st0
  end.

Definition mergedLinks (data : UpdateData) (st0 : GraphData) : list Link :=
  match data_links data with
  | Some ls => updateLinks true (links st0) ls
  | None => links st0
  end.

(** The records of a batch, as the merge reads them. *)
Definition batchRecords (data : UpdateData) : list NodeRecord :=
  match data_nodes data with
  | Some rs => rs
  | None => []
  end.

(** *** [redistributeNodes] and [clearGraph] *)

(** [node.x = positionedNode.x; node.y = positionedNode.y]. *)
Definition moveTo (positionedNode : PositionedNode) (node : Node) : Node :=
  {| node_id := node_id node; node_name := node_name node;
     node_type := node_type node; node_description := node_description node;
     node_group := node_group node;
     node_expansion_status := node_expansion_status node;
     node_expansion_order := node_expansion_order node;
     node_x := pos_x positionedNode; node_y := pos_y positionedNode |}.

(** [redistributeNodes]: every node of the store is placed again, at its
    index among the nodes of the store.  The pins [fx] and [fy] of the
    drag, which it clears, are not part of [Node]. *)
Definition redistributeNodes (pg : Page) (rnd : nat → R * R) (st : GraphData)
    : GraphData :=
  match nodes st with
  | [] => st
  | _ :: _ =>
      {| nodes :=
           imap (λ index node,
                   moveTo (createPositionedNode pg (node_id node) (node_name node)
                             (Some (node_type node)) index (length (nodes st))
                             (fst (rnd index)) (snd (rnd index)))
                          node)
                (nodes st);
         links := links st |}
  end.

(** [clearGraph]: the store it leaves. *)
Definition clearGraph : GraphData := {| nodes := []; links := [] |}.

(** *** The line of a link: [getLinePoints] *)

Record LinePoints := {
  points_x1 : R; points_y1 : R; points_x2 : R; points_y2 : R
}.

Section LinePoints.
Local Open Scope R_scope.

(** [getLinePoints(source, target)] of the tick handler. *)
Definition getLinePoints (st : GraphData) (source target : Node) : LinePoints :=
  let sourceRadius := INR (getNodeRadius st source) + 2 in
  let targetRadius := INR (getNodeRadius st target) + 2 in
  let dx := node_x target - node_x source in
  let dy := node_y target - node_y source in
  let distance := sqrt (dx * dx + dy * dy) in
  if Req_dec_T distance 0 then
    {| points_x1 := node_x source; points_y1 := node_y source;
       points_x2 := node_x target; points_y2 := node_y target |}
  else
    let unitX := dx / distance in
    let unitY := dy / distance in
    {| points_x1 := node_x source + unitX * sourceRadius;
       points_y1 := node_y source + unitY * sourceRadius;
       points_x2 := node_x target - unitX * targetRadius;
       points_y2 := node_y target - unitY * targetRadius |}.

End LinePoints.

(** *** The expansion sequence of [updateExpansionDisplay] *)

(** An entry of [expansionInfo.expansion_nodes], and of [uniqueNodes]:
    its id, its name and its [order] ([None] when it carries none). *)
Record SequenceNode := {
  seq_id : string;
  seq_name : string;
  seq_order : option Z
}.

(** The state of the deduplication: [seenIds], [seenNames],
    [uniqueNodes]. *)
Record Seen := {
  seenIds : gset string;
  seenNames : gset string;
  seenNodes : list SequenceNode
}.

(** The body of [expansionInfo.expansion_nodes.forEach]. *)
Definition pushUnique (acc : Seen) (node : SequenceNode) : Seen :=
  if (negb (bool_decide (seq_id node ∈ seenIds acc)) &&
      negb (bool_decide (seq_name node ∈ seenNames acc)))%bool
  then {| seenIds := seenIds acc ∪ {[ seq_id node ]};
          seenNames := seenNames acc ∪ {[ seq_name node ]};
          seenNodes := seenNodes acc ++ [node] |}
  else acc.

(** The entry pushed for the initial node. *)
Definition initialEntry (initialNode : Node) : SequenceNode :=
  {| seq_id := node_id initialNode; seq_name := node_name initialNode;
     seq_order := Some (-1)%Z |}.

(** The list [uniqueNodes], from the node [findInitialNode] returned and
    the entries of the expansion sequence. *)
Definition uniqueNodes (initialNode : option Node)
    (expansion_nodes : list SequenceNode) : list SequenceNode :=
  let none := {| seenIds := ∅; seenNames := ∅; seenNodes := [] |} in
  let start :=
    match initialNode with
    | Some n =>
        if (negb (bool_decide (node_id n ∈ seenIds none)) &&
            negb (bool_decide (node_name n ∈ seenNames none)))%bool
        then {| seenIds := seenIds none ∪ {[ node_id n ]};
                seenNames := seenNames none ∪ {[ node_name n ]};
                seenNodes := seenNodes none ++ [initialEntry n] |}
        else none
    | None => none
    end in
  seenNodes (fold_left pushUnique expansion_nodes start).

(** The entries [updateExpansionDisplay] lists: none on a page without
    the expansion panel, none when the expansion sequence is empty.  The
    self-heal pass has run when the initial node is looked for. *)
Definition expansionSequence (pg : Page) (st : GraphData)
    (expansion_nodes : list SequenceNode) : list SequenceNode :=
  if negb (expansion_container pg) then []
  else
    match expansion_nodes with
    | [] => []
    | _ :: _ =>
        let healed := nodes (ensureInitialNodeExpansionStatus pg st) in
        uniqueNodes (findInitialNode pg healed ≫= λ i, healed !! i) expansion_nodes
    end.

(** *** [hashCode] and [truncateText] *)

(** The 32-bit signed integer of a number: what [<<] and [&] make of
    their operands and of their result. *)
Definition toInt32 (z : Z) : Z := ((z + 2 ^ 31) mod 2 ^ 32 - 2 ^ 31)%Z.

(** [hashCode(str)]; the string is given by its code units, the numbers
    [str.charCodeAt(i)]. *)
Definition hashCode (str : list Z) : Z :=
  fold_left
    (λ hash char,
       let hash1 := (toInt32 (Z.shiftl (toInt32 hash) 5) - hash + char)%Z in
       toInt32 (Z.land (toInt32 hash1) (toInt32 hash1)))
    str 0%Z.

(** [truncateText(text, maxLength)]; the text is given by its code
    units, which [length] counts and [substring] cuts, and ['...'] is
    three times the code unit 46; [substring] reads a negative bound as
    0. *)
Definition truncateText (text : list Z) (maxLength : Z) : list Z :=
  if (Z.of_nat (length text) <=? maxLength)%Z then text
  else take (Z.to_nat maxLength) text ++ [46; 46; 46]%Z.

(** *** Vocabulary of the further properties *)

(** Two nodes that differ at most in their place. *)
Definition sameData (n n' : Node) : Prop :=
  node_id n' = node_id n ∧ node_name n' = node_name n ∧
  node_type n' = node_type n ∧ node_description n' = node_description n ∧
  node_group n' = node_group n ∧
  node_expansion_status n' = node_expansion_status n ∧
  node_expansion_order n' = node_expansion_order n.

(** The link names the node as one of its endpoints. *)
Definition namesNode (d : Node) (l : Link) : Prop :=
  Js.or (link_source_id l) (link_source l) = Some (node_id d) ∨
  Js.or (link_target_id l) (link_target l) = Some (node_id d).

(** The value of the polynomial of the code units in 31, the last code
    unit at degree 0. *)
Definition polynomial31 (str : list Z) : Z :=
  fold_left (λ acc char, (31 * acc + char)%Z) str 0%Z.

(** A payload without nodes and without links. *)
Definition bareUpdate (info : option ExpansionInfo) : UpdateData :=
  {| data_expansion_info := info; data_nodes := None; data_links := None |}.

(** The status the loop over [data.nodes] writes for a record of the
    expansion sequence. *)
Definition markedStatus (info : ExpansionInfo) (id : string) : string :=
  if bool_decide (current_node info = Some id) then "current" else "expansion".

(** A node whose status is the one the expansion sequence asks for. *)
Definition marked (info : ExpansionInfo) (n : Node) : Prop :=
  node_id n ∈ expansion_nodes info →
  node_expansion_status n = markedStatus info (node_id n).

(** The ids of the links of a store, and the ids the link records of a
    payload are given, in order. *)
Definition linkIds (st : GraphData) : list string := map link_id (links st).

Definition batchLinkIds (data : UpdateData) : list string :=
  match data_links data with
  | Some ls => map (λ l, link_id (processLink l)) ls
  | None => []
  end.

(** The key of a sampled node: [node.id || node.name]. *)
Definition sampledKey (node : SampledNode) : option string :=
  Js.or (sampled_id node) (sampled_name node).

End SingleQA.

(** ** The multi-run page: the preview of [displayGraphPreview] and the
       list of runs, in [runs_qa_generation.js] *)

Module RunsQA.

(** A node of the local array [nodes]; its coordinates, which the
    resolver does not read, are left out. *)
Record PreviewNode := {
  node_id : string;
  node_name : string;
  node_type : string;
  node_description : string;
  node_originalId : option string
}.

(** A relationship record of the run. *)
Record Relationship := {
  rel_source : option string;
  rel_source_name : option string;
  rel_head : option string;
  rel_from : option string;
  rel_subject : option string;
  rel_target : option string;
  rel_target_name : option string;
  rel_tail : option string;
  rel_to : option string;
  rel_object : option string;
  rel_relation : option string;
  rel_relationship : option string;
  rel_type : option string;
  rel_label : option string
}.

(** *** Object literals used as dictionaries *)

(** The names that [Object.prototype] defines.  An object literal that
    has no own property of such a name answers it with the member of the
    prototype: a function, and the prototype itself for [__proto__]. *)
Definition objectPrototype : list string :=
  ["constructor"; "hasOwnProperty"; "isPrototypeOf"; "propertyIsEnumerable";
   "toLocaleString"; "toString"; "valueOf"; "__defineGetter__";
   "__defineSetter__"; "__lookupGetter__"; "__lookupSetter__"; "__proto__"].

(** What [object[key]] is, for an object literal whose own properties
    hold values of type [A]: the value of the own property, or the member
    of [Object.prototype] of this name. *)
Inductive Value (A : Type) :=
  | Own (a : A)
  | Member (key : string).

Arguments Own {A} a.
Arguments Member {A} key.

#[global] Instance Value_eq_dec {A} `{EqDecision A} : EqDecision (Value A).
Proof. solve_decision. Defined.

(** [object[key]]; [None] is [undefined]. *)
Definition getProperty {A} (object : gmap string A) (key : string)
    : option (Value A) :=
  match object !! key with
  | Some a => Some (Own a)
  | None => if bool_decide (key ∈ objectPrototype) then Some (Member key) else None
  end.

(** [object[key] = a] for a string or a number [a]: the own property is
    written, except for [__proto__], whose setter ignores such a value. *)
Definition setProperty {A} (object : gmap string A) (key : string) (a : A)
    : gmap string A :=
  if String.eqb key "__proto__" then object else <[key := a]> object.

(** [!!v] for a string, a member of the prototype or [undefined]. *)
Definition truthyValue (v : option (Value string)) : bool :=
  match v with
  | Some (Own s) => Js.truthy s
  | Some (Member _) => true
  | None => false
  end.

(** *** The links of the preview *)

(** A link of the local array [links]; the chain links carry no
    [originalRelation].  An endpoint is the id of a node, or a member of
    [Object.prototype] when the dictionary answered the key with one. *)
Record PreviewLink := {
  link_source : Value string;
  link_target : Value string;
  link_source_id : Value string;
  link_target_id : Value string;
  link_relation : string;
  link_id : string;
  link_originalRelation : option Relationship
}.

Definition sourceKey (rel : Relationship) : option string :=
  Js.or (Js.or (Js.or (Js.or (rel_source rel) (rel_source_name rel))
                      (rel_head rel)) (rel_from rel)) (rel_subject rel).

Definition targetKey (rel : Relationship) : option string :=
  Js.or (Js.or (Js.or (Js.or (rel_target rel) (rel_target_name rel))
                      (rel_tail rel)) (rel_to rel)) (rel_object rel).

(** The dictionary [nameToId], an object literal: its own properties. *)
Definition nameToId (nodes : list PreviewNode) : gmap string string :=
  fold_left
    (λ m node,
       let m1 := setProperty m (node_id node) (node_id node) in
       let m2 := setProperty m1 (node_name node) (node_id node) in
       if Js.truthy_opt (node_originalId node)
       then setProperty m2 (Js.show (node_originalId node)) (node_id node)
       else m2)
    nodes ∅.

(** The test of the fuzzy search. *)
Definition fuzzyMatch (key : string) (n : PreviewNode) : Prop :=
  Js.includes (node_name n) key ∨ Js.includes key (node_name n) ∨
  node_id n = key ∨ node_originalId n = Some key.

#[global] Instance fuzzyMatch_dec key n : Decision (fuzzyMatch key n).
Proof. unfold fuzzyMatch. apply _. Defined.

(** What an endpoint key resolves to: the answer of the dictionary when
    it is truthy, else the id of the first node the fuzzy search finds;
    [None] is [null]. *)
Definition resolveEndpoint (nodes : list PreviewNode) (key : string)
    : option (Value string) :=
  let direct := getProperty (nameToId nodes) key in
  if truthyValue direct then direct
  else (λ e, Own (node_id (snd e))) <$> list_find (fuzzyMatch key) nodes.

Section Resolver.

(** The text of the function of [Object.prototype] of a given name, which
    the language leaves to the implementation. *)
Variable functionText : string → string.

(** [`${v}`]. *)
Definition showValue (v : Value string) : string :=
  match v with
  | Own s => s
  | Member key =>
      if String.eqb key "__proto__" then "[object Object]" else functionText key
  end.

(** The body of [relationships.forEach]: the link pushed for one
    relationship, if any. *)
Definition resolveLink (nodes : list PreviewNode) (rel : Relationship) : option PreviewLink :=
  if (negb (Js.truthy_opt (sourceKey rel)) || negb (Js.truthy_opt (targetKey rel)))%bool
  then None
  else
    let sourceId := resolveEndpoint nodes (Js.show (sourceKey rel)) in
    let targetId := resolveEndpoint nodes (Js.show (targetKey rel)) in
    match sourceId, targetId with
    | Some s, Some t =>
        if (truthyValue sourceId && truthyValue targetId &&
            negb (bool_decide (s = t)))%bool then
          Some {| link_source := s; link_target := t;
                  link_source_id := s; link_target_id := t;
                  link_relation :=
                    Js.or_lit (Js.or (Js.or (Js.or (rel_relation rel) (rel_relationship rel))
                                            (rel_type rel)) (rel_label rel)) "related";
                  link_id := showValue s +:+ "-" +:+ showValue t +:+ "-" +:+
                             Js.or_lit (rel_relation rel) "related";
                  link_originalRelation := Some rel |}
        else None
    | _, _ => None
    end.

Definition resolveLinks (nodes : list PreviewNode) (relationships : list Relationship)
    : list PreviewLink :=
  omap (resolveLink nodes) relationships.

(** One link of the fallback loop. *)
Definition chainLink (a b : PreviewNode) : PreviewLink :=
  {| link_source := Own (node_id a); link_target := Own (node_id b);
     link_source_id := Own (node_id a); link_target_id := Own (node_id b);
     link_relation := "related";
     link_id := node_id a +:+ "-" +:+ node_id b +:+ "-related";
     link_originalRelation := None |}.

(** The [for] loop of the fallback. *)
Definition chainLinks (nodes : list PreviewNode) : list PreviewLink :=
  flat_map
    (λ i, match nodes !! i, nodes !! (i + 1)%nat with
          | Some a, Some b => [chainLink a b]
          | _, _ => []
          end)
    (seq 0 (Nat.min (length nodes - 1) 10)).

Definition decimal (n : nat) : string :=
  NilZero.string_of_uint (Nat.to_uint n).

(** What the page shows in [#valid-links-count]. *)
Definition countLabel (generated : bool) (n : nat) : string :=
  if generated then decimal n +:+ " <em>(随机生成)</em>" else decimal n.

(** The links the preview draws and the text of [#valid-links-count]
    ([None] when the page has no such element). *)
Record Preview := {
  preview_links : list PreviewLink;
  preview_count : option string
}.

(** The part of [drawGraph] that builds [links]. *)
Definition previewLinks (hasCountEl : bool) (nodes : list PreviewNode)
    (relationships : list Relationship) : Preview :=
  let links := resolveLinks nodes relationships in
  if (Nat.eqb (length links) 0 && Nat.ltb 1 (length nodes))%bool then
    let links' := links ++ chainLinks nodes in
    {| preview_links := links';
       preview_count :=
         if hasCountEl then Some (countLabel true (length links')) else None |}
  else
    {| preview_links := links;
       preview_count :=
         if hasCountEl then Some (countLabel false (length links)) else None |}.

End Resolver.

(** *** The nodes of the preview: the first part of [drawGraph] *)

(** An entity of the run. *)
Record Entity := {
  entity_id : option string;
  entity_name : option string;
  entity_type : option string;
  entity_description : option string
}.

(** A value of the object literal [entityConnectionCount]: a number, or
    the text that [+ 1] makes of a member of the prototype, which is no
    numeral. *)
Inductive Count :=
  | Num (n : nat)
  | Text.

(** [(entityConnectionCount[key] || 0) + 1]. *)
Definition increment (v : option (Value Count)) : Count :=
  match v with
  | None => Num 1
  | Some (Own (Num n)) => Num (n + 1)
  | Some (Own Text) => Text
  | Some (Member _) => Text
  end.

(** [entityConnectionCount[key] = (entityConnectionCount[key] || 0) + 1]
    under its guard [if (key)]. *)
Definition countKey (key : option string) (counts : gmap string Count)
    : gmap string Count :=
  if Js.truthy_opt key
  then setProperty counts (Js.show key) (increment (getProperty counts (Js.show key)))
  else counts.

Definition entityConnectionCount (relationships : list Relationship)
    : gmap string Count :=
  fold_left
    (λ counts rel, countKey (targetKey rel) (countKey (sourceKey rel) counts))
    relationships ∅.

(** [entityConnectionCount[a.name] || 0] as the subtraction reads it: a
    number, or [None] for a value that is not a number. *)
Definition connections (counts : gmap string Count) (a : Entity) : option nat :=
  match getProperty counts (Js.show (entity_name a)) with
  | None => Some 0%nat
  | Some (Own (Num n)) => Some n
  | Some (Own Text) => None
  | Some (Member _) => None
  end.

(** The comparison function: [bConnections - aConnections], [None] for
    [NaN]. *)
Definition compareEntities (counts : gmap string Count) (a b : Entity) : option Z :=
  match connections counts a, connections counts b with
  | Some x, Some y => Some (Z.of_nat y - Z.of_nat x)%Z
  | _, _ => None
  end.

(** [entities.sort(compare)]: the sort of an array is stable, it puts [a]
    before [b] when the comparison is negative and reads [NaN] as 0.  It
    is written here as the insertion of each entity, from the last to
    the first, before the first entity that does not have to precede it.
    When every count is a number this is the order of the language;
    when one is not, the comparison is not consistent and the language
    leaves the order to the implementation. *)
Fixpoint insertEntity (counts : gmap string Count) (a : Entity)
    (sorted : list Entity) : list Entity :=
  match sorted with
  | [] => [a]
  | b :: rest =>
      if (default 0 (compareEntities counts a b) <=? 0)%Z then a :: sorted
      else b :: insertEntity counts a rest
  end.

Definition sortedEntities (counts : gmap string Count) (entities : list Entity)
    : list Entity :=
  foldr (insertEntity counts) [] entities.

Definition entitiesToShow (entities : list Entity)
    (relationships : list Relationship) : list Entity :=
  if (200 <? length entities)%nat then
    take 200 (sortedEntities (entityConnectionCount relationships) entities)
  else entities.

(** The body of [entitiesToShow.map]; the coordinates are left out. *)
Definition previewNode (i : nat) (entity : Entity) : PreviewNode :=
  {| node_id := Js.or_lit (Js.or (entity_name entity) (entity_id entity))
                          ("entity_" +:+ decimal i);
     node_name := Js.or_lit (entity_name entity) ("实体" +:+ decimal i);
     node_type := Js.or_lit (entity_type entity) "concept";
     node_description := Js.or_lit (entity_description entity) "";
     node_originalId := entity_id entity |}.

Definition previewNodes (entities : list Entity)
    (relationships : list Relationship) : list PreviewNode :=
  imap previewNode (entitiesToShow entities relationships).

(** The nodes and the links [drawGraph] hands to the simulation. *)
Definition drawGraph (functionText : string → string) (hasCountEl : bool)
    (entities : list Entity) (relationships : list Relationship)
    : list PreviewNode * Preview :=
  let nodes := previewNodes entities relationships in
  (nodes, previewLinks functionText hasCountEl nodes relationships).

(** *** Vocabulary of the properties of the preview *)

(** A relationship between two keys, without a relation. *)
Definition plainRelationship (source target : string) : Relationship :=
  {| rel_source := Some source; rel_source_name := None; rel_head := None;
     rel_from := None; rel_subject := None;
     rel_target := Some target; rel_target_name := None; rel_tail := None;
     rel_to := None; rel_object := None;
     rel_relation := None; rel_relationship := None; rel_type := None;
     rel_label := None |}.

(** An entity with a name and nothing else, and one with an id too. *)
Definition namedEntity (name : string) : Entity :=
  {| entity_id := None; entity_name := Some name;
     entity_type := None; entity_description := None |}.

Definition listedEntity (id name : string) : Entity :=
  {| entity_id := Some id; entity_name := Some name;
     entity_type := None; entity_description := None |}.

(** The entities named "n0", "n1", ... *)
Definition numberedEntities (count : nat) : list Entity :=
  map (λ i, namedEntity ("n" +:+ decimal i)) (seq 0 count).

(** The text one implementation gives the functions of the prototype;
    the function [constructor] is [Object]. *)
Definition nativeText (key : string) : string :=
  "function " +:+ (if String.eqb key "constructor" then "Object" else key)
  +:+ "() { [native code] }".

(** *** [fitGraphToView] *)

Section Fit.
Local Open Scope R_scope.

(** The callback of [fitGraphToView]; the nodes are given by their
    coordinates [(n.x, n.y)], which are numbers: none is dropped by the
    two filters.  The transform is the one handed to [zoom.transform],
    [None] when the function returns before. *)
Definition fitGraphToView (width height : R) (nodes : list (R * R))
    : option SingleQA.Transform :=
  match nodes with
  | [] => None
  | n0 :: rest =>
      let minX := fold_left Rmin (map fst rest) (fst n0) in
      let maxX := fold_left Rmax (map fst rest) (fst n0) in
      let minY := fold_left Rmin (map snd rest) (snd n0) in
      let maxY := fold_left Rmax (map snd rest) (snd n0) in
      let margin := 50 in
      let graphWidth := maxX - minX + margin * 2 in
      let graphHeight := maxY - minY + margin * 2 in
      let centerX := (minX + maxX) / 2 in
      let centerY := (minY + maxY) / 2 in
      let scale := Rmin (Rmin (8 / 10 * width / graphWidth)
                              (8 / 10 * height / graphHeight)) 1 in
      let translateX := width / 2 - scale * centerX in
      let translateY := height / 2 - scale * centerY in
      Some {| SingleQA.transform_k := scale;
              SingleQA.transform_x := translateX;
              SingleQA.transform_y := translateY |}
  end.

End Fit.

(** *** The list of runs: [formatTimestamp] and the selection *)

(** [\d]. *)
Definition is_digit (c : ascii) : bool :=
  let n := nat_of_ascii c in (Nat.leb 48 n && Nat.leb n 57)%bool.

(** [\d{k}] at the start of the string: the digits and the rest. *)
Fixpoint digits (k : nat) (s : string) : option (string * string) :=
  match k with
  | O => Some (EmptyString, s)
  | S k' =>
      match s with
      | String c s' =>
          if is_digit c then
            match digits k' s' with
            | Some (d, rest) => Some (String c d, rest)
            | None => None
            end
          else None
      | EmptyString => None
      end
  end.

(** The six groups of a timestamp. *)
Record Stamp := {
  year : string; month : string; day : string;
  hour : string; minute : string; second : string
}.

(** The pattern [(\d{4})(\d{2})(\d{2})_(\d{2})(\d{2})(\d{2})] at the
    start of the string. *)
Definition stampAt (s : string) : option Stamp :=
  match digits 4 s with
  | Some (y, s1) =>
    match digits 2 s1 with
    | Some (mo, s2) =>
      match digits 2 s2 with
      | Some (d, String "_" s3) =>
        match digits 2 s3 with
        | Some (h, s4) =>
          match digits 2 s4 with
          | Some (mi, s5) =>
            match digits 2 s5 with
            | Some (se, _) =>
                Some {| year := y; month := mo; day := d;
                        hour := h; minute := mi; second := se |}
            | None => None
            end
          | None => None
          end
        | None => None
        end
      | _ => None
      end
    | None => None
    end
  | None => None
  end.

(** [timestamp.match(pattern)]: the pattern is tried at each position,
    from the left. *)
Fixpoint matchStamp (s : string) : option Stamp :=
  match stampAt s with
  | Some groups => Some groups
  | None =>
      match s with
      | EmptyString => None
      | String _ s' => matchStamp s'
      end
  end.

(** [formatTimestamp(timestamp)] for a string or [undefined]. *)
Definition formatTimestamp (timestamp : option string) : string :=
  if negb (Js.truthy_opt timestamp) then "未知时间"
  else
    match matchStamp (Js.show timestamp) with
    | Some g =>
        year g +:+ "-" +:+ month g +:+ "-" +:+ day g +:+ " " +:+
        hour g +:+ ":" +:+ minute g +:+ ":" +:+ second g
    | None => Js.show timestamp
    end.

(** A run of the list, with the time [parseTimestamp] reads from its
    timestamp, in milliseconds: [None] when it reads none, or no valid
    date. *)
Record Run := {
  run_id : string;
  has_graph_data : bool;
  run_time : option Z
}.

(** [isRunInTimeRange(run, startTime, endTime)], the two bounds in
    milliseconds, [None] for [null]. *)
Definition isRunInTimeRange (run : Run) (startTime endTime : option Z) : bool :=
  match run_time run with
  | None => true
  | Some runTime =>
      if match startTime with Some t => (runTime <? t)%Z | None => false end then false
      else if match endTime with Some t => (t <? runTime)%Z | None => false end then false
      else true
  end.

(** [availableRuns] and [selectedRuns]. *)
Record Selector := {
  availableRuns : list Run;
  selectedRuns : gset string
}.

(** [toggleRunSelection(runId)]. *)
Definition toggleRunSelection (sel : Selector) (runId : string) : Selector :=
  match list_find (λ r, run_id r = runId) (availableRuns sel) with
  | Some (_, run) =>
      if negb (has_graph_data run) then sel
      else if bool_decide (runId ∈ selectedRuns sel) then
        {| availableRuns := availableRuns sel;
           selectedRuns := selectedRuns sel ∖ {[ runId ]} |}
      else
        {| availableRuns := availableRuns sel;
           selectedRuns := selectedRuns sel ∪ {[ runId ]} |}
  | None => sel
  end.

(** [clearSelection]. *)
Definition clearSelection (sel : Selector) : Selector :=
  {| availableRuns := availableRuns sel; selectedRuns := ∅ |}.

(** [selectAllInTimeRange], with the bounds read from the two inputs
    ([None] for an empty input). *)
Definition selectAllInTimeRange (sel : Selector) (startTime endTime : option Z)
    : Selector :=
  match startTime, endTime with
  | None, None => sel
  | _, _ =>
      {| availableRuns := availableRuns sel;
         selectedRuns :=
           fold_left
             (λ set run,
                if (has_graph_data run && isRunInTimeRange run startTime endTime)%bool
                then set ∪ {[ run_id run ]} else set)
             (availableRuns sel) ∅ |}
  end.

(** *** Vocabulary of the further properties of the preview *)

(** The actions of the user on the selection. *)
Inductive SelectorAction :=
  | Toggle (runId : string)
  | Clear
  | SelectAll (startTime endTime : option Z).

Definition act (sel : Selector) (a : SelectorAction) : Selector :=
  match a with
  | Toggle runId => toggleRunSelection sel runId
  | Clear => clearSelection sel
  | SelectAll startTime endTime => selectAllInTimeRange sel startTime endTime
  end.

(** Every selected id is the id of an available run with graph data. *)
Definition selectable (sel : Selector) : Prop :=
  ∀ id, id ∈ selectedRuns sel →
        ∃ run, run ∈ availableRuns sel ∧ run_id run = id ∧ has_graph_data run = true.

(** A string of [k] digits. *)
Definition digitString (k : nat) (s : string) : Prop :=
  String.length s = k ∧ ∀ c, In c (list_ascii_of_string s) → is_digit c = true.

(** The node carries the key: as its id, as its name, or as a truthy
    original id. *)
Definition carries (key : string) (n : PreviewNode) : Prop :=
  node_id n = key ∨ node_name n = key ∨ (node_originalId n = Some key ∧ key ≠ "").

#[global] Instance carries_dec key n : Decision (carries key n).
Proof. unfold carries. apply _. Defined.

(** The number of endpoints of relationships that are the key. *)
Definition endpointCount (key : string) (relationships : list Relationship) : nat :=
  (length (List.filter (λ rel, bool_decide (sourceKey rel = Some key ∧ key ≠ ""))
                       relationships) +
   length (List.filter (λ rel, bool_decide (targetKey rel = Some key ∧ key ≠ ""))
                       relationships))%nat.

(** The own property that holds a count: none for the count 0. *)
Definition asProperty (n : nat) : option Count :=
  if decide (n = 0%nat) then None else Some (Num n).

(** No entity of the list counts more than an entity before it. *)
Fixpoint descending (count : Entity → nat) (l : list Entity) : Prop :=
  match l with
  | [] => True
  | a :: rest =>
      (∀ b, b ∈ rest → (count b ≤ count a)%nat) ∧ descending count rest
  end.

(** No node is the node of the key: none has it as its id or as its
    original id, and no name contains the key or is contained in it. *)
Definition matchesNone (nodes : list PreviewNode) (key : string) : Prop :=
  ∀ n, n ∈ nodes →
       node_id n ≠ key ∧ node_originalId n ≠ Some key ∧
       Js.includes (node_name n) key = false ∧
       Js.includes key (node_name n) = false.

(** The endpoint is a key, not empty and other than [__proto__], and the
    node is the last node of the list that carries this key. *)
Definition carriedBy (nodes : list PreviewNode) (endpoint : option string)
    (n : PreviewNode) : Prop :=
  ∃ key, endpoint = Some key ∧ key ≠ "" ∧ key ≠ "__proto__" ∧
         last (filter (carries key) nodes) = Some n.

(** An endpoint from which the resolver makes nothing: it is missing or
    empty, or it is a key that [Object.prototype] does not define and
    that is the key of no node. *)
Definition unresolved (nodes : list PreviewNode) (endpoint : option string) : Prop :=
  Js.truthy_opt endpoint = false ∨
  ∃ key, endpoint = Some key ∧ (key ∉ objectPrototype) ∧ matchesNone nodes key.

(** Where the zoom transform puts a point of the graph. *)
Definition onScreen (t : SingleQA.Transform) (p : R * R) : R * R :=
  (SingleQA.transform_x t + SingleQA.transform_k t * fst p,
   SingleQA.transform_y t + SingleQA.transform_k t * snd p)%R.

End RunsQA.

(** ** The data page: the pagination of [FinalDataManager], in
       [runs_qa_generation.js] *)

Module FinalData.

(** [array.slice(start, end)] for two integers: a negative index counts
    from the end of the array, and both are clamped to the array. *)
Definition relativeIndex (len k : Z) : Z :=
  if (k <? 0)%Z then Z.max (len + k) 0 else Z.min k len.

Definition slice {Item} (l : list Item) (start final : Z) : list Item :=
  let len := Z.of_nat (length l) in
  let from := relativeIndex len start in
  let upto := relativeIndex len final in
  take (Z.to_nat (Z.max (upto - from) 0)) (drop (Z.to_nat from) l).

(** The fields of the manager that the pagination reads and writes; the
    page number and the page size are integers. *)
Record Manager {Item : Type} := {
  filteredData : list Item;
  currentPage : Z;
  pageSize : Z
}.
Arguments Manager : clear implicits.

(** [Math.ceil(this.filteredData.length / this.pageSize)]. *)
Definition totalPages {Item} (m : Manager Item) : Z :=
  Js.ceil (IZR (Z.of_nat (length (filteredData m))) / IZR (pageSize m)).

(** The items [renderData] hands to the view. *)
Definition pageData {Item} (m : Manager Item) : list Item :=
  let startIndex := ((currentPage m - 1) * pageSize m)%Z in
  let endIndex := (startIndex + pageSize m)%Z in
  slice (filteredData m) startIndex endIndex.

(** [goToPage(page)]. *)
Definition goToPage {Item} (m : Manager Item) (page : Z) : Manager Item :=
  if ((page <? 1)%Z || (totalPages m <? page)%Z)%bool then m
  else {| filteredData := filteredData m; currentPage := page;
          pageSize := pageSize m |}.

(** [changePageSize(newSize)]. *)
Definition changePageSize {Item} (m : Manager Item) (newSize : Z) : Manager Item :=
  {| filteredData := filteredData m; currentPage := 1; pageSize := newSize |}.

(** The two numbers and the total of the text of [#paginationInfo];
    [None] stands for the text shown when there is no data. *)
Definition paginationInfo {Item} (m : Manager Item) : option (Z * Z * Z) :=
  let startIndex := ((currentPage m - 1) * pageSize m + 1)%Z in
  let endIndex :=
    Z.min (currentPage m * pageSize m) (Z.of_nat (length (filteredData m))) in
  if (0 <? Z.of_nat (length (filteredData m)))%Z
  then Some (startIndex, endIndex, Z.of_nat (length (filteredData m)))
  else None.

(** The elements [renderPagination] writes into [#paginationControls]:
    the two arrows with the page of their [data-page] attribute and
    whether they are disabled, the page links with their page and whether
    they are active, and the ellipses. *)
Inductive PageItem :=
  | Previous (page : Z) (disabled : bool)
  | PageLink (page : Z) (active : bool)
  | Ellipsis
  | Next (page : Z) (disabled : bool).

(** The values of [i] in [for (let i = start; i <= end; i++)]. *)
Definition fromTo (start final : Z) : list Z :=
  map (λ k, (start + Z.of_nat k)%Z) (seq 0 (Z.to_nat (final - start + 1))).

Definition paginationControls {Item} (m : Manager Item) : list PageItem :=
  let totalPages := totalPages m in
  if (totalPages <=? 1)%Z then []
  else
    let start := Z.max 1 (currentPage m - 2) in
    let final := Z.min totalPages (currentPage m + 2) in
    [Previous (currentPage m - 1) (currentPage m =? 1)%Z] ++
    (if (1 <? start)%Z
     then [PageLink 1 false] ++ (if (2 <? start)%Z then [Ellipsis] else [])
     else []) ++
    map (λ i, PageLink i (i =? currentPage m)%Z) (fromTo start final) ++
    (if (final <? totalPages)%Z
     then (if (final <? totalPages - 1)%Z then [Ellipsis] else []) ++
          [PageLink totalPages false]
     else []) ++
    [Next (currentPage m + 1) (currentPage m =? totalPages)%Z].

(** *** Vocabulary of the properties of the pagination *)

(** The manager shows page [page]. *)
Definition onPage {Item} (m : Manager Item) (page : Z) : Manager Item :=
  {| filteredData := filteredData m; currentPage := page; pageSize := pageSize m |}.

(** The number of pages, in integer arithmetic. *)
Definition pageCount {Item} (m : Manager Item) : Z :=
  ((Z.of_nat (length (filteredData m)) + pageSize m - 1) / pageSize m)%Z.

(** The pages of the page links of a list of elements, in order. *)
Definition linkedPages (items : list PageItem) : list Z :=
  omap (λ item, match item with PageLink page _ => Some page | _ => None end) items.

End FinalData.

(** * Properties *)

(** ** Initial placement *)

Module InitialPlacement.
Import SingleQA.
Local Open Scope R_scope.

Lemma INR_square_le (k i : nat) : (k * k ≤ i)%nat → INR k * INR k <= INR i.
Proof. intros H. rewrite <- mult_INR. by apply le_INR. Qed.

Lemma INR_square_lt (k i : nat) : (i < k * k)%nat → INR i < INR k * INR k.
Proof. intros H. rewrite <- mult_INR. by apply lt_INR. Qed.

(** [Math.floor(Math.sqrt(index))] is the integer square root. *)
Lemma layer_ringIndex i : layer i = ringIndex i.
Proof.
  unfold layer, ringIndex, Js.floor. apply Zfloor_eq.
  rewrite <- INR_IZR_INZ.
  pose proof (Nat.sqrt_spec i (Nat.le_0_l i)) as [Hlo Hhi].
  pose proof (pos_INR (Nat.sqrt i)) as Hk. pose proof (pos_INR i) as Hi.
  split.
  - rewrite <- (sqrt_square (INR (Nat.sqrt i))) at 1 by done.
    apply sqrt_le_1_alt. by apply INR_square_le.
  - replace (INR (Nat.sqrt i) + 1) with (INR (S (Nat.sqrt i))) by (rewrite S_INR; ring).
    rewrite <- (sqrt_square (INR (S (Nat.sqrt i)))) by apply pos_INR.
    apply sqrt_lt_1_alt. split; [done |]. by apply INR_square_lt.
Qed.

Lemma nodesInLayer_ringCapacity i : nodesInLayer i = ringCapacity i.
Proof. unfold nodesInLayer, ringCapacity. by rewrite layer_ringIndex. Qed.

Lemma IZR_square_lt (a b : Z) : (a * a < b)%Z → IZR a * IZR a < IZR b.
Proof. intros H. rewrite <- mult_IZR. by apply IZR_lt. Qed.

(** [Math.ceil(Math.sqrt(totalNodes)) + 2] is the rounded-up integer
    square root plus two. *)
Lemma gridSize_gridSide n : gridSize n = gridSide n.
Proof.
  unfold gridSize, gridSide, Js.ceil. f_equal. apply Zceil_eq.
  rewrite INR_IZR_INZ. set (a := Z.of_nat n).
  assert (0 ≤ a)%Z as Ha by lia.
  destruct (decide (a = 0%Z)) as [-> | Hne].
  - change (Z.sqrt_up 0) with 0%Z. rewrite sqrt_0. lra.
  - pose proof (Z.sqrt_up_spec a ltac:(lia)) as [Hlo Hhi].
    pose proof (Z.sqrt_up_nonneg a) as Hc.
    set (c := Z.sqrt_up a) in *.
    assert (0 <= IZR c) as Hc' by (by apply IZR_le).
    assert (0 < c)%Z as Hpos by (destruct (decide (c = 0%Z)); nia).
    assert (0 <= IZR c - 1) as Hp.
    { rewrite <- minus_IZR. apply IZR_le. lia. }
    split.
    + rewrite <- (sqrt_square (IZR c - 1)) by done.
      apply sqrt_lt_1_alt. split; [nra |].
      rewrite <- minus_IZR. apply IZR_square_lt.
      replace (c - 1)%Z with (Z.pred c) by lia. done.
    + rewrite <- (sqrt_square (IZR c)) by done.
      apply sqrt_le_1_alt. rewrite <- mult_IZR. by apply IZR_le.
Qed.

Lemma gridSide_pos n : (0 < gridSide n)%Z.
Proof. unfold gridSide. pose proof (Z.sqrt_up_nonneg (Z.of_nat n)). lia. Qed.

(** [Math.floor(a / b)] on integers is the integer quotient. *)
Lemma floor_div (a b : Z) : (0 < b)%Z → Js.floor (IZR a / IZR b) = (a / b)%Z.
Proof.
  intros Hb. unfold Js.floor. apply Zfloor_eq.
  pose proof (Z.div_mod a b ltac:(lia)) as Hdm.
  pose proof (Z.mod_pos_bound a b Hb) as [Hr0 Hr1].
  assert (0 < IZR b) as Hb' by (by apply IZR_lt).
  assert (IZR a = IZR b * IZR (a / b) + IZR (a mod b)) as Ha.
  { rewrite <- mult_IZR, <- plus_IZR. by f_equal. }
  assert (0 <= IZR (a mod b) < IZR b) as [Hm0 Hm1].
  { split; [by apply IZR_le | by apply IZR_lt]. }
  rewrite Ha. split.
  - apply Rmult_le_reg_r with (IZR b); [done |].
    unfold Rdiv. rewrite Rmult_assoc, Rinv_l by lra. nra.
  - apply Rmult_lt_reg_r with (IZR b); [done |].
    unfold Rdiv. rewrite Rmult_assoc, Rinv_l by lra. nra.
Qed.

Lemma row_div i n : row i n = (Z.of_nat i / gridSide n)%Z.
Proof.
  unfold row. rewrite gridSize_gridSide, INR_IZR_INZ.
  apply floor_div, gridSide_pos.
Qed.

Lemma col_mod i n : col i n = (Z.of_nat i mod gridSide n)%Z.
Proof. unfold col. by rewrite gridSize_gridSide. Qed.

(** The width and the height [createPositionedNode] reads. *)
Lemma containerWidth_or pg : IZR (containerWidth pg) = widthOr1200 pg.
Proof.
  unfold containerWidth, widthOr1200.
  destruct (Z.eqb_spec (clientWidth pg) 0), (decide (clientWidth pg = 0%Z)); done.
Qed.

Lemma containerHeight_or pg : IZR (containerHeight pg) = heightOr800 pg.
Proof.
  unfold containerHeight, heightOr800.
  destruct (Z.eqb_spec (clientHeight pg) 0), (decide (clientHeight pg = 0%Z)); done.
Qed.

Lemma centerX_half pg : centerX pg = widthOr1200 pg / 2.
Proof. unfold centerX. by rewrite containerWidth_or. Qed.

Lemma centerY_half pg : centerY pg = heightOr800 pg / 2.
Proof. unfold centerY. by rewrite containerHeight_or. Qed.

Lemma cellWidth_cellSize pg n :
  cellWidth pg n = cellSize (widthOr1200 pg) (heightOr800 pg) n.
Proof.
  unfold cellWidth, cellSize.
  by rewrite gridSize_gridSide, containerWidth_or, containerHeight_or.
Qed.

(** Odd rows are shifted by half a cell, even rows are not. *)
Lemma offsetX_odd pg i n :
  offsetX pg i n =
  if Z.odd (Z.of_nat i / gridSide n)
  then cellSize (widthOr1200 pg) (heightOr800 pg) n / 2 else 0.
Proof.
  unfold offsetX. rewrite row_div, cellWidth_cellSize.
  rewrite Zmod_odd. destruct (Z.odd _); lra.
Qed.

(** A point of [onCircle] is at distance [r] of the centre. *)
Lemma onCircle_distance cx cy r k m :
  let p := onCircle cx cy r k m in
  (fst p - cx) * (fst p - cx) + (snd p - cy) * (snd p - cy) = r * r.
Proof.
  cbn. pose proof (sin2_cos2 (2 * PI * (k / m))) as H.
  unfold Rsqr in H. nra.
Qed.

Lemma position_spec pg i n u v :
  0 <= u < 1 → 0 <= v < 1 →
  placementSpec (widthOr1200 pg) (heightOr800 pg) i n (position pg i n u v).
Proof.
  intros Hu Hv. unfold placementSpec, position.
  rewrite centerX_half, centerY_half.
  destruct (Nat.leb_spec n 1) as [H1 | H1].
  { split_and!; intros; (done || lia). }
  destruct (Nat.leb_spec n 6) as [H6 | H6].
  { split_and!; intros; try lia.
    unfold onCircle. f_equal; f_equal; [rewrite Rmult_comm | rewrite Rmult_comm];
      f_equal; f_equal; unfold Rdiv; ring. }
  destruct (Nat.leb_spec n 20) as [H20 | H20].
  { split_and!; intros; try lia.
    unfold onCircle, ringRadius. rewrite nodesInLayer_ringCapacity, layer_ringIndex.
    f_equal; f_equal; [rewrite Rmult_comm | rewrite Rmult_comm];
      f_equal; f_equal; unfold Rdiv; ring. }
  split_and!; intros; try lia.
  unfold gridPoint, cellHeight. cbn [fst snd].
  rewrite offsetX_odd, row_div, col_mod, cellWidth_cellSize, gridSize_gridSide.
  split; apply Rabs_le.
  - match goal with |- _ <= ?a - ?b <= _ => replace (a - b) with ((u - 5 / 10) * 40) by ring end.
    lra.
  - match goal with |- _ <= ?a - ?b <= _ => replace (a - b) with ((v - 5 / 10) * 40) by ring end.
    lra.
Qed.

(** C4, initial placement.  Let [width] and [height] be the width and
    the height of the container, 1200 and 800 standing for a width and a
    height of 0, and let the centre be [(width / 2, height / 2)].  For
    every index [i] and count [n], and whatever the two random numbers
    drawn in [0, 1), the node is placed at the centre when [n <= 1]; at
    vertex [i] of the regular polygon of [n] vertices and radius 120
    around the centre when [n <= 6]; on the ring of index
    [floor(sqrt(i))], capacity [max(6, ring*6)] and radius
    [80 + ring*100] around the centre when [n <= 20]; and otherwise
    within 20 pixels, on each axis, of its cell of the hex-offset grid
    around the centre, of side [ceil(sqrt(n)) + 2] and cell size
    [max(120, min(width, height) / side)], odd rows shifted by half a
    cell. *)
Theorem initial_placement pg id name type i n u v :
  0 <= u < 1 → 0 <= v < 1 →
  let width := if decide (clientWidth pg = 0%Z) then 1200 else IZR (clientWidth pg) in
  let height := if decide (clientHeight pg = 0%Z) then 800 else IZR (clientHeight pg) in
  let p := createPositionedNode pg id name type i n u v in
  pos_id p = id ∧ pos_name p = name ∧ pos_type p = type ∧
  placementSpec width height i n (pos_x p, pos_y p).
Proof.
  intros Hu Hv. cbn -[position]. split_and!; [done | done | done |].
  rewrite <- surjective_pairing. by apply position_spec.
Qed.

(** In a container of 1000 by 600 pixels: the only node at (500, 300);
    node 7 of 30, the two draws being 0 and 1/2, within 20 pixels of its
    cell of the grid around (500, 300); and the same node around
    (600, 400) in a container that has no size. *)
Lemma initial_placement_witness :
  let pg := {| clientWidth := 1000; clientHeight := 600;
               initial_entity := None; expansion_container := false |} in
  let hidden := {| clientWidth := 0; clientHeight := 0;
                   initial_entity := None; expansion_container := false |} in
  let p1 := createPositionedNode pg "a" "A" None 0 1 0 (1 / 2) in
  let p := createPositionedNode pg "a" "A" None 7 30 0 (1 / 2) in
  let q := createPositionedNode hidden "a" "A" None 7 30 0 (1 / 2) in
  (pos_x p1, pos_y p1) = (1000 / 2, 600 / 2) ∧
  placementSpec 1000 600 7 30 (pos_x p, pos_y p) ∧
  placementSpec 1200 800 7 30 (pos_x q, pos_y q).
Proof.
  intros pg hidden p1 p q. split_and!.
  - apply (initial_placement pg "a" "A" None 0 1 0 (1 / 2)); [lra | lra | lia].
  - apply (initial_placement pg "a" "A" None 7 30 0 (1 / 2)); lra.
  - apply (initial_placement hidden "a" "A" None 7 30 0 (1 / 2)); lra.
Defined.

End InitialPlacement.

(** ** Positions under merge *)

Module MergeFrame.
Import SingleQA.

Lemma keeps_refl n : keeps n n.
Proof. by repeat split. Qed.

Lemma keeps_trans n1 n2 n3 : keeps n1 n2 → keeps n2 n3 → keeps n1 n3.
Proof. unfold keeps. intros (? & ? & ?) (? & ? & ?). repeat split; congruence. Qed.

Lemma preserved_refl ns : preserved ns ns.
Proof. intros i n H. exists n. split; [done | apply keeps_refl]. Qed.

Lemma preserved_trans ns1 ns2 ns3 :
  preserved ns1 ns2 → preserved ns2 ns3 → preserved ns1 ns3.
Proof.
  intros H12 H23 i n Hi.
  destruct (H12 i n Hi) as (n2 & Hi2 & K12).
  destruct (H23 i n2 Hi2) as (n3 & Hi3 & K23).
  exists n3. split; [done | by eapply keeps_trans].
Qed.

Lemma preserved_app ns extra : preserved ns (ns ++ extra).
Proof.
  intros i n Hi. exists n. split; [| apply keeps_refl].
  by apply lookup_app_l_Some.
Qed.

Lemma preserved_alter (f : Node → Node) i ns :
  (∀ n, ns !! i = Some n → keeps n (f n)) → preserved ns (alter f i ns).
Proof.
  intros Hf j n Hj. destruct (decide (i = j)) as [-> | Hne].
  - exists (f n). split; [| by apply Hf].
    by rewrite list_lookup_alter_eq, Hj.
  - exists n. split; [| apply keeps_refl].
    by rewrite list_lookup_alter_ne.
Qed.

Lemma preserved_map (f : Node → Node) ns :
  (∀ n, keeps n (f n)) → preserved ns (map f ns).
Proof.
  intros Hf i n Hi. exists (f n). split; [| apply Hf].
  change (map f ns) with (f <$> ns). by rewrite list_lookup_fmap, Hi.
Qed.

Lemma keeps_promoteInitial n : keeps n (promoteInitial n).
Proof. unfold promoteInitial. destruct (is_normal _); apply keeps_refl || by repeat split. Qed.

Lemma keeps_healStatus n : keeps n (healStatus n).
Proof.
  unfold healStatus. destruct (node_expansion_order n); [| apply keeps_refl].
  destruct (_ && _)%bool; [by repeat split | apply keeps_refl].
Qed.

Lemma preserved_ensure pg st :
  preserved (nodes st) (nodes (ensureInitialNodeExpansionStatus pg st)).
Proof.
  unfold ensureInitialNodeExpansionStatus.
  destruct (findInitialNode pg (nodes st)) as [i |]; [| apply preserved_refl].
  cbn. eapply preserved_trans.
  - apply preserved_alter. intros n _. apply keeps_promoteInitial.
  - apply preserved_map, keeps_healStatus.
Qed.

Lemma links_ensure pg st :
  links (ensureInitialNodeExpansionStatus pg st) = links st.
Proof.
  unfold ensureInitialNodeExpansionStatus.
  by destruct (findInitialNode pg (nodes st)).
Qed.

Lemma preserved_mergeNode pg rnd ids cur r :
  preserved cur (mergeNode pg rnd ids cur r).
Proof.
  unfold mergeNode. case_bool_decide; [| apply preserved_app].
  destruct (list_find _ cur) as [[i n] |] eqn:Hfind; [| apply preserved_refl].
  apply list_find_Some in Hfind as (Hi & Hid & _).
  apply preserved_alter. intros n' Hn'.
  assert (n' = n) as -> by congruence.
  unfold keeps, assignNode. cbn. by repeat split.
Qed.

Lemma preserved_fold_mergeNode pg rnd ids rs cur :
  preserved cur (fold_left (mergeNode pg rnd ids) rs cur).
Proof.
  revert cur. induction rs as [| r rs IH]; intros cur; cbn.
  - apply preserved_refl.
  - eapply preserved_trans; [apply preserved_mergeNode | apply IH].
Qed.

Lemma preserved_updateGraph pg rnd st data :
  preserved (nodes st) (nodes (updateGraph pg rnd st data true)).
Proof.
  unfold updateGraph.
  eapply preserved_trans; [| apply preserved_ensure]. cbn.
  set (st0 := match data_expansion_info data with
              | Some _ => _ | None => st end).
  assert (preserved (nodes st) (nodes st0)) as H0.
  { subst st0. destruct (data_expansion_info data); [| apply preserved_refl].
    destruct (expansion_container pg); [apply preserved_ensure | apply preserved_refl]. }
  eapply preserved_trans; [exact H0 |].
  destruct (markedNodes data) as [rs |]; [| apply preserved_refl].
  apply preserved_fold_mergeNode.
Qed.

(** C3, position stability under merge.  Whatever an incremental update
    carries, every node that was in the store before it is still there
    afterwards, at the same index, with the same id and the same
    coordinates [x] and [y]: the merge changes attributes, never a
    position. *)
Theorem position_stable_under_merge pg rnd st data i n :
  nodes st !! i = Some n →
  ∃ n', nodes (applyIncremental pg rnd st data) !! i = Some n' ∧
        node_id n' = node_id n ∧ node_x n' = node_x n ∧ node_y n' = node_y n.
Proof. intros Hi. by apply (preserved_updateGraph pg rnd st data i n). Qed.

(** The node "a" placed at (10, 20) keeps its place when a record changes
    its type. *)
Lemma position_stable_under_merge_witness :
  ∃ n', nodes (applyIncremental plainPage zeroRandom
                 {| nodes := [plainNode "a" "A" 10 20]; links := [] |}
                 (nodeBatch [typedRecord "a" "A" "disease"])) !! 0%nat = Some n' ∧
        node_id n' = "a" ∧ node_x n' = 10%R ∧ node_y n' = 20%R.
Proof.
  apply (position_stable_under_merge plainPage zeroRandom
           {| nodes := [plainNode "a" "A" 10 20]; links := [] |}
           (nodeBatch [typedRecord "a" "A" "disease"]) 0%nat (plainNode "a" "A" 10 20)).
  reflexivity.
Defined.

End MergeFrame.

(** ** Identity of nodes *)

Module Identity.
Import SingleQA MergeFrame.

Lemma nodeIds_alter (f : Node → Node) i ns :
  (∀ n, ns !! i = Some n → node_id (f n) = node_id n) →
  map node_id (alter f i ns) = map node_id ns.
Proof.
  intros Hf. change (node_id <$> alter f i ns = node_id <$> ns).
  apply list_eq. intros j. rewrite !list_lookup_fmap.
  destruct (decide (i = j)) as [-> | Hne].
  - rewrite list_lookup_alter_eq. destruct (ns !! j) as [n |] eqn:Hj; [| done].
    cbn. f_equal. by apply Hf.
  - by rewrite list_lookup_alter_ne.
Qed.

Lemma node_id_promoteInitial n : node_id (promoteInitial n) = node_id n.
Proof. apply keeps_promoteInitial. Qed.

Lemma node_id_healStatus n : node_id (healStatus n) = node_id n.
Proof. apply keeps_healStatus. Qed.

Lemma nodeIds_ensure pg st :
  nodeIds (ensureInitialNodeExpansionStatus pg st) = nodeIds st.
Proof.
  unfold nodeIds, ensureInitialNodeExpansionStatus.
  destruct (findInitialNode pg (nodes st)) as [i |]; [| done]. cbn.
  rewrite map_map.
  rewrite (map_ext _ node_id) by apply node_id_healStatus.
  apply nodeIds_alter. intros n _. apply node_id_promoteInitial.
Qed.

(** One turn of the loop either keeps the list of ids or appends the id
    of the record. *)
Lemma nodeIds_mergeNode pg rnd ids cur r :
  map node_id (mergeNode pg rnd ids cur r) =
  if bool_decide (rec_id r ∈ ids) then map node_id cur
  else map node_id cur ++ [rec_id r].
Proof.
  unfold mergeNode. case_bool_decide.
  - destruct (list_find _ cur) as [[i n] |] eqn:Hfind; [| done].
    apply list_find_Some in Hfind as (Hi & Hid & _).
    apply nodeIds_alter. intros n' Hn'. cbn. congruence.
  - by rewrite map_app.
Qed.

(** The loop appends the ids of the records that are not in the snapshot
    [existingNodeIds], once for each such record. *)
Lemma nodeIds_fold_mergeNode pg rnd ids rs cur :
  map node_id (fold_left (mergeNode pg rnd ids) rs cur) =
  map node_id cur ++
  List.filter (λ id, bool_decide (id ∉ ids)) (map rec_id rs).
Proof.
  revert cur. induction rs as [| r rs IH]; intros cur; cbn.
  - by rewrite app_nil_r.
  - rewrite IH, nodeIds_mergeNode.
    repeat case_bool_decide; try done; cbn.
    by rewrite <- app_assoc.
Qed.

Lemma rec_id_markExpansion info r : rec_id (markExpansion info r) = rec_id r.
Proof. unfold markExpansion. by case_bool_decide. Qed.

Lemma markedNodes_ids data :
  match markedNodes data with
  | Some rs => map rec_id rs
  | None => []
  end = batchIds data.
Proof.
  unfold markedNodes, batchIds.
  destruct (data_expansion_info data) as [info |], (data_nodes data) as [rs |]; try done.
  rewrite map_map. apply map_ext, rec_id_markExpansion.
Qed.

(** The ids of the store after an incremental update. *)
Lemma nodeIds_applyIncremental pg rnd st data :
  nodeIds (applyIncremental pg rnd st data) =
  nodeIds st ++
  List.filter (λ id, bool_decide (id ∉ (list_to_set (nodeIds st) : gset string)))
              (batchIds data).
Proof.
  unfold applyIncremental, updateGraph. rewrite nodeIds_ensure.
  unfold nodeIds at 1. cbn.
  set (st0 := match data_expansion_info data with
              | Some _ => _ | None => st end).
  assert (nodeIds st0 = nodeIds st) as H0.
  { subst st0. destruct (data_expansion_info data); [| done].
    destruct (expansion_container pg); [apply nodeIds_ensure | done]. }
  rewrite <- markedNodes_ids.
  destruct (markedNodes data) as [rs |]; cbn.
  - rewrite nodeIds_fold_mergeNode. fold (nodeIds st0). by rewrite H0.
  - fold (nodeIds st0). by rewrite H0, app_nil_r.
Qed.

Lemma NoDup_filter_list {A} (f : A → bool) (l : list A) :
  NoDup l → NoDup (List.filter f l).
Proof.
  induction 1 as [| x l Hx Hl IH]; cbn; [constructor |].
  destruct (f x); [| done]. constructor; [| done].
  intros Hin. apply Hx. apply list_elem_of_In. apply list_elem_of_In in Hin.
  by apply filter_In in Hin as [? _].
Qed.

(** When the records of each batch have pairwise distinct ids, the ids of
    the store stay pairwise distinct. *)
Lemma applyIncremental_unique pg rnd st data :
  NoDup (nodeIds st) → NoDup (batchIds data) →
  NoDup (nodeIds (applyIncremental pg rnd st data)).
Proof.
  intros Hst Hdata. rewrite nodeIds_applyIncremental.
  apply NoDup_app. split; [done |]. split.
  - intros id Hin Hin'. apply list_elem_of_In, filter_In in Hin' as [_ Hnot].
    apply bool_decide_eq_true in Hnot. apply Hnot. by apply elem_of_list_to_set.
  - by apply NoDup_filter_list.
Qed.

(** X1, identity uniqueness for well-formed batches: along any sequence
    of [graph_update] events in each of which the records have pairwise
    distinct ids, a store whose ids are pairwise distinct keeps them
    pairwise distinct. *)
Lemma applyAll_unique pg events st :
  NoDup (nodeIds st) →
  Forall (λ e, NoDup (batchIds (snd e))) events →
  NoDup (nodeIds (applyAll pg st events)).
Proof.
  intros Hst Hev. revert st Hst.
  induction Hev as [| e events He _ IH]; intros st Hst; cbn; [done |].
  apply IH. by apply applyIncremental_unique.
Qed.

Lemma applyAll_unique_witness :
  NoDup (nodeIds (applyAll plainPage emptyGraph
                    [(zeroRandom, nodeBatch [bareRecord "a" "A"; bareRecord "b" "B"]);
                     (zeroRandom, nodeBatch [bareRecord "b" "B2"; bareRecord "c" "C"])])).
Proof.
  apply (applyAll_unique plainPage
           [(zeroRandom, nodeBatch [bareRecord "a" "A"; bareRecord "b" "B"]);
            (zeroRandom, nodeBatch [bareRecord "b" "B2"; bareRecord "c" "C"])]
           emptyGraph).
  - apply (bool_decide_unpack _). vm_compute. exact I.
  - repeat constructor; apply (bool_decide_unpack _); vm_compute; exact I.
Defined.

(** C2, identity uniqueness: the failing input.  One [graph_update] event
    on the empty store whose batch names the id "a" twice leaves two
    nodes of id "a" in the store: the set [existingNodeIds] is built
    before the loop and is not extended when the loop adds a node. *)
Theorem duplicate_id_in_one_batch :
  nodeIds (applyAll plainPage emptyGraph
             [(zeroRandom, nodeBatch [bareRecord "a" "A"; bareRecord "a" "A"])])
  = ["a"; "a"].
Proof. vm_compute. reflexivity. Qed.

(** C1, merge idempotence: the failing inputs.  A record whose type is
    the empty string gives a new node the type "concept" and an existing
    node the type "": the second application of the batch changes the
    store.  A batch that names an id twice creates two nodes the first
    time and overwrites the first of them the second time. *)
Theorem second_application_changes_store :
  let once data := applyIncremental plainPage zeroRandom emptyGraph data in
  let twice data := applyIncremental plainPage zeroRandom (once data) data in
  (map node_type (nodes (once (nodeBatch [typedRecord "a" "A" ""]))) = ["concept"] ∧
   map node_type (nodes (twice (nodeBatch [typedRecord "a" "A" ""]))) = [""]) ∧
  (map node_name (nodes (once (nodeBatch [bareRecord "a" "A"; bareRecord "a" "B"])))
     = ["A"; "B"] ∧
   map node_name (nodes (twice (nodeBatch [bareRecord "a" "A"; bareRecord "a" "B"])))
     = ["B"; "B"]).
Proof. vm_compute. repeat split. Qed.

End Identity.

(** ** The seed node *)

Module Seed.
Import SingleQA.

(** A string contains each prefix of itself. *)
Lemma includes_prefix s t : String.prefix t s = true → Js.includes s t = true.
Proof. intros H. destruct s; cbn [Js.includes]; by rewrite H. Qed.

(** [trim_end] keeps a prefix. *)
Lemma prefix_trim_end s : String.prefix (Js.trim_end s) s = true.
Proof.
  induction s as [| c s IH]; [done |]. cbn [Js.trim_end].
  destruct (Js.blank (String c s)); [done |]. cbn.
  destruct (ascii_dec c c); [exact IH | done].
Qed.

Lemma includes_further c s t : Js.includes s t = true → Js.includes (String c s) t = true.
Proof. intros H. cbn [Js.includes]. rewrite H. apply orb_true_r. Qed.

(** [trim_start] keeps a suffix. *)
Lemma includes_trim_start s t :
  Js.includes (Js.trim_start s) t = true → Js.includes s t = true.
Proof.
  remember (String.length s) as k eqn:Hk. revert s Hk.
  induction k as [k IH] using lt_wf_ind. intros s -> H.
  destruct s as [| a s1]; [done |]. cbn [Js.trim_start] in H.
  destruct (Js.is_space a).
  { apply includes_further, (IH (String.length s1)); [cbn; lia | done | done]. }
  destruct s1 as [| b s2]; [done |].
  destruct (Js.is_space2 a b).
  { do 2 apply includes_further.
    apply (IH (String.length s2)); [cbn; lia | done | done]. }
  destruct s2 as [| c s3]; [done |].
  destruct (Js.is_space3 a b c); [| done].
  do 3 apply includes_further.
  apply (IH (String.length s3)); [cbn; lia | done | done].
Qed.

(** A string contains what [trim] leaves of it. *)
Lemma includes_trim s : Js.includes s (Js.trim s) = true.
Proof. apply includes_trim_start, includes_prefix, prefix_trim_end. Qed.

(** The ideographic space U+3000 and the no-break space U+00A0 are trimmed
    like the space; inside the text they stay. *)
Lemma trim_unicode_space :
  let nbsp := String (ascii_of_nat 194) (String (ascii_of_nat 160) "") in
  let wide :=
    String (ascii_of_nat 227) (String (ascii_of_nat 128) (String (ascii_of_nat 128) "")) in
  Js.trim (wide +:+ " AB" +:+ nbsp) = "AB" ∧
  Js.trim ("A" +:+ nbsp +:+ "B") = "A" +:+ nbsp +:+ "B".
Proof. by vm_compute. Qed.

(** A store that is not empty has a seed. *)
Lemma findInitialNode_None pg ns : findInitialNode pg ns = None → ns = [].
Proof.
  unfold findInitialNode. destruct (list_find _ ns) as [[i n] |]; [done |].
  destruct ns; [done |].
  by repeat (match goal with |- context [match ?x with _ => _ end] => destruct x end).
Qed.

(** The search among nodes none of which has order 0: the first node
    that matches the entered entity. *)
Lemma findInitialNode_by_input pg ns value i n :
  (∀ m, m ∈ ns → node_expansion_order m ≠ Some 0%Z) →
  initial_entity pg = Some value →
  Js.trim value ≠ "" →
  ns !! i = Some n →
  matches_entity (Js.trim value) n →
  (∀ j m, (j < i)%nat → ns !! j = Some m → ¬ matches_entity (Js.trim value) m) →
  findInitialNode pg ns = Some i.
Proof.
  intros Hord Hent Hne Hi Hmatch Hfirst. unfold findInitialNode.
  assert (list_find (λ m, node_expansion_order m = Some 0%Z) ns = None) as ->.
  { apply list_find_None, Forall_forall. intros m Hm. by apply Hord. }
  rewrite Hent.
  assert (Js.truthy (Js.trim value) = true) as ->.
  { unfold Js.truthy. destruct (String.eqb_spec (Js.trim value) ""); done. }
  assert (list_find (matches_entity (Js.trim value)) ns = Some (i, n)) as ->; [| done].
  apply list_find_Some. split_and!; [done | done |].
  intros j m Hj Hlt. by apply (Hfirst j m).
Qed.

(** After the self-heal pass a node that has an order has a status. *)
Lemma healStatus_not_normal m z :
  node_expansion_order (healStatus m) = Some z → (0 ≤ z)%Z →
  is_normal (node_expansion_status (healStatus m)) = false.
Proof.
  unfold healStatus.
  destruct (node_expansion_order m) as [order |] eqn:Ho; [| congruence].
  destruct (0 <=? order)%Z eqn:Hle, (is_normal (node_expansion_status m)) eqn:Hn;
    cbn; rewrite ?Ho, ?Hn; try done.
  all: intros [= ->] Hz; lia.
Qed.

Lemma ensure_heals pg st m z :
  m ∈ nodes (ensureInitialNodeExpansionStatus pg st) →
  node_expansion_order m = Some z → (0 ≤ z)%Z →
  is_normal (node_expansion_status m) = false.
Proof.
  unfold ensureInitialNodeExpansionStatus.
  destruct (findInitialNode pg (nodes st)) as [i |] eqn:Hfind; cbn.
  - intros Hm. change (m ∈ healStatus <$> alter promoteInitial i (nodes st)) in Hm.
    apply list_elem_of_fmap in Hm as (m0 & -> & _). apply healStatus_not_normal.
  - apply findInitialNode_None in Hfind. rewrite Hfind. by intros ?%elem_of_nil.
Qed.

(** C6, seed promotion, as the code has it.  The node named by the
    entered entity is promoted when no node of the store has the order
    0, the entity is not blank once trimmed, and no node before it in the
    store matches the entity by name, by id or by containment of one name
    in the other; and after the pass every node whose order is a number
    at least 0 has a status other than normal. *)
Theorem seed_promotion pg st value i n :
  (∀ m, m ∈ nodes st → is_normal (node_expansion_status m) = true) →
  (∀ m, m ∈ nodes st → node_expansion_order m ≠ Some 0%Z) →
  initial_entity pg = Some value →
  Js.trim value ≠ "" →
  nodes st !! i = Some n →
  node_name n = value →
  (∀ j m, (j < i)%nat → nodes st !! j = Some m →
          ¬ matches_entity (Js.trim value) m) →
  (∃ n', nodes (ensureInitialNodeExpansionStatus pg st) !! i = Some n' ∧
         node_id n' = node_id n ∧
         node_expansion_status n' = "expansion" ∧
         node_expansion_order n' = Some 0%Z) ∧
  (∀ m z, m ∈ nodes (ensureInitialNodeExpansionStatus pg st) →
          node_expansion_order m = Some z → (0 ≤ z)%Z →
          is_normal (node_expansion_status m) = false).
Proof.
  intros Hnormal Hord Hent Hne Hi Hname Hfirst.
  split; [| intros m z; apply ensure_heals].
  assert (matches_entity (Js.trim value) n) as Hmatch.
  { unfold matches_entity. right. right. left.
    rewrite Hname, includes_trim. done. }
  unfold ensureInitialNodeExpansionStatus.
  rewrite (findInitialNode_by_input pg (nodes st) value i n) by done. cbn.
  exists (healStatus (promoteInitial n)). split.
  - change (map healStatus ?l) with (healStatus <$> l).
    by rewrite list_lookup_fmap, list_lookup_alter_eq, Hi.
  - unfold promoteInitial. rewrite Hnormal by (by eapply list_elem_of_lookup_2).
    done.
Qed.

(** The store of the nodes "x" and "y", named "Diabetes" and "Insulin",
    and the entity "Insulin". *)
Lemma seed_promotion_witness :
  let pg := {| clientWidth := 1200; clientHeight := 800;
               initial_entity := Some "Insulin"; expansion_container := false |} in
  let st := {| nodes := [plainNode "x" "Diabetes" 0 0; plainNode "y" "Insulin" 0 0];
               links := [] |} in
  (∃ n', nodes (ensureInitialNodeExpansionStatus pg st) !! 1%nat = Some n' ∧
         node_id n' = "y" ∧
         node_expansion_status n' = "expansion" ∧
         node_expansion_order n' = Some 0%Z) ∧
  (∀ m z, m ∈ nodes (ensureInitialNodeExpansionStatus pg st) →
          node_expansion_order m = Some z → (0 ≤ z)%Z →
          is_normal (node_expansion_status m) = false).
Proof.
  intros pg st.
  apply (seed_promotion pg st "Insulin" 1%nat (plainNode "y" "Insulin" 0 0)).
  - intros m Hm. cbn in Hm. rewrite !elem_of_cons, elem_of_nil in Hm.
    by destruct Hm as [-> | [-> | []]].
  - intros m Hm. cbn in Hm. rewrite !elem_of_cons, elem_of_nil in Hm.
    by destruct Hm as [-> | [-> | []]].
  - reflexivity.
  - discriminate.
  - reflexivity.
  - reflexivity.
  - intros j m Hj Hm. assert (j = 0%nat) as -> by lia.
    cbn in Hm. injection Hm as <-.
    intros [H | [H | [H | H]]]; try discriminate H; vm_compute in H; done.
Defined.

(** C6 as stated fails.  With the nodes "x" named "AB" and "y" named "A",
    none marked, and the entity "A", the pass promotes "x", whose name
    contains the entity, and leaves "y" normal.  With the node "x" of
    order 0 and the node "y" named "A", none marked, it promotes "x". *)
Lemma seed_promotion_counterexample :
  let pg := {| clientWidth := 1200; clientHeight := 800;
               initial_entity := Some "A"; expansion_container := false |} in
  let st1 := {| nodes := [plainNode "x" "AB" 0 0; plainNode "y" "A" 0 0];
                links := [] |} in
  let ordered :=
    {| node_id := "x"; node_name := "X"; node_type := "concept";
       node_description := ""; node_group := 0;
       node_expansion_status := "normal"; node_expansion_order := Some 0%Z;
       node_x := 0; node_y := 0 |} in
  let st2 := {| nodes := [ordered; plainNode "y" "A" 0 0]; links := [] |} in
  (map (λ m, is_normal (node_expansion_status m)) (nodes st1) = [true; true] ∧
   map node_name (nodes st1) = ["AB"; "A"] ∧
   map node_expansion_status (nodes (ensureInitialNodeExpansionStatus pg st1))
     = ["expansion"; "normal"] ∧
   map node_expansion_order (nodes (ensureInitialNodeExpansionStatus pg st1))
     = [Some 0%Z; None]) ∧
  (map (λ m, is_normal (node_expansion_status m)) (nodes st2) = [true; true] ∧
   map node_name (nodes st2) = ["X"; "A"] ∧
   map node_expansion_status (nodes (ensureInitialNodeExpansionStatus pg st2))
     = ["expansion"; "normal"] ∧
   map node_expansion_order (nodes (ensureInitialNodeExpansionStatus pg st2))
     = [Some 0%Z; None]).
Proof. vm_compute. repeat split. Qed.

End Seed.

(** ** Links *)

Module Links.

Section Resolver.
Import RunsQA.

Lemma lookup_setProperty {A} (m : gmap string A) k a k' a' :
  setProperty m k a !! k' = Some a' → (k = k' ∧ a = a') ∨ m !! k' = Some a'.
Proof.
  unfold setProperty. destruct (String.eqb k "__proto__"); [by right |].
  rewrite lookup_insert_Some. intros [[-> ->] | [_ H]]; [by left | by right].
Qed.

Lemma truthy_opt_show (a : option string) :
  Js.truthy_opt a = true → a = Some (Js.show a) ∧ Js.show a ≠ "".
Proof.
  destruct a as [s |]; [| done]. cbn. unfold Js.truthy.
  rewrite negb_true_iff, String.eqb_neq. done.
Qed.

(** Every value of the dictionary is the id of a node that carries the
    key. *)
Lemma nameToId_value nodes key id :
  nameToId nodes !! key = Some id →
  ∃ n, n ∈ nodes ∧ node_id n = id ∧ carries key n.
Proof.
  unfold nameToId.
  assert (∀ (m : gmap string string),
            (∀ k v, m !! k = Some v → ∃ n, n ∈ nodes ∧ node_id n = v ∧ carries k n) →
            ∀ ns, (∀ n, n ∈ ns → n ∈ nodes) →
            ∀ k v,
              fold_left
                (λ m node,
                   let m1 := setProperty m (node_id node) (node_id node) in
                   let m2 := setProperty m1 (node_name node) (node_id node) in
                   if Js.truthy_opt (node_originalId node)
                   then setProperty m2 (Js.show (node_originalId node)) (node_id node)
                   else m2) ns m !! k = Some v →
              ∃ n, n ∈ nodes ∧ node_id n = v ∧ carries k n) as Hfold.
  { intros m Hm ns. revert m Hm.
    induction ns as [| n ns IH]; intros m Hm Hsub k v; cbn; [apply Hm |].
    apply IH; [| intros n' Hn'; apply Hsub; by right].
    intros k' v'. assert (n ∈ nodes) as Hn by (apply Hsub; by left).
    assert (setProperty (setProperty m (node_id n) (node_id n))
              (node_name n) (node_id n) !! k' = Some v' →
            ∃ n0, n0 ∈ nodes ∧ node_id n0 = v' ∧ carries k' n0) as H2.
    { intros [[<- <-] | [[<- <-] | H]%lookup_setProperty]%lookup_setProperty.
      - exists n. split_and!; [done | done |]. right. by left.
      - exists n. split_and!; [done | done |]. by left.
      - by apply Hm. }
    destruct (Js.truthy_opt (node_originalId n)) eqn:Ht; [| by apply H2].
    intros [[<- <-] | H]%lookup_setProperty; [| by apply H2].
    apply truthy_opt_show in Ht as [Hsome Hne].
    exists n. split_and!; [done | done |]. right. right. done. }
  apply (Hfold ∅); [| done]. intros k v. by rewrite lookup_empty.
Qed.

(** A node that carries the key is found by the fuzzy search. *)
Lemma carries_fuzzyMatch key n : carries key n → fuzzyMatch key n.
Proof.
  intros [Hid | [Hname | [Horig _]]].
  - right. right. by left.
  - left. rewrite Hname. apply Is_true_true, Seed.includes_prefix.
    clear. induction key as [| c key IH]; [done |]. cbn.
    destruct (ascii_dec c c); [done | congruence].
  - right. right. by right.
Qed.

Lemma matchesNone_fuzzyMatch nodes key n :
  matchesNone nodes key → n ∈ nodes → ¬ fuzzyMatch key n.
Proof.
  intros Hnone Hn. destruct (Hnone n Hn) as (Hid & Horig & Hin1 & Hin2).
  intros [H | [H | [H | H]]]; [| | done | done].
  - rewrite Hin1 in H. done.
  - rewrite Hin2 in H. done.
Qed.

(** For a key that the prototype does not define, the dictionary answers
    with its own properties only. *)
Lemma getProperty_own {A} (m : gmap string A) key :
  key ∉ objectPrototype → getProperty m key = Own <$> m !! key.
Proof.
  intros Hkey. unfold getProperty. destruct (m !! key); [done |].
  by rewrite bool_decide_eq_false_2.
Qed.

Lemma truthy_opt_key key k :
  (Js.truthy_opt key = true ∧ Js.show key = k) ↔ (key = Some k ∧ k ≠ "").
Proof.
  destruct key as [s |]; cbn.
  - unfold Js.truthy. rewrite negb_true_iff, String.eqb_neq. split.
    + by intros [Hs <-].
    + by intros [[= <-] Hs].
  - split; [by intros [? _] | by intros [? _]].
Qed.

Lemma proto_in_prototype : "__proto__" ∈ objectPrototype.
Proof. apply (bool_decide_unpack _). by vm_compute. Qed.

Lemma lookup_setProperty_eq {A} (m : gmap string A) k a :
  k ≠ "__proto__" → setProperty m k a !! k = Some a.
Proof.
  intros Hk. unfold setProperty.
  rewrite (proj2 (String.eqb_neq k "__proto__") Hk). apply lookup_insert_eq.
Qed.

Lemma lookup_setProperty_ne {A} (m : gmap string A) k j a :
  k ≠ j → setProperty m k a !! j = m !! j.
Proof.
  intros Hk. unfold setProperty. destruct (String.eqb k "__proto__"); [done |].
  by apply lookup_insert_ne.
Qed.

Lemma lookup_setProperty_proto {A} (m : gmap string A) k a :
  setProperty m k a !! "__proto__" = m !! "__proto__".
Proof.
  unfold setProperty. destruct (String.eqb_spec k "__proto__"); [done |].
  by apply lookup_insert_ne.
Qed.

Lemma nameToId_snoc nodes n :
  nameToId (nodes ++ [n]) =
  let m2 := setProperty (setProperty (nameToId nodes) (node_id n) (node_id n))
                        (node_name n) (node_id n) in
  if Js.truthy_opt (node_originalId n)
  then setProperty m2 (Js.show (node_originalId n)) (node_id n)
  else m2.
Proof. unfold nameToId. by rewrite fold_left_app. Qed.

Lemma setProperty_keeps (m : gmap string string) k j v :
  m !! j = Some v → setProperty m k v !! j = Some v.
Proof.
  intros Hj. unfold setProperty. destruct (String.eqb k "__proto__"); [done |].
  destruct (decide (k = j)) as [-> | Hne].
  - by rewrite lookup_insert_eq.
  - by rewrite lookup_insert_ne.
Qed.

(** No assignment gives the dictionary an own property [__proto__]. *)
Lemma nameToId_proto nodes : nameToId nodes !! "__proto__" = None.
Proof.
  induction nodes as [| n nodes IH] using rev_ind; [done |].
  rewrite nameToId_snoc. cbn zeta.
  destruct (Js.truthy_opt (node_originalId n)); by rewrite !lookup_setProperty_proto.
Qed.

(** The dictionary holds, for a key other than [__proto__], the id of the
    last node that carries it. *)
Lemma nameToId_last nodes key :
  key ≠ "__proto__" →
  nameToId nodes !! key = node_id <$> last (filter (carries key) nodes).
Proof.
  intros Hproto. induction nodes as [| n nodes IH] using rev_ind; [done |].
  rewrite nameToId_snoc, filter_app. cbn zeta.
  destruct (decide (carries key n)) as [Hc | Hc].
  - rewrite (filter_cons_True (carries key) n []) by done.
    rewrite filter_nil, last_snoc. cbn [fmap option_fmap option_map].
    destruct Hc as [Hid | [Hname | [Horig Hne]]].
    + subst key. destruct (Js.truthy_opt (node_originalId n));
        repeat (first [by rewrite lookup_setProperty_eq | apply setProperty_keeps]).
    + subst key. destruct (Js.truthy_opt (node_originalId n));
        repeat (first [by rewrite lookup_setProperty_eq | apply setProperty_keeps]).
    + rewrite Horig. cbn. unfold Js.truthy.
      rewrite (proj2 (String.eqb_neq key "") Hne). cbn.
      by apply lookup_setProperty_eq.
  - rewrite (filter_cons_False (carries key) n []) by done.
    rewrite filter_nil, app_nil_r, <- IH.
    assert (node_id n ≠ key ∧ node_name n ≠ key) as [Hid Hname].
    { split; intros H; apply Hc; [by left | right; by left]. }
    destruct (Js.truthy_opt (node_originalId n)) eqn:Ht.
    + rewrite !lookup_setProperty_ne; try done.
      intros Hk. apply Hc. right. right. by apply truthy_opt_key.
    + by rewrite !lookup_setProperty_ne.
Qed.

(** The dictionary answers a key other than [__proto__] that a node
    carries with the id of the last node that carries it. *)
Lemma resolveEndpoint_exact nodes key n :
  (∀ m, m ∈ nodes → node_id m ≠ "") → key ≠ "__proto__" →
  last (filter (carries key) nodes) = Some n →
  resolveEndpoint nodes key = Some (Own (node_id n)).
Proof.
  intros Hids Hproto Hn. unfold resolveEndpoint, getProperty.
  rewrite nameToId_last, Hn by done. cbn. unfold Js.truthy.
  assert (n ∈ nodes) as Hin.
  { apply last_Some in Hn as [l' Hl'].
    assert (n ∈ filter (carries key) nodes) as H.
    { rewrite Hl'. apply elem_of_app. right. apply list_elem_of_here. }
    by apply list_elem_of_filter in H as [_ H]. }
  by rewrite (proj2 (String.eqb_neq (node_id n) "") (Hids n Hin)).
Qed.

Lemma resolveEndpoint_node nodes key v :
  key ∉ objectPrototype → resolveEndpoint nodes key = Some v →
  ∃ n, n ∈ nodes ∧ v = Own (node_id n).
Proof.
  intros Hkey. unfold resolveEndpoint. rewrite getProperty_own by done.
  destruct (nameToId nodes !! key) as [id |] eqn:Hid; cbn.
  - destruct (Js.truthy id).
    + intros [= <-]. apply nameToId_value in Hid as (n & Hn & <- & _). by exists n.
    + destruct (list_find (fuzzyMatch key) nodes) as [[i n] |] eqn:Hfind; [| done].
      intros [= <-]. exists n. split; [| done].
      apply list_find_Some in Hfind as (Hi & _). by eapply list_elem_of_lookup_2.
  - destruct (list_find (fuzzyMatch key) nodes) as [[i n] |] eqn:Hfind; [| done].
    intros [= <-]. exists n. split; [| done].
    apply list_find_Some in Hfind as (Hi & _). by eapply list_elem_of_lookup_2.
Qed.

Lemma resolveEndpoint_none nodes key :
  key ∉ objectPrototype → matchesNone nodes key → resolveEndpoint nodes key = None.
Proof.
  intros Hkey Hnone. unfold resolveEndpoint. rewrite getProperty_own by done.
  assert (list_find (fuzzyMatch key) nodes = None) as Hfind.
  { apply list_find_None, Forall_forall. intros n Hn.
    by apply (matchesNone_fuzzyMatch nodes). }
  destruct (nameToId nodes !! key) as [id |] eqn:Hid; cbn.
  - apply nameToId_value in Hid as (n & Hn & _ & Hc).
    apply carries_fuzzyMatch in Hc. by apply (matchesNone_fuzzyMatch nodes) in Hc.
  - by rewrite Hfind.
Qed.

(** What a relationship must be for a link to come out of it. *)
Lemma resolveLink_Some functionText nodes rel l :
  resolveLink functionText nodes rel = Some l →
  Js.truthy_opt (sourceKey rel) = true ∧ Js.truthy_opt (targetKey rel) = true ∧
  resolveEndpoint nodes (Js.show (sourceKey rel)) = Some (link_source l) ∧
  resolveEndpoint nodes (Js.show (targetKey rel)) = Some (link_target l) ∧
  truthyValue (Some (link_source l)) = true ∧
  truthyValue (Some (link_target l)) = true ∧
  link_source l ≠ link_target l ∧
  link_source_id l = link_source l ∧ link_target_id l = link_target l ∧
  link_originalRelation l = Some rel.
Proof.
  unfold resolveLink.
  destruct (Js.truthy_opt (sourceKey rel)), (Js.truthy_opt (targetKey rel)); try done.
  cbn [negb orb].
  destruct (resolveEndpoint nodes (Js.show (sourceKey rel))) as [s |]; [| done].
  destruct (resolveEndpoint nodes (Js.show (targetKey rel))) as [t |]; [| done].
  destruct (truthyValue (Some s)) eqn:Hs, (truthyValue (Some t)) eqn:Ht,
    (decide (s = t)) as [Heq | Hne]; cbn [andb];
    rewrite ?(bool_decide_eq_true_2 _ Heq), ?(bool_decide_eq_false_2 _ Hne); try done.
  intros [= <-]. done.
Qed.

Lemma resolveLinks_Some functionText nodes relationships l :
  l ∈ resolveLinks functionText nodes relationships ↔
  ∃ rel, rel ∈ relationships ∧ resolveLink functionText nodes rel = Some l.
Proof. unfold resolveLinks. apply list_elem_of_omap. Qed.

(** The links of the resolver, for keys that the prototype does not
    define. *)
Lemma resolveLinks_valid functionText nodes relationships l :
  l ∈ resolveLinks functionText nodes relationships →
  link_source l ≠ link_target l ∧
  link_source_id l = link_source l ∧ link_target_id l = link_target l ∧
  ∃ rel, rel ∈ relationships ∧ link_originalRelation l = Some rel ∧
    (Js.show (sourceKey rel) ∉ objectPrototype →
       ∃ n, n ∈ nodes ∧ link_source l = Own (node_id n) ∧ node_id n ≠ "") ∧
    (Js.show (targetKey rel) ∉ objectPrototype →
       ∃ n, n ∈ nodes ∧ link_target l = Own (node_id n) ∧ node_id n ≠ "").
Proof.
  intros (rel & Hrel & Hl)%resolveLinks_Some.
  apply resolveLink_Some in Hl
    as (_ & _ & Hs & Ht & Hst & Htt & Hne & Hsid & Htid & Horig).
  split_and!; [done | done | done |]. exists rel. split_and!; [done | done | |].
  - intros Hkey. destruct (resolveEndpoint_node _ _ _ Hkey Hs) as (n & Hn & Heq).
    exists n. split_and!; [done | done |]. rewrite Heq in Hst. cbn in Hst.
    unfold Js.truthy in Hst. by apply negb_true_iff, String.eqb_neq in Hst.
  - intros Hkey. destruct (resolveEndpoint_node _ _ _ Hkey Ht) as (n & Hn & Heq).
    exists n. split_and!; [done | done |]. rewrite Heq in Htt. cbn in Htt.
    unfold Js.truthy in Htt. by apply negb_true_iff, String.eqb_neq in Htt.
Qed.

(** A relationship with an unresolved endpoint gives no link. *)
Lemma resolveLink_unresolved functionText nodes rel :
  unresolved nodes (sourceKey rel) ∨ unresolved nodes (targetKey rel) →
  resolveLink functionText nodes rel = None.
Proof.
  assert (∀ k, unresolved nodes k →
               Js.truthy_opt k = false ∨ resolveEndpoint nodes (Js.show k) = None) as Hun.
  { intros k [Hk | (key & -> & Hkey & Hnone)]; [by left | right].
    by apply resolveEndpoint_none. }
  unfold resolveLink. intros [H | H]; apply Hun in H as [H | H]; rewrite H.
  - done.
  - by destruct (_ || _)%bool.
  - cbn [negb]. by rewrite orb_true_r.
  - destruct (_ || _)%bool; [done |].
    by destruct (resolveEndpoint nodes (Js.show (sourceKey rel))).
Qed.

(** A relationship both of whose endpoints are carried by a node gives
    the link between the two nodes, unless they have the same id. *)
Lemma resolveLink_carried functionText nodes rel a b :
  (∀ m, m ∈ nodes → node_id m ≠ "") →
  carriedBy nodes (sourceKey rel) a → carriedBy nodes (targetKey rel) b →
  if decide (node_id a = node_id b)
  then resolveLink functionText nodes rel = None
  else ∃ l, resolveLink functionText nodes rel = Some l ∧
            link_source l = Own (node_id a) ∧ link_target l = Own (node_id b) ∧
            link_originalRelation l = Some rel.
Proof.
  intros Hids (ks & Hks & Hnes & Hps & Ha) (kt & Hkt & Hnet & Hpt & Hb).
  assert (∀ n key, last (filter (carries key) nodes) = Some n → node_id n ≠ "") as Hid.
  { intros n key Hn. apply Hids. apply last_Some in Hn as [l' Hl'].
    assert (n ∈ filter (carries key) nodes) as H.
    { rewrite Hl'. apply elem_of_app. right. apply list_elem_of_here. }
    by apply list_elem_of_filter in H as [_ H]. }
  pose proof (proj2 (String.eqb_neq ks "") Hnes) as Es.
  pose proof (proj2 (String.eqb_neq kt "") Hnet) as Et.
  pose proof (proj2 (String.eqb_neq (node_id a) "") (Hid a ks Ha)) as Ea.
  pose proof (proj2 (String.eqb_neq (node_id b) "") (Hid b kt Hb)) as Eb.
  destruct (decide (node_id a = node_id b)) as [Heq | Hne];
    unfold resolveLink; rewrite Hks, Hkt; cbn [Js.truthy_opt Js.show];
    rewrite (resolveEndpoint_exact nodes ks a), (resolveEndpoint_exact nodes kt b) by done;
    cbn [truthyValue]; unfold Js.truthy; rewrite Es, Et, Ea, Eb; cbn [negb orb andb].
  - rewrite bool_decide_eq_true_2; [done | by rewrite Heq].
  - rewrite bool_decide_eq_false_2 by congruence. cbn [negb]. by eexists.
Qed.

(** The loop of the fallback makes one link for each of its turns. *)
Lemma chain_from nodes start count :
  (start + count < length nodes)%nat →
  let chain :=
    flat_map
      (λ i, match nodes !! i, nodes !! (i + 1)%nat with
            | Some a, Some b => [chainLink a b]
            | _, _ => []
            end)
      (seq start count) in
  length chain = count ∧
  ∀ i, (i < count)%nat →
       ∃ a b, nodes !! (start + i)%nat = Some a ∧
              nodes !! (start + i + 1)%nat = Some b ∧
              chain !! i = Some (chainLink a b).
Proof.
  revert start. induction count as [| count IH]; intros start Hlen; cbn.
  { split; [done |]. intros i Hi. lia. }
  destruct (lookup_lt_is_Some_2 nodes start ltac:(lia)) as [a Ha].
  destruct (lookup_lt_is_Some_2 nodes (start + 1) ltac:(lia)) as [b Hb].
  rewrite Ha, Hb. cbn.
  destruct (IH (S start) ltac:(lia)) as [IHlen IHat].
  split; [by rewrite IHlen |].
  intros [| i] Hi.
  - exists a, b. by rewrite !Nat.add_0_r.
  - destruct (IHat i ltac:(lia)) as (a' & b' & Ha' & Hb' & Hc').
    exists a', b'. replace (start + S i)%nat with (S start + i)%nat by lia.
    done.
Qed.

(** C9, chain fallback, as the code has it.  When the resolution leaves
    no link and there are at least 2 nodes, the fallback makes
    [min(n - 1, 10)] links: link [i] has the id of node [i] as its source
    and the id of node [i + 1] as its target, the relation "related" and
    no relationship of the run behind it, for the first 10 adjacent pairs
    at most; and the count the page shows, when it shows one, is marked
    as generated. *)
Theorem chain_fallback functionText hasCountEl nodes relationships :
  resolveLinks functionText nodes relationships = [] → (2 ≤ length nodes)%nat →
  let p := previewLinks functionText hasCountEl nodes relationships in
  let count := Nat.min (length nodes - 1) 10 in
  length (preview_links p) = count ∧
  (∀ i, (i < count)%nat →
        ∃ a b l, nodes !! i = Some a ∧ nodes !! (i + 1)%nat = Some b ∧
                 preview_links p !! i = Some l ∧
                 link_source l = Own (node_id a) ∧ link_target l = Own (node_id b) ∧
                 link_source_id l = Own (node_id a) ∧
                 link_target_id l = Own (node_id b) ∧
                 link_relation l = "related" ∧
                 link_id l = node_id a +:+ "-" +:+ node_id b +:+ "-related" ∧
                 link_originalRelation l = None) ∧
  preview_count p =
    (if hasCountEl then Some (decimal count +:+ " <em>(随机生成)</em>") else None).
Proof.
  intros Hnone Hlen. unfold previewLinks. rewrite Hnone.
  replace (Nat.ltb 1 (length nodes)) with true by (symmetry; apply Nat.ltb_lt; lia).
  cbn [length Nat.eqb andb app preview_links preview_count].
  destruct (chain_from nodes 0 (Nat.min (length nodes - 1) 10) ltac:(lia))
    as [Hcount Hat].
  fold (chainLinks nodes) in Hcount, Hat.
  split_and!.
  - exact Hcount.
  - intros i Hi. destruct (Hat i Hi) as (a & b & Ha & Hb & Hc).
    exists a, b, (chainLink a b). by split_and!.
  - rewrite Hcount. by destruct hasCountEl.
Qed.

(** Three entities and no relationship: the preview has the nodes "n0",
    "n1" and "n2" and two links, from "n0" to "n1" and from "n1" to
    "n2". *)
Lemma chain_fallback_witness :
  let nodes := previewNodes (numberedEntities 3) [] in
  let p := previewLinks nativeText true nodes [] in
  map node_id nodes = ["n0"; "n1"; "n2"] ∧
  (∃ l0 l1, preview_links p = [l0; l1] ∧
            link_source l0 = Own "n0" ∧ link_target l0 = Own "n1" ∧
            link_source l1 = Own "n1" ∧ link_target l1 = Own "n2" ∧
            link_id l0 = "n0-n1-related" ∧ link_id l1 = "n1-n2-related") ∧
  preview_count p = Some "2 <em>(随机生成)</em>".
Proof.
  intros nodes p. split; [by vm_compute |].
  destruct (chain_fallback nativeText true nodes [] eq_refl ltac:(cbn; lia))
    as (Hlen & Hat & Hcount).
  fold p in Hlen, Hat, Hcount. split; [| exact Hcount].
  destruct (Hat 0%nat ltac:(cbn; lia))
    as (a0 & b0 & l0 & [= <-] & [= <-] & H0 & Hs0 & Ht0 & _ & _ & _ & Hid0 & _).
  destruct (Hat 1%nat ltac:(cbn; lia))
    as (a1 & b1 & l1 & [= <-] & [= <-] & H1 & Hs1 & Ht1 & _ & _ & _ & Hid1 & _).
  exists l0, l1. split_and!; try done.
  destruct (preview_links p) as [| x [| y [| z rest]]]; try discriminate Hlen.
  cbn in H0, H1. congruence.
Defined.

(** C9 as stated fails: 12 entities and no relationship give 12 nodes
    and 10 links, not 11; no link leaves the node "n10". *)
Lemma chain_fallback_counterexample :
  let nodes := previewNodes (numberedEntities 12) [] in
  let p := previewLinks nativeText true nodes [] in
  length nodes = 12%nat ∧
  resolveLinks nativeText nodes [] = [] ∧
  length (preview_links p) = 10%nat ∧
  last (map (λ l, (link_source l, link_target l)) (preview_links p))
    = Some (Own "n9", Own "n10").
Proof. by vm_compute. Qed.

End Resolver.

(** The links an incremental update adds are the normalised link
    records of the batch whose id is not yet in the store, whatever their
    endpoints. *)
Lemma applyIncremental_links pg rnd st data :
  ∃ added,
    SingleQA.links (SingleQA.applyIncremental pg rnd st data)
      = SingleQA.links st ++ added ∧
    (∀ l, l ∈ added →
          (SingleQA.link_id l ∉ map SingleQA.link_id (SingleQA.links st)) ∧
          ∃ ls r, SingleQA.data_links data = Some ls ∧ r ∈ ls ∧
                  l = SingleQA.processLink r) ∧
    (∀ ls r, SingleQA.data_links data = Some ls → r ∈ ls →
             SingleQA.link_id (SingleQA.processLink r)
               ∉ map SingleQA.link_id (SingleQA.links st) →
             SingleQA.processLink r ∈ added).
Proof.
  unfold SingleQA.applyIncremental, SingleQA.updateGraph.
  rewrite MergeFrame.links_ensure. cbn.
  set (st0 := match SingleQA.data_expansion_info data with
              | Some _ => _ | None => st end).
  assert (SingleQA.links st0 = SingleQA.links st) as ->.
  { subst st0. destruct (SingleQA.data_expansion_info data); [| done].
    destruct (SingleQA.expansion_container pg); [apply MergeFrame.links_ensure | done]. }
  destruct (SingleQA.data_links data) as [ls |].
  - unfold SingleQA.updateLinks. eexists. split; [reflexivity |]. split.
    + intros l Hl. apply list_elem_of_In, filter_In in Hl as [Hin Hl].
      apply bool_decide_eq_true in Hl. split.
      * intros Hid. apply Hl. by apply elem_of_list_to_set.
      * apply list_elem_of_In in Hin.
        change (map ?f ?l) with (f <$> l) in Hin.
        apply list_elem_of_fmap in Hin as (r & -> & Hr). by exists ls, r.
    + intros ls' r [= <-] Hr Hfresh. apply list_elem_of_In, filter_In. split.
      * apply list_elem_of_In. change (map ?f ?l) with (f <$> l).
        by apply list_elem_of_fmap_2.
      * apply bool_decide_eq_true. intros Hid. apply Hfresh.
        by apply elem_of_list_to_set in Hid.
  - exists []. split; [by rewrite app_nil_r |]. split.
    + by intros l ?%elem_of_nil.
    + by intros ls r.
Qed.

Lemma hasNode_true ns a : a ∈ map SingleQA.node_id ns → SingleQA.hasNode ns (Some a) = true.
Proof.
  intros Ha. apply list_elem_of_fmap in Ha as (n & -> & Hn). unfold SingleQA.hasNode.
  destruct (list_find_elem_of (λ m, Some (SingleQA.node_id m) = Some (SingleQA.node_id n)) ns n Hn eq_refl)
    as [[i m] Hfind].
  by rewrite Hfind.
Qed.

Lemma hasNode_elem ns endpoint :
  SingleQA.hasNode ns endpoint = true →
  ∃ n, n ∈ ns ∧ endpoint = Some (SingleQA.node_id n).
Proof.
  unfold SingleQA.hasNode.
  destruct (list_find _ ns) as [[i n] |] eqn:Hfind; [| done]. intros _.
  apply list_find_Some in Hfind as (Hi & Hid & _).
  exists n. split; [by eapply list_elem_of_lookup_2 | done].
Qed.

(** The render draws the links whose two endpoints are ids of nodes of
    the store. *)
Lemma renderCurrentGraph_valid st d style :
  (d, style) ∈ SingleQA.link_elems (SingleQA.renderCurrentGraph st) →
  ∃ n1 n2, n1 ∈ SingleQA.nodes st ∧ n2 ∈ SingleQA.nodes st ∧
           SingleQA.link_source d = Some (SingleQA.node_id n1) ∧
           SingleQA.link_target d = Some (SingleQA.node_id n2).
Proof.
  unfold SingleQA.renderCurrentGraph. cbn.
  change (map ?f ?l) with (f <$> l).
  intros (l & [= -> ->] & Hl)%list_elem_of_fmap.
  apply list_elem_of_In, filter_In in Hl as [_ Hvalid].
  apply andb_true_iff in Hvalid as [Hs Ht].
  apply hasNode_elem in Hs as (n1 & Hn1 & Hs), Ht as (n2 & Hn2 & Ht).
  exists n1, n2. by cbn.
Qed.

(** The lines of the render are the links of the store whose two
    endpoints are ids of nodes of the store, and no other. *)
Lemma renderCurrentGraph_drawn st d :
  (∃ style, (d, style) ∈ SingleQA.link_elems (SingleQA.renderCurrentGraph st)) ↔
  ∃ l n1 n2, l ∈ SingleQA.links st ∧ d = SingleQA.boundLink l ∧
             n1 ∈ SingleQA.nodes st ∧ n2 ∈ SingleQA.nodes st ∧
             Js.or (SingleQA.link_source_id l) (SingleQA.link_source l)
               = Some (SingleQA.node_id n1) ∧
             Js.or (SingleQA.link_target_id l) (SingleQA.link_target l)
               = Some (SingleQA.node_id n2).
Proof.
  unfold SingleQA.renderCurrentGraph. cbn [SingleQA.link_elems].
  change (map ?f ?l) with (f <$> l). split.
  - intros (style & (l & [= -> ->] & Hl)%list_elem_of_fmap).
    apply list_elem_of_In, filter_In in Hl as [Hin Hvalid].
    apply andb_true_iff in Hvalid as [Hs Ht].
    apply hasNode_elem in Hs as (n1 & Hn1 & Hs), Ht as (n2 & Hn2 & Ht).
    exists l, n1, n2. split_and!; try done. by apply list_elem_of_In.
  - intros (l & n1 & n2 & Hl & -> & Hn1 & Hn2 & Hs & Ht).
    exists SingleQA.renderedLinkStyle.
    apply (list_elem_of_fmap_2 (λ l0, (SingleQA.boundLink l0, SingleQA.renderedLinkStyle))).
    apply list_elem_of_In, filter_In. split; [by apply list_elem_of_In |].
    unfold SingleQA.validLink. rewrite Hs, Ht.
    rewrite !hasNode_true; [done | |]; by apply list_elem_of_fmap_2.
Qed.

(** C5, link validity, as the code has it.  In the preview, the two
    endpoints of every link the resolver keeps differ, the link comes
    from a relationship of the run, and an endpoint whose key is not a
    name of [Object.prototype] is the id, not empty, of a node of the
    node list; a relationship with an endpoint that is missing, or that
    is such a key and the key of no node, gives no link; a relationship
    whose two endpoints are keys that nodes carry gives the link between
    the two nodes when their ids differ, and no link when they are the
    same; each relationship gives its link whatever the others give, so
    that two relationships with the same endpoints and relation give two
    links with the same id.  In the single-run store, an incremental update keeps the
    links of the store and appends the link of every record of the batch
    whose id was not in the store before it, with the endpoints the
    record names, whatever they are, and no other link; and the render
    that ends the update draws the links of the store whose two
    endpoints are ids of nodes of the store, and no other. *)
Theorem link_validity functionText nodes relationships pg rnd st data :
  (∀ l, l ∈ RunsQA.resolveLinks functionText nodes relationships →
     RunsQA.link_source l ≠ RunsQA.link_target l ∧
     ∃ rel, rel ∈ relationships ∧ RunsQA.link_originalRelation l = Some rel ∧
       (Js.show (RunsQA.sourceKey rel) ∉ RunsQA.objectPrototype →
          ∃ n, n ∈ nodes ∧ RunsQA.link_source l = RunsQA.Own (RunsQA.node_id n) ∧
               RunsQA.node_id n ≠ "") ∧
       (Js.show (RunsQA.targetKey rel) ∉ RunsQA.objectPrototype →
          ∃ n, n ∈ nodes ∧ RunsQA.link_target l = RunsQA.Own (RunsQA.node_id n) ∧
               RunsQA.node_id n ≠ "")) ∧
  (∀ rel, RunsQA.unresolved nodes (RunsQA.sourceKey rel) ∨
          RunsQA.unresolved nodes (RunsQA.targetKey rel) →
          ∀ l, l ∈ RunsQA.resolveLinks functionText nodes relationships →
               RunsQA.link_originalRelation l ≠ Some rel) ∧
  (∀ rel a b, rel ∈ relationships →
     (∀ m, m ∈ nodes → RunsQA.node_id m ≠ "") →
     RunsQA.carriedBy nodes (RunsQA.sourceKey rel) a →
     RunsQA.carriedBy nodes (RunsQA.targetKey rel) b →
     (RunsQA.node_id a ≠ RunsQA.node_id b →
      ∃ l, l ∈ RunsQA.resolveLinks functionText nodes relationships ∧
           RunsQA.link_source l = RunsQA.Own (RunsQA.node_id a) ∧
           RunsQA.link_target l = RunsQA.Own (RunsQA.node_id b) ∧
           RunsQA.link_originalRelation l = Some rel) ∧
     (RunsQA.node_id a = RunsQA.node_id b →
      ∀ l, l ∈ RunsQA.resolveLinks functionText nodes relationships →
           RunsQA.link_originalRelation l ≠ Some rel)) ∧
  (∀ more, RunsQA.resolveLinks functionText nodes (relationships ++ more)
           = RunsQA.resolveLinks functionText nodes relationships ++
             RunsQA.resolveLinks functionText nodes more) ∧
  (∃ added,
     SingleQA.links (SingleQA.applyIncremental pg rnd st data)
       = SingleQA.links st ++ added ∧
     (∀ l, l ∈ added →
           (SingleQA.link_id l ∉ map SingleQA.link_id (SingleQA.links st)) ∧
           ∃ ls r, SingleQA.data_links data = Some ls ∧ r ∈ ls ∧
                   l = SingleQA.processLink r) ∧
     (∀ ls r, SingleQA.data_links data = Some ls → r ∈ ls →
              SingleQA.link_id (SingleQA.processLink r)
                ∉ map SingleQA.link_id (SingleQA.links st) →
              ∃ l, l ∈ added ∧
                   SingleQA.link_source l
                     = Js.or (SingleQA.lrec_source_id r) (SingleQA.lrec_source r) ∧
                   SingleQA.link_target l
                     = Js.or (SingleQA.lrec_target_id r) (SingleQA.lrec_target r) ∧
                   SingleQA.link_id l = SingleQA.link_id (SingleQA.processLink r))) ∧
  (∀ d,
     (∃ style, (d, style) ∈ SingleQA.link_elems
                              (SingleQA.renderCurrentGraph
                                 (SingleQA.applyIncremental pg rnd st data))) ↔
     ∃ l n1 n2,
       l ∈ SingleQA.links (SingleQA.applyIncremental pg rnd st data) ∧
       d = SingleQA.boundLink l ∧
       n1 ∈ SingleQA.nodes (SingleQA.applyIncremental pg rnd st data) ∧
       n2 ∈ SingleQA.nodes (SingleQA.applyIncremental pg rnd st data) ∧
       Js.or (SingleQA.link_source_id l) (SingleQA.link_source l)
         = Some (SingleQA.node_id n1) ∧
       Js.or (SingleQA.link_target_id l) (SingleQA.link_target l)
         = Some (SingleQA.node_id n2)).
Proof.
  assert (∀ rel l, l ∈ RunsQA.resolveLinks functionText nodes relationships →
                   RunsQA.link_originalRelation l = Some rel →
                   RunsQA.resolveLink functionText nodes rel = Some l) as Hfrom.
  { intros rel l (rel' & Hrel' & Hl)%resolveLinks_Some Horig.
    pose proof (resolveLink_Some _ _ _ _ Hl) as Hsome.
    destruct Hsome as (_ & _ & _ & _ & _ & _ & _ & _ & _ & Horig').
    by replace rel with rel' by congruence. }
  split_and!.
  - intros l Hl.
    destruct (resolveLinks_valid functionText nodes relationships l Hl)
      as (Hne & _ & _ & rel & Hrel & Horig & Hs & Ht).
    split; [done |]. by exists rel.
  - intros rel Hun l Hl Horig. apply (Hfrom rel l Hl) in Horig.
    by rewrite (resolveLink_unresolved functionText nodes rel Hun) in Horig.
  - intros rel a b Hrel Hids Ha Hb.
    pose proof (resolveLink_carried functionText nodes rel a b Hids Ha Hb) as Hc.
    destruct (decide (RunsQA.node_id a = RunsQA.node_id b)) as [Heq | Hne]; split.
    + done.
    + intros _ l Hl Horig. apply (Hfrom rel l Hl) in Horig. by rewrite Hc in Horig.
    + intros _. destruct Hc as (l & Hl & Hs & Ht & Horig).
      exists l. split_and!; try done. apply resolveLinks_Some. by exists rel.
    + done.
  - intros more. unfold RunsQA.resolveLinks. apply omap_app.
  - destruct (applyIncremental_links pg rnd st data) as (added & Hlinks & Hfresh & Hall).
    exists added. split_and!; [done | done |].
    intros ls r Hls Hr Hid. exists (SingleQA.processLink r).
    split_and!; [by eapply Hall | done | done | done].
  - intros d. apply renderCurrentGraph_drawn.
Qed.

(** The preview of the entities "Diabetes" and "b".  The relationship
    from "Diabetes (disease)" to "b" gives the link from "Diabetes" to
    "b": the key of the source contains the name of the first node.  The
    relationship from "Diabetes" to "Insulin" gives no link: no node
    matches "Insulin".  The relationship from "b" to "d1", the id of the
    first entity, gives the link from "b" to "Diabetes".  In the
    single-run store, the link from "a" to "a" sent to the store of the
    node "a" is stored, and the link from "a" to the unknown node "z" is
    stored too; the render draws no line to "z". *)
Lemma link_validity_witness :
  let nodes := RunsQA.previewNodes
                 [RunsQA.listedEntity "d1" "Diabetes"; RunsQA.namedEntity "b"] [] in
  let rel := RunsQA.plainRelationship "Diabetes (disease)" "b" in
  let lost := RunsQA.plainRelationship "Diabetes" "Insulin" in
  let back := RunsQA.plainRelationship "b" "d1" in
  let links := RunsQA.resolveLinks RunsQA.nativeText nodes [rel; lost; back] in
  let st := {| SingleQA.nodes := [SingleQA.plainNode "a" "A" 0 0];
               SingleQA.links := [] |} in
  let loop := {| SingleQA.lrec_source_id := None; SingleQA.lrec_source := Some "a";
                 SingleQA.lrec_target_id := None; SingleQA.lrec_target := Some "a";
                 SingleQA.lrec_relation := None; SingleQA.lrec_relationship := None |} in
  let stray := {| SingleQA.lrec_source_id := None; SingleQA.lrec_source := Some "a";
                  SingleQA.lrec_target_id := Some "z"; SingleQA.lrec_target := None;
                  SingleQA.lrec_relation := None; SingleQA.lrec_relationship := None |} in
  let data := {| SingleQA.data_expansion_info := None; SingleQA.data_nodes := None;
                 SingleQA.data_links := Some [loop; stray] |} in
  let st' := SingleQA.applyIncremental SingleQA.plainPage SingleQA.zeroRandom st data in
  map RunsQA.node_id nodes = ["Diabetes"; "b"] ∧
  map (λ l, (RunsQA.link_source l, RunsQA.link_target l)) links
    = [(RunsQA.Own "Diabetes", RunsQA.Own "b"); (RunsQA.Own "b", RunsQA.Own "Diabetes")] ∧
  (∀ l, l ∈ links →
        (∃ n, n ∈ nodes ∧ RunsQA.link_source l = RunsQA.Own (RunsQA.node_id n)) ∧
        (∃ n, n ∈ nodes ∧ RunsQA.link_target l = RunsQA.Own (RunsQA.node_id n)) ∧
        RunsQA.link_originalRelation l ≠ Some lost) ∧
  (∃ l, l ∈ links ∧ RunsQA.link_source l = RunsQA.Own "b" ∧
        RunsQA.link_target l = RunsQA.Own "Diabetes" ∧
        RunsQA.link_originalRelation l = Some back) ∧
  (∃ l1 l2, l1 ∈ SingleQA.links st' ∧ l2 ∈ SingleQA.links st' ∧
            SingleQA.link_source l1 = Some "a" ∧ SingleQA.link_target l1 = Some "a" ∧
            SingleQA.link_source l2 = Some "a" ∧ SingleQA.link_target l2 = Some "z") ∧
  (∀ d style,
     (d, style) ∈ SingleQA.link_elems (SingleQA.renderCurrentGraph st') →
     SingleQA.link_source d = Some "a" ∧ SingleQA.link_target d = Some "a").
Proof.
  intros nodes rel lost back links st loop stray data st'.
  destruct (link_validity RunsQA.nativeText nodes [rel; lost; back]
              SingleQA.plainPage SingleQA.zeroRandom st data)
    as (Hvalid & Hlost & Hkept & _ & (added & Hlinks & _ & Hstored) & Hdrawn).
  fold st' in Hlinks, Hdrawn. fold links in Hvalid, Hlost, Hkept.
  assert (∀ n, n ∈ nodes →
               n = RunsQA.previewNode 0 (RunsQA.listedEntity "d1" "Diabetes") ∨
               n = RunsQA.previewNode 1 (RunsQA.namedEntity "b")) as Hnodes.
  { intros n Hn. unfold nodes in Hn. vm_compute in Hn.
    apply list_elem_of_In in Hn. destruct Hn as [<- | [<- | []]]; [by left | by right]. }
  split; [by vm_compute |]. split; [by vm_compute |]. split_and!.
  - intros l Hl'. destruct (Hvalid l Hl') as (_ & rel' & Hrel' & Horig & Hs & Ht).
    assert ((Js.show (RunsQA.sourceKey rel') ∉ RunsQA.objectPrototype) ∧
            (Js.show (RunsQA.targetKey rel') ∉ RunsQA.objectPrototype)) as [Hks Hkt].
    { apply list_elem_of_In in Hrel'.
      destruct Hrel' as [<- | [<- | [<- | []]]];
        split; apply (bool_decide_unpack _); by vm_compute. }
    destruct (Hs Hks) as (n1 & Hn1 & Hs1 & _).
    destruct (Ht Hkt) as (n2 & Hn2 & Ht2 & _).
    split; [by exists n1 |]. split; [by exists n2 |].
    apply (Hlost lost); [| done]. right. right.
    exists "Insulin". split; [done |].
    split; [apply (bool_decide_unpack _); by vm_compute |].
    intros n Hn. destruct (Hnodes n Hn) as [-> | ->]; by vm_compute.
  - destruct (Hkept back (RunsQA.previewNode 1 (RunsQA.namedEntity "b"))
                (RunsQA.previewNode 0 (RunsQA.listedEntity "d1" "Diabetes")))
      as [Hyes _].
    + apply list_elem_of_further, list_elem_of_further, list_elem_of_here.
    + intros m Hm. destruct (Hnodes m Hm) as [-> | ->]; discriminate.
    + exists "b". split_and!; [done | discriminate | discriminate | by vm_compute].
    + exists "d1". split_and!; [done | discriminate | discriminate | by vm_compute].
    + apply Hyes. discriminate.
  - destruct (Hstored [loop; stray] loop eq_refl ltac:(apply list_elem_of_here))
      as (l1 & Hl1 & Hs1 & Ht1 & _); [by intros ?%elem_of_nil |].
    destruct (Hstored [loop; stray] stray eq_refl
                ltac:(apply list_elem_of_further, list_elem_of_here))
      as (l2 & Hl2 & Hs2 & Ht2 & _); [by intros ?%elem_of_nil |].
    exists l1, l2. rewrite Hlinks. cbn [SingleQA.links st app].
    split_and!; done.
  - intros d style Hd.
    destruct (proj1 (Hdrawn d) (ex_intro _ style Hd))
      as (l & n1 & n2 & _ & -> & Hn1 & Hn2 & Hs & Ht).
    cbn [SingleQA.boundLink SingleQA.link_source SingleQA.link_target].
    assert (map SingleQA.node_id (SingleQA.nodes st') = ["a"]) as Hids
      by (by vm_compute).
    apply (list_elem_of_fmap_2 SingleQA.node_id) in Hn1, Hn2.
    change (SingleQA.node_id <$> SingleQA.nodes st')
      with (map SingleQA.node_id (SingleQA.nodes st')) in Hn1, Hn2.
    rewrite Hids in Hn1, Hn2.
    apply list_elem_of_singleton in Hn1, Hn2. by rewrite Hs, Ht, Hn1, Hn2.
Defined.

(** C5 as stated fails.  The single-run store keeps a link from "a" to
    "a" sent to the empty store: its endpoints are equal and name no
    node.  The resolver of the preview of the entities "a" and "b" keeps
    both links of a relationship sent twice, with the same id. *)
Lemma link_validity_counterexample :
  let st := SingleQA.applyIncremental SingleQA.plainPage SingleQA.zeroRandom
              SingleQA.emptyGraph
              {| SingleQA.data_expansion_info := None; SingleQA.data_nodes := None;
                 SingleQA.data_links :=
                   Some [ {| SingleQA.lrec_source_id := None;
                             SingleQA.lrec_source := Some "a";
                             SingleQA.lrec_target_id := None;
                             SingleQA.lrec_target := Some "a";
                             SingleQA.lrec_relation := None;
                             SingleQA.lrec_relationship := None |} ] |} in
  let rel := RunsQA.plainRelationship "a" "b" in
  let graph := RunsQA.drawGraph RunsQA.nativeText true
                 [RunsQA.namedEntity "a"; RunsQA.namedEntity "b"] [rel; rel] in
  (SingleQA.nodes st = [] ∧
   map (λ l, (SingleQA.link_source l, SingleQA.link_target l)) (SingleQA.links st)
     = [(Some "a", Some "a")]) ∧
  map RunsQA.node_id (fst graph) = ["a"; "b"] ∧
  map RunsQA.link_id (RunsQA.preview_links (snd graph))
    = ["a-b-related"; "a-b-related"].
Proof. by vm_compute. Qed.

End Links.

(** ** The viewport *)

Module ViewportFit.
Import SingleQA.
Local Open Scope R_scope.

Lemma fold_min_le (f : Node → R) rest acc :
  fold_left (λ m n, Rmin m (f n)) rest acc <= acc ∧
  ∀ n, n ∈ rest → fold_left (λ m n, Rmin m (f n)) rest acc <= f n.
Proof.
  revert acc. induction rest as [| n0 rest IH]; intros acc; cbn.
  - split; [lra |]. by intros n ?%elem_of_nil.
  - destruct (IH (Rmin acc (f n0))) as [Hacc Hrest].
    pose proof (Rmin_l acc (f n0)). pose proof (Rmin_r acc (f n0)).
    split; [lra |]. intros n [-> | Hin]%elem_of_cons; [lra | by apply Hrest].
Qed.

Lemma fold_max_ge (f : Node → R) rest acc :
  acc <= fold_left (λ m n, Rmax m (f n)) rest acc ∧
  ∀ n, n ∈ rest → f n <= fold_left (λ m n, Rmax m (f n)) rest acc.
Proof.
  revert acc. induction rest as [| n0 rest IH]; intros acc; cbn.
  - split; [lra |]. by intros n ?%elem_of_nil.
  - destruct (IH (Rmax acc (f n0))) as [Hacc Hrest].
    pose proof (Rmax_l acc (f n0)). pose proof (Rmax_r acc (f n0)).
    split; [lra |]. intros n [-> | Hin]%elem_of_cons; [lra | by apply Hrest].
Qed.

Lemma foldMin_le f n0 rest n : n ∈ n0 :: rest → foldMin f n0 rest <= f n.
Proof.
  unfold foldMin. destruct (fold_min_le f rest (f n0)) as [H0 Hrest].
  intros [-> | Hin]%elem_of_cons; [done | by apply Hrest].
Qed.

Lemma foldMax_ge f n0 rest n : n ∈ n0 :: rest → f n <= foldMax f n0 rest.
Proof.
  unfold foldMax. destruct (fold_max_ge f rest (f n0)) as [H0 Hrest].
  intros [-> | Hin]%elem_of_cons; [done | by apply Hrest].
Qed.

Lemma getNodeRadius_ge st n : 25 <= INR (getNodeRadius st n).
Proof.
  unfold getNodeRadius. rewrite plus_INR.
  pose proof (pos_INR (Nat.min (connectionCount st n * 2) 15)).
  rewrite (INR_IZR_INZ 25). change (Z.of_nat 25) with 25%Z. lra.
Qed.

(** The box around the circles is at least one circle wide and high. *)
Lemma circleBounds_wide st n0 rest :
  let b := circleBounds st n0 rest in
  50 <= maxX b - minX b ∧ 50 <= maxY b - minY b.
Proof.
  cbn. pose proof (getNodeRadius_ge st n0) as Hr.
  assert (n0 ∈ n0 :: rest) as Hin by apply list_elem_of_here.
  pose proof (foldMin_le (λ n, node_x n - INR (getNodeRadius st n)) n0 rest n0 Hin).
  pose proof (foldMax_ge (λ n, node_x n + INR (getNodeRadius st n)) n0 rest n0 Hin).
  pose proof (foldMin_le (λ n, node_y n - INR (getNodeRadius st n)) n0 rest n0 Hin).
  pose proof (foldMax_ge (λ n, node_y n + INR (getNodeRadius st n)) n0 rest n0 Hin).
  cbn in *. lra.
Qed.

(** The smallest of the two ratios and 1 is the largest factor that fits. *)
Lemma Rmin_largestFit boxW boxH contW contH :
  0 < boxW → 0 < boxH →
  largestFit (Rmin (Rmin (contW / boxW) (contH / boxH)) 1) boxW boxH contW contH.
Proof.
  intros HW HH. set (a := contW / boxW). set (b := contH / boxH).
  assert (a * boxW = contW) as Ha by (subst a; field; lra).
  assert (b * boxH = contH) as Hb by (subst b; field; lra).
  pose proof (Rmin_l (Rmin a b) 1). pose proof (Rmin_r (Rmin a b) 1).
  pose proof (Rmin_l a b). pose proof (Rmin_r a b).
  unfold largestFit. split_and!; [lra | nra | nra |].
  intros s Hs1 HsW HsH.
  assert (s <= a) by (apply Rmult_le_reg_r with boxW; lra).
  assert (s <= b) by (apply Rmult_le_reg_r with boxH; lra).
  repeat apply Rmin_glb; lra.
Qed.

Lemma viewScale_pos pg b :
  0 < IZR (clientWidth pg) → 0 < IZR (clientHeight pg) →
  0 < graphWidth b → 0 < graphHeight b → 0 < viewScale pg b.
Proof.
  intros HW HH Hw Hh. unfold viewScale.
  repeat apply Rmin_glb_lt; try lra; by apply Rdiv_lt_0_compat.
Qed.

Lemma fitTransform_scale pg sel t :
  fitTransform pg sel = Some t → transform_k t <= 15 / 10.
Proof.
  unfold fitTransform. destruct sel as [| m0 more]; [done |].
  destruct (_ || _)%bool; [done |]. intros [= <-]. cbn. apply Rmin_r.
Qed.

Lemma fitTransform_centred pg m0 more t :
  fitTransform pg (m0 :: more) = Some t →
  transform_x t + (foldMin node_x m0 more + foldMax node_x m0 more) / 2 * transform_k t
    = IZR (clientWidth pg) / 2 ∧
  transform_y t + (foldMin node_y m0 more + foldMax node_y m0 more) / 2 * transform_k t
    = IZR (clientHeight pg) / 2.
Proof.
  unfold fitTransform. destruct (_ || _)%bool; [done |]. intros [= <-]. cbn.
  split; ring.
Qed.

(** What [adjustViewBox] does, the fit that runs after every render.  For
    a store that is not empty and a container of positive size it uses
    the largest scale, at most 1, at which the box around the node
    circles, widened by the margin of 100 on each side, fits the
    container; the view box it sets shows the drawing at this scale, is
    centred on the box and contains every circle with its margin; the
    box is at least 250 wide and high, so that one node divides by no
    zero; and with no node it sets nothing. *)
Lemma adjustViewBox_fits pg st n0 rest :
  nodes st = n0 :: rest →
  (0 < clientWidth pg)%Z → (0 < clientHeight pg)%Z →
  let b := circleBounds st n0 rest in
  let scale := viewScale pg b in
  (∃ vb, adjustViewBox pg st = Some vb ∧
         largestFit scale (graphWidth b) (graphHeight b)
                    (IZR (clientWidth pg)) (IZR (clientHeight pg)) ∧
         0 < scale ∧
         viewBoxWidth vb * scale = IZR (clientWidth pg) ∧
         viewBoxHeight vb * scale = IZR (clientHeight pg) ∧
         viewBoxX vb + viewBoxWidth vb / 2 = graphCenterX b ∧
         viewBoxY vb + viewBoxHeight vb / 2 = graphCenterY b ∧
         (∀ n, n ∈ nodes st → inViewBox st vb n) ∧
         250 <= graphWidth b ∧ 250 <= graphHeight b) ∧
  adjustViewBox pg {| nodes := []; links := links st |} = None.
Proof.
  intros Hnodes HW HH b scale.
  apply IZR_lt in HW, HH.
  pose proof (circleBounds_wide st n0 rest) as [Hwide Hhigh]. fold b in Hwide, Hhigh.
  assert (250 <= graphWidth b) as Hgw by (unfold graphWidth, padding; lra).
  assert (250 <= graphHeight b) as Hgh by (unfold graphHeight, padding; lra).
  pose proof (Rmin_largestFit (graphWidth b) (graphHeight b)
                (IZR (clientWidth pg)) (IZR (clientHeight pg))
                ltac:(lra) ltac:(lra)) as Hfit.
  fold (viewScale pg b) in Hfit. fold scale in Hfit.
  assert (0 < scale) as Hpos by (apply viewScale_pos; lra).
  destruct Hfit as (Hle1 & HfitW & HfitH & Hmax).
  assert (graphWidth b <= IZR (clientWidth pg) / scale) as HwW.
  { apply Rmult_le_reg_r with scale; [done |].
    unfold Rdiv. rewrite Rmult_assoc, Rinv_l by lra. lra. }
  assert (graphHeight b <= IZR (clientHeight pg) / scale) as HhH.
  { apply Rmult_le_reg_r with scale; [done |].
    unfold Rdiv. rewrite Rmult_assoc, Rinv_l by lra. lra. }
  split; [| done].
  unfold adjustViewBox. rewrite Hnodes. fold b. fold scale.
  rewrite !Rmax_right by done.
  eexists. split; [reflexivity |].
  cbn [viewBoxX viewBoxWidth viewBoxY viewBoxHeight].
  split_and!; try done; try (field; lra).
  intros n Hn. unfold inViewBox.
  cbn [viewBoxX viewBoxWidth viewBoxY viewBoxHeight]. cbv zeta.
  pose proof (foldMin_le (λ n, node_x n - INR (getNodeRadius st n)) n0 rest n Hn) as Hx0.
  pose proof (foldMax_ge (λ n, node_x n + INR (getNodeRadius st n)) n0 rest n Hn) as Hx1.
  pose proof (foldMin_le (λ n, node_y n - INR (getNodeRadius st n)) n0 rest n Hn) as Hy0.
  pose proof (foldMax_ge (λ n, node_y n + INR (getNodeRadius st n)) n0 rest n Hn) as Hy1.
  cbv beta in Hx0, Hx1, Hy0, Hy1.
  change (foldMin (λ n, node_x n - INR (getNodeRadius st n)) n0 rest) with (minX b) in *.
  change (foldMax (λ n, node_x n + INR (getNodeRadius st n)) n0 rest) with (maxX b) in *.
  change (foldMin (λ n, node_y n - INR (getNodeRadius st n)) n0 rest) with (minY b) in *.
  change (foldMax (λ n, node_y n + INR (getNodeRadius st n)) n0 rest) with (maxY b) in *.
  unfold graphCenterX, graphCenterY, graphWidth, graphHeight, padding in *.
  split_and!; lra.
Qed.

(** C8, viewport fit: what [fitView] makes of a drawn graph.  The render
    gives every node a group of the class [node-group]; [fitView] selects
    the class [node], so that its selection is empty whatever the store
    holds, and it returns before it computes a transform.  For the store
    of one node at (600, 400) in a container of 1200 by 800 pixels the
    render draws the node, [fitView] sets no transform, and
    [adjustViewBox] sets a view box on the same store. *)
Theorem fitView_fits_nothing pg st :
  selectNodeData ".node-group" (renderCurrentGraph st) = nodes st ∧
  selectNodeData ".node" (renderCurrentGraph st) = [] ∧
  fitView pg (renderCurrentGraph st) = None ∧
  let one := {| nodes := [plainNode "a" "A" 600 400]; links := [] |} in
  map (λ e, node_id (fst e)) (node_groups (renderCurrentGraph one)) = ["a"] ∧
  fitView plainPage (renderCurrentGraph one) = None ∧
  ∃ vb, adjustViewBox plainPage one = Some vb.
Proof.
  split_and!; try done.
  - cbn. rewrite map_map. cbn. apply map_id.
  - intros one. split_and!; [done | done |]. eexists. reflexivity.
Qed.

End ViewportFit.

(** ** The highlight overlay *)

Module Overlay.
Import SingleQA.

Lemma sampledNodeIds_nil : sampledNodeIds [] = ∅.
Proof. done. Qed.

(** Without sampled nodes and links no link of the store is connected. *)
Lemma connectedLinkIds_nil st : connectedLinkIds st [] [] = ∅.
Proof.
  unfold connectedLinkIds. rewrite sampledNodeIds_nil.
  change (sampledLinkIds []) with (∅ : gset string).
  induction (links st) as [| l ls IH]; [done |]. cbn.
  assert (∀ a, has ∅ a = false) as Hhas.
  { intros [s |]; [| done]. cbn. by apply bool_decide_eq_false. }
  by rewrite !Hhas.
Qed.

Lemma isSampledNode_empty d : isSampledNode ∅ d = false.
Proof.
  unfold isSampledNode. apply orb_false_iff.
  split; by apply bool_decide_eq_false.
Qed.

Lemma isHighlightedLink_empty d : isHighlightedLink ∅ d = false.
Proof.
  unfold isHighlightedLink. apply orb_false_iff.
  split; by apply bool_decide_eq_false.
Qed.

(** The overlay writes every style from the datum and the sampled sets:
    what the elements looked like before does not matter. *)
Lemma highlight_from_data st sampledNodes sampledLinks dom :
  highlightSampledGraph st sampledNodes sampledLinks dom =
  {| node_groups :=
       map (λ e, (fst e, highlightNodeStyle (sampledNodeIds sampledNodes) (fst e)))
           (node_groups dom);
     link_elems :=
       map (λ e, (fst e, highlightLinkStyle
                           (connectedLinkIds st sampledNodes sampledLinks) (fst e)))
           (link_elems dom) |}.
Proof. unfold highlightSampledGraph. by rewrite !map_map. Qed.

Lemma highlight_empty st dom : highlightSampledGraph st [] [] dom = dimAll dom.
Proof.
  rewrite highlight_from_data, connectedLinkIds_nil, sampledNodeIds_nil.
  unfold dimAll. f_equal; apply map_ext; intros [d style]; cbn;
    unfold highlightNodeStyle, highlightLinkStyle;
    by rewrite ?isSampledNode_empty, ?isHighlightedLink_empty.
Qed.

(** C7, highlight reset, as the code has it.  A call of the overlay
    forgets the calls before it, and the call with the empty sets puts
    every node group and every link in the dimmed style of the elements
    that are not sampled (opacity 0.4 and 0.3, stroke width 1): the same
    state as a first call with the empty sets, not the style of the
    render. *)
Theorem highlight_reset st sampledNodes sampledLinks nodes' links' dom :
  highlightSampledGraph st nodes' links'
    (highlightSampledGraph st sampledNodes sampledLinks dom)
  = highlightSampledGraph st nodes' links' dom ∧
  highlightSampledGraph st [] []
    (highlightSampledGraph st sampledNodes sampledLinks dom)
  = dimAll dom.
Proof.
  split.
  - rewrite !highlight_from_data. cbn. by rewrite !map_map.
  - rewrite highlight_empty, highlight_from_data. unfold dimAll. cbn.
    by rewrite !map_map.
Qed.

(** C7 as stated fails.  The store holds the nodes "a" and "b" and the
    link from "a" to "b"; after the overlay for the sampled node "a" and
    then the overlay for nothing, the circles have opacity 0.4 and stroke
    width 1px and the line has opacity 0.3 and stroke width 1, where the
    render alone sets no opacity on the circles, a stroke width of 3px
    and 2px, and opacity 0.8 and stroke width 2.5 on the line. *)
Lemma highlight_reset_counterexample :
  let st := applyIncremental plainPage zeroRandom emptyGraph
              {| data_expansion_info := None;
                 data_nodes := Some [bareRecord "a" "A"; bareRecord "b" "B"];
                 data_links := Some [ {| lrec_source_id := None; lrec_source := Some "a";
                                         lrec_target_id := None; lrec_target := Some "b";
                                         lrec_relation := Some "causes";
                                         lrec_relationship := None |} ] |} in
  let baseline := renderCurrentGraph st in
  let sampled := [ {| sampled_id := Some "a"; sampled_name := None |} ] in
  let after := highlightSampledGraph st [] [] (highlightSampledGraph st sampled [] baseline) in
  (map (λ e, (circle_opacity (snd e), circle_stroke_width (snd e))) (node_groups baseline)
     = [(None, "3px"); (None, "2px")] ∧
   map (λ e, (circle_opacity (snd e), circle_stroke_width (snd e))) (node_groups after)
     = [(Some "0.4", "1px"); (Some "0.4", "1px")]) ∧
  (map (λ e, (line_opacity (snd e), line_stroke_width (snd e))) (link_elems baseline)
     = [("0.8", "2.5")] ∧
   map (λ e, (line_opacity (snd e), line_stroke_width (snd e))) (link_elems after)
     = [("0.3", "1")]).
Proof. vm_compute. repeat split. Qed.








Lemma truthy_opt_Some k :
  Js.truthy_opt k = true ↔ ∃ s, k = Some s ∧ s ≠ "".
Proof.
  destruct k as [s |]; cbn.
  - unfold Js.truthy. rewrite negb_true_iff, String.eqb_neq. split.
    + intros Hs. by exists s.
    + by intros (s' & [= <-] & Hs).
  - split; [done | by intros (s & H & _)].
Qed.

Lemma sampledNodeIds_fold sns (acc : gset string) x :
  x ∈ fold_left
        (λ set node,
           let nodeId := Js.or (sampled_id node) (sampled_name node) in
           if Js.truthy_opt nodeId then set ∪ {[ Js.show nodeId ]} else set)
        sns acc
  ↔ x ∈ acc ∨ ∃ sn, sn ∈ sns ∧ sampledKey sn = Some x ∧ x ≠ "".
Proof.
  revert acc. induction sns as [| sn sns IH]; intros acc; cbn [fold_left].
  - split; [by left |]. intros [H | (sn & Hsn & _)]; [done |].
    by apply elem_of_nil in Hsn.
  - rewrite IH. clear IH. fold (sampledKey sn). split.
    + intros [Hacc | (sn' & Hin & Hkey & Hx)].
      * destruct (Js.truthy_opt (sampledKey sn)) eqn:Ht; [| by left].
        apply elem_of_union in Hacc as [Hacc | Hnew]; [by left |].
        apply elem_of_singleton in Hnew. right. exists sn.
        apply truthy_opt_Some in Ht as (s & Hs & Hne). rewrite Hs in Hnew. cbn in Hnew.
        subst x. split; [apply list_elem_of_here |]. by split.
      * right. exists sn'. split; [by apply list_elem_of_further |]. by split.
    + intros [Hacc | (sn' & Hin & Hkey & Hx)].
      * left. destruct (Js.truthy_opt (sampledKey sn)); [| done].
        apply elem_of_union. by left.
      * apply elem_of_cons in Hin as [-> | Hin].
        -- left. rewrite Hkey. cbn. unfold Js.truthy.
           rewrite (proj2 (String.eqb_neq x "") Hx). cbn.
           apply elem_of_union. right. by apply elem_of_singleton.
        -- right. exists sn'. by repeat split.
Qed.

Lemma sampledNodeIds_elem sns x :
  x ∈ sampledNodeIds sns ↔ ∃ sn, sn ∈ sns ∧ sampledKey sn = Some x ∧ x ≠ "".
Proof.
  unfold sampledNodeIds. rewrite sampledNodeIds_fold. split; [| by right].
  intros [H | H]; [| done]. by apply not_elem_of_empty in H.
Qed.



End Overlay.

(** ** Idempotence of the merge *)

Module Idempotence.
Import SingleQA MergeFrame Identity.

Lemma assignFrom_nil n : assignFrom [] n = n.
Proof. done. Qed.

Lemma assignFrom_cons_eq r rs n :
  rec_id r = node_id n → assignFrom (r :: rs) n = assignNode r n.
Proof. intros H. unfold assignFrom. cbn. by rewrite decide_True. Qed.

Lemma assignFrom_cons_ne r rs n :
  rec_id r ≠ node_id n → assignFrom (r :: rs) n = assignFrom rs n.
Proof.
  intros H. unfold assignFrom. cbn. rewrite decide_False by done.
  by destruct (list_find _ rs) as [[i r'] |].
Qed.

Lemma map_assignFrom_nil ns : map (assignFrom []) ns = ns.
Proof. induction ns as [| n ns IH]; cbn; [done | by rewrite IH]. Qed.

(** A node whose id no record has is left alone. *)
Lemma assignFrom_absent rs n :
  node_id n ∉ map rec_id rs → assignFrom rs n = n.
Proof.
  induction rs as [| r rs IH]; [done |]. cbn.
  intros [Hne Hnot]%not_elem_of_cons.
  rewrite assignFrom_cons_ne; [by apply IH | done].
Qed.

Lemma node_id_assignFrom rs n : node_id (assignFrom rs n) = node_id n.
Proof.
  unfold assignFrom. destruct (list_find _ rs) as [[i r] |] eqn:Hfind; [| done].
  by apply list_find_Some in Hfind as (_ & Hid & _).
Qed.

Lemma length_newsFrom pg rnd k rs : length (newsFrom pg rnd k rs) = length rs.
Proof. revert k. induction rs as [| r rs IH]; intros k; cbn; [done | by rewrite IH]. Qed.

(** With pairwise distinct ids, to change the first node of an id is to
    change every node of this id. *)
Lemma alter_as_map (f : Node → Node) id i n cur :
  NoDup (map node_id cur) → cur !! i = Some n → node_id n = id →
  alter f i cur = map (λ m, if decide (node_id m = id) then f m else m) cur.
Proof.
  intros Hnodup Hi Hid. change (map ?g ?l) with (g <$> l).
  apply list_eq. intros j. rewrite list_lookup_fmap.
  destruct (decide (i = j)) as [<- | Hne].
  - rewrite list_lookup_alter_eq, Hi. cbn. by rewrite decide_True.
  - rewrite list_lookup_alter_ne by done.
    destruct (cur !! j) as [m |] eqn:Hj; [| done]. cbn.
    rewrite decide_False; [done |]. intros Hm. apply Hne.
    eapply NoDup_lookup; [exact Hnodup | |].
    + change (map node_id cur) with (node_id <$> cur).
      by rewrite list_lookup_fmap, Hi.
    + change (map node_id cur) with (node_id <$> cur).
      rewrite list_lookup_fmap, Hj. cbn. congruence.
Qed.

(** The shape of the store after the loop over the records: the nodes
    that were there, each with the record of its id assigned, then one
    new node for each record of an id that was not in the snapshot. *)
Lemma fold_mergeNode_shape pg rnd (ids : gset string) rs cur :
  NoDup (map node_id cur) → NoDup (map rec_id rs) →
  (∀ id, id ∈ ids → id ∈ map node_id cur) →
  (∀ r, r ∈ rs → rec_id r ∈ map node_id cur → rec_id r ∈ ids) →
  fold_left (mergeNode pg rnd ids) rs cur =
  map (assignFrom rs) cur ++
  newsFrom pg rnd (length cur)
           (List.filter (λ r, bool_decide (rec_id r ∉ ids)) rs).
Proof.
  revert cur. induction rs as [| r rs IH]; intros cur Hcur Hrs Hids Hseen; cbn.
  { by rewrite app_nil_r, map_assignFrom_nil. }
  change (NoDup (rec_id r :: map rec_id rs)) in Hrs.
  apply NoDup_cons in Hrs as [Hr Hrs].
  unfold mergeNode at 2. case_bool_decide as Hin.
  - (* the id is in the snapshot: the record is assigned *)
    rewrite bool_decide_eq_false_2 by (intros Hnot; by apply Hnot).
    destruct (list_find (λ n, node_id n = rec_id r) cur) as [[i n] |] eqn:Hfind.
    2:{ apply list_find_None in Hfind. apply Hids in Hin.
        change (map node_id cur) with (node_id <$> cur) in Hin.
        apply list_elem_of_fmap in Hin as (n & Hn & Hin).
        rewrite Forall_forall in Hfind. by destruct (Hfind n Hin). }
    apply list_find_Some in Hfind as (Hi & Hid & _).
    assert (map node_id (alter (assignNode r) i cur) = map node_id cur) as Hsame.
    { apply nodeIds_alter. intros n' Hn'. cbn. congruence. }
    rewrite IH; rewrite ?Hsame; try done.
    2:{ intros r' Hr'. apply Hseen. by right. }
    rewrite length_alter. f_equal.
    rewrite (alter_as_map _ (rec_id r) i n) by done.
    rewrite map_map. apply map_ext_in. intros m Hm.
    case_decide as Hmid.
    + rewrite assignFrom_cons_eq by done.
      apply assignFrom_absent. exact Hr.
    + by rewrite assignFrom_cons_ne.
  - (* the id is not in the snapshot: a node is created *)
    rewrite bool_decide_eq_true_2 by done. cbn.
    assert (rec_id r ∉ map node_id cur) as Hfresh.
    { intros Hc. apply Hin, Hseen; [by left | done]. }
    rewrite IH.
    + rewrite map_app, length_app. cbn.
      rewrite (assignFrom_absent rs (newNode _ _ _ _ _)) by done.
      rewrite <- app_assoc. cbn. replace (length cur + 1)%nat with (S (length cur)) by lia.
      f_equal. apply map_ext_in. intros m Hm.
      rewrite assignFrom_cons_ne; [done |]. intros Heq. apply Hfresh.
      rewrite Heq. apply list_elem_of_In in Hm.
      change (node_id m ∈ node_id <$> cur). by apply list_elem_of_fmap_2.
    + rewrite map_app. cbn. apply NoDup_app. split_and!; [done | | apply NoDup_singleton].
      intros x Hx ->%list_elem_of_singleton. done.
    + done.
    + intros x Hx. rewrite map_app. apply elem_of_app. left. by apply Hids.
    + intros r' Hr' Hc. rewrite map_app in Hc. cbn in Hc.
      apply elem_of_app in Hc as [Hc | Hc%list_elem_of_singleton].
      * apply Hseen; [by right | done].
      * exfalso. apply Hr. rewrite <- Hc.
        change (rec_id r' ∈ rec_id <$> rs). by apply list_elem_of_fmap_2.
Qed.

(** *** A merged node is stable under the record of its id *)

Lemma assignNode_assignNode r n : assignNode r (assignNode r n) = assignNode r n.
Proof.
  unfold assignNode. cbn.
  by destruct (rec_type r), (rec_description r), (rec_group r).
Qed.

Lemma assignNode_newNode pg r k total uv :
  typeNotEmpty r → assignNode r (newNode pg r k total uv) = newNode pg r k total uv.
Proof.
  unfold typeNotEmpty, assignNode, newNode. cbn. intros Htype. f_equal.
  - destruct (rec_type r) as [t |]; [| done]. cbn.
    unfold Js.truthy. destruct (String.eqb_spec t ""); [congruence | done].
  - destruct (rec_description r) as [d |]; [| done]. cbn.
    unfold Js.truthy. by destruct (String.eqb_spec d "").
  - by destruct (rec_group r).
Qed.

Lemma assignNode_sameBody r n n' :
  sameBody n n' → assignNode r n' = assignNode r n.
Proof.
  unfold sameBody, assignNode. intros (_ & _ & -> & -> & -> & -> & ->). done.
Qed.

Lemma sameBody_refl n : sameBody n n.
Proof. by repeat split. Qed.

Lemma sameBody_trans n1 n2 n3 : sameBody n1 n2 → sameBody n2 n3 → sameBody n1 n3.
Proof.
  unfold sameBody. intros (? & ? & ? & ? & ? & ? & ?) (? & ? & ? & ? & ? & ? & ?).
  repeat split; congruence.
Qed.

Lemma sameBody_promoteInitial n : sameBody n (promoteInitial n).
Proof. unfold promoteInitial. destruct (is_normal _); by repeat split. Qed.

Lemma sameBody_healStatus n : sameBody n (healStatus n).
Proof.
  unfold healStatus. destruct (node_expansion_order n); [| apply sameBody_refl].
  destruct (_ && _)%bool; by repeat split.
Qed.

(** With pairwise distinct ids in the batch, the record assigned to a
    node is the record of the batch that has its id. *)
Lemma assignFrom_elem rs r n :
  NoDup (map rec_id rs) → r ∈ rs → rec_id r = node_id n →
  assignFrom rs n = assignNode r n.
Proof.
  induction rs as [| r0 rs IH]; intros Hnodup Hin Hid; [by apply elem_of_nil in Hin |].
  change (NoDup (rec_id r0 :: map rec_id rs)) in Hnodup.
  apply NoDup_cons in Hnodup as [Hr0 Hnodup].
  apply elem_of_cons in Hin as [<- | Hin].
  - by apply assignFrom_cons_eq.
  - rewrite assignFrom_cons_ne; [by apply IH |].
    intros Heq. apply Hr0. rewrite Heq, <- Hid.
    change (rec_id r ∈ rec_id <$> rs). by apply list_elem_of_fmap_2.
Qed.

Lemma assignFrom_assignFrom rs n :
  NoDup (map rec_id rs) → assignFrom rs (assignFrom rs n) = assignFrom rs n.
Proof.
  intros Hnodup. unfold assignFrom at 2 3.
  destruct (list_find _ rs) as [[i r] |] eqn:Hfind.
  - apply list_find_Some in Hfind as (Hi & Hid & _).
    rewrite (assignFrom_elem rs r); [apply assignNode_assignNode | done | | done].
    by eapply list_elem_of_lookup_2.
  - apply list_find_None in Hfind. apply assignFrom_absent.
    intros Hin. change (node_id n ∈ rec_id <$> rs) in Hin.
    apply list_elem_of_fmap in Hin as (r & Hr & Hin).
    rewrite Forall_forall in Hfind. by apply (Hfind r Hin).
Qed.

Lemma elem_of_newsFrom pg rnd k rs n :
  n ∈ newsFrom pg rnd k rs →
  ∃ r k', r ∈ rs ∧ n = newNode pg r k' (k' + 1) (rnd k').
Proof.
  revert k. induction rs as [| r rs IH]; intros k; cbn; [by intros ?%elem_of_nil |].
  intros [-> | Hin]%elem_of_cons.
  - exists r, k. split; [by left | done].
  - destruct (IH _ Hin) as (r' & k' & Hr' & ->). exists r', k'. split; [by right | done].
Qed.

(** Every node of the store after the loop is stable under a second
    assignment of the records. *)
Lemma merged_stable pg rnd (ids : gset string) rs cur n :
  NoDup (map rec_id rs) → Forall typeNotEmpty rs →
  n ∈ map (assignFrom rs) cur ++
      newsFrom pg rnd (length cur)
               (List.filter (λ r, bool_decide (rec_id r ∉ ids)) rs) →
  assignFrom rs n = n.
Proof.
  intros Hnodup Htypes [Hin | Hin]%elem_of_app.
  - change (n ∈ assignFrom rs <$> cur) in Hin.
    apply list_elem_of_fmap in Hin as (c & -> & _). by apply assignFrom_assignFrom.
  - apply elem_of_newsFrom in Hin as (r & k & Hr & ->).
    apply list_elem_of_In, filter_In in Hr as [Hr _]. apply list_elem_of_In in Hr.
    rewrite (assignFrom_elem rs r) by done.
    apply assignNode_newNode. rewrite Forall_forall in Htypes. by apply Htypes.
Qed.

Lemma graph_eq (a b : GraphData) :
  nodes a = nodes b → links a = links b → a = b.
Proof. destruct a, b. cbn. by intros -> ->. Qed.

(** *** The self-heal pass absorbs its own result *)

Lemma order_healStatus n :
  node_expansion_order (healStatus n) = node_expansion_order n.
Proof.
  unfold healStatus. destruct (node_expansion_order n) eqn:Ho; [| done].
  by destruct (_ && _)%bool.
Qed.

Lemma order_promoteInitial n :
  node_expansion_order (promoteInitial n) =
  if is_normal (node_expansion_status n) then Some 0%Z else node_expansion_order n.
Proof. unfold promoteInitial. by destruct (is_normal _). Qed.

Lemma healStatus_idem n : healStatus (healStatus n) = healStatus n.
Proof.
  unfold healStatus. destruct (node_expansion_order n) as [z |] eqn:Ho.
  - destruct (0 <=? z)%Z eqn:Hz, (is_normal (node_expansion_status n)) eqn:Hn;
      cbn; rewrite ?Ho, ?Hz, ?Hn; done.
  - by rewrite Ho.
Qed.

Lemma healStatus_marked n :
  is_normal (node_expansion_status n) = false → healStatus n = n.
Proof.
  intros Hn. unfold healStatus. destruct (node_expansion_order n); [| done].
  by rewrite Hn, andb_false_r.
Qed.

Lemma promoteInitial_marked n :
  is_normal (node_expansion_status n) = false → promoteInitial n = n.
Proof. intros Hn. unfold promoteInitial. by rewrite Hn. Qed.

Lemma heal_promote_marked n :
  is_normal (node_expansion_status (healStatus (promoteInitial n))) = false.
Proof.
  destruct (is_normal (node_expansion_status n)) eqn:Hn.
  - unfold promoteInitial. rewrite Hn. by rewrite healStatus_marked.
  - by rewrite promoteInitial_marked, healStatus_marked.
Qed.

Lemma heal_promote_idem n :
  healStatus (promoteInitial (healStatus (promoteInitial n))) =
  healStatus (promoteInitial n).
Proof.
  pose proof (heal_promote_marked n) as Hm.
  by rewrite (promoteInitial_marked _ Hm), (healStatus_marked _ Hm).
Qed.

(** A search sees only what its test sees. *)
Lemma list_find_pointwise {A} (P : A → Prop) `{!∀ x, Decision (P x)} (Y X : list A) :
  Forall2 (λ y x, P y ↔ P x) Y X →
  fst <$> list_find P Y = fst <$> list_find P X.
Proof.
  induction 1 as [| y x Y X Hyx _ IH]; [done |]. cbn.
  destruct (decide (P y)), (decide (P x)); try tauto; try done.
  destruct (list_find P Y) as [[? ?] |], (list_find P X) as [[? ?] |];
    cbn in *; congruence.
Qed.

Lemma findInitialNode_nil pg : findInitialNode pg [] = None.
Proof.
  unfold findInitialNode. cbn. destruct (initial_entity pg) as [value |]; [| done].
  by destruct (Js.truthy (Js.trim value)).
Qed.

(** What the pass makes of the node of index [j], the seed being the
    node of index [i]. *)
Lemma ensure_lookup pg X LX i j :
  findInitialNode pg X = Some i →
  nodes (ensureInitialNodeExpansionStatus pg {| nodes := X; links := LX |}) !! j =
  (λ x, healStatus (if decide (j = i) then promoteInitial x else x)) <$> X !! j.
Proof.
  intros Hfind. unfold ensureInitialNodeExpansionStatus. cbn. rewrite Hfind. cbn.
  change (map ?f ?l) with (f <$> l). rewrite list_lookup_fmap.
  destruct (decide (j = i)) as [-> | Hne].
  - rewrite list_lookup_alter_eq. by destruct (X !! i).
  - rewrite list_lookup_alter_ne by done. by destruct (X !! j).
Qed.

(** The seed of a store is still the seed when some of its nodes are
    replaced by what the pass makes of them. *)
Lemma findInitialNode_absorb pg X Y i :
  findInitialNode pg X = Some i →
  length Y = length X →
  (∀ j y x, Y !! j = Some y → X !! j = Some x →
            y = x ∨ y = healStatus (if decide (j = i) then promoteInitial x else x)) →
  findInitialNode pg Y = Some i.
Proof.
  intros HX Hlen Hyx.
  assert (∀ j y x, Y !! j = Some y → X !! j = Some x → sameBody x y) as Hbody.
  { intros j y x Hy Hx. destruct (Hyx j y x Hy Hx) as [-> | ->]; [apply sameBody_refl |].
    case_decide.
    - eapply sameBody_trans; [apply sameBody_promoteInitial | apply sameBody_healStatus].
    - apply sameBody_healStatus. }
  assert (∀ j y x, Y !! j = Some y → X !! j = Some x → j ≠ i →
                   node_expansion_order y = node_expansion_order x) as Hother.
  { intros j y x Hy Hx Hne. destruct (Hyx j y x Hy Hx) as [-> | ->]; [done |].
    rewrite decide_False by done. apply order_healStatus. }
  assert (∀ e, fst <$> list_find (matches_entity e) Y
               = fst <$> list_find (matches_entity e) X) as Hentity.
  { intros e. apply list_find_pointwise.
    apply Forall2_same_length_lookup. split; [done |].
    intros j y x Hy Hx. destruct (Hbody j y x Hy Hx) as (Hid & Hname & _).
    unfold matches_entity. by rewrite Hid, Hname. }
  unfold findInitialNode in *.
  destruct (list_find (λ n, node_expansion_order n = Some 0%Z) X)
    as [[i1 x1] |] eqn:HfX.
  - (* a node of order 0 in [X] *)
    injection HX as ->. apply list_find_Some in HfX as (Hx1 & Ho1 & Hbefore).
    destruct (lookup_lt_is_Some_2 Y i) as [y Hy].
    { rewrite Hlen. by eapply lookup_lt_Some. }
    assert (list_find (λ n, node_expansion_order n = Some 0%Z) Y = Some (i, y)) as ->;
      [| done].
    apply list_find_Some. split_and!; [done | |].
    + destruct (Hyx i y x1 Hy Hx1) as [-> | ->]; [done |].
      rewrite decide_True by done.
      rewrite order_healStatus, order_promoteInitial.
      by destruct (is_normal _).
    + intros j yj Hyj Hlt.
      destruct (lookup_lt_is_Some_2 X j) as [xj Hxj].
      { rewrite <- Hlen. by eapply lookup_lt_Some. }
      rewrite (Hother j yj xj) by (done || lia). by eapply Hbefore.
  - (* no node of order 0 in [X] *)
    apply list_find_None in HfX. rewrite Forall_forall in HfX.
    destruct (list_find (λ n, node_expansion_order n = Some 0%Z) Y)
      as [[i2 y2] |] eqn:HfY.
    + apply list_find_Some in HfY as (Hy2 & Ho2 & _).
      destruct (decide (i2 = i)) as [-> | Hne]; [done |].
      destruct (lookup_lt_is_Some_2 X i2) as [x2 Hx2].
      { rewrite <- Hlen. by eapply lookup_lt_Some. }
      rewrite (Hother i2 y2 x2) in Ho2 by done.
      destruct (HfX x2); [by eapply list_elem_of_lookup_2 | done].
    + assert (match Y with [] => None | _ :: _ => Some 0%nat end
              = match X with [] => None | _ :: _ => Some 0%nat end) as Hfirst.
      { destruct Y, X; done. }
      rewrite Hfirst. destruct (initial_entity pg) as [value |]; [| done].
      destruct (Js.truthy (Js.trim value)); [| done]. by rewrite Hentity.
Qed.

Lemma ensure_absorb pg X Y LX LY :
  length Y = length X →
  (∀ j y, Y !! j = Some y →
          X !! j = Some y ∨
          nodes (ensureInitialNodeExpansionStatus pg {| nodes := X; links := LX |}) !! j
            = Some y) →
  nodes (ensureInitialNodeExpansionStatus pg {| nodes := Y; links := LY |}) =
  nodes (ensureInitialNodeExpansionStatus pg {| nodes := X; links := LX |}).
Proof.
  intros Hlen Hyx.
  destruct (findInitialNode pg X) as [i |] eqn:HX.
  - assert (∀ j y x, Y !! j = Some y → X !! j = Some x →
              y = x ∨ y = healStatus (if decide (j = i) then promoteInitial x else x))
      as Hyx'.
    { intros j y x Hy Hx. destruct (Hyx j y Hy) as [H | H].
      - left. congruence.
      - right. rewrite (ensure_lookup pg X LX i j HX), Hx in H. cbn in H. congruence. }
    pose proof (findInitialNode_absorb pg X Y i HX Hlen Hyx') as HY.
    apply list_eq. intros j.
    rewrite (ensure_lookup pg Y LY i j HY), (ensure_lookup pg X LX i j HX).
    destruct (Y !! j) as [y |] eqn:Hy.
    + destruct (lookup_lt_is_Some_2 X j) as [x Hx].
      { rewrite <- Hlen. by eapply lookup_lt_Some. }
      rewrite Hx. cbn. f_equal.
      destruct (Hyx' j y x Hy Hx) as [-> | ->]; [done |].
      case_decide; [apply heal_promote_idem | apply healStatus_idem].
    + apply lookup_ge_None in Hy. rewrite Hlen in Hy.
      apply lookup_ge_None in Hy. by rewrite Hy.
  - apply Seed.findInitialNode_None in HX as ->.
    destruct Y; [| discriminate Hlen].
    unfold ensureInitialNodeExpansionStatus. cbn [nodes links].
    by rewrite findInitialNode_nil.
Qed.

(** The pass changes nothing the second time. *)
Lemma ensure_idem pg st :
  ensureInitialNodeExpansionStatus pg (ensureInitialNodeExpansionStatus pg st) =
  ensureInitialNodeExpansionStatus pg st.
Proof.
  apply graph_eq; [| by rewrite !links_ensure].
  destruct st as [X L].
  destruct (ensureInitialNodeExpansionStatus pg {| nodes := X; links := L |})
    as [EN EL] eqn:HE.
  rewrite (ensure_absorb pg X EN L EL).
  - by rewrite HE.
  - pose proof (nodeIds_ensure pg {| nodes := X; links := L |}) as Hids.
    rewrite HE in Hids. unfold nodeIds in Hids. cbn in Hids.
    by rewrite <- (length_map node_id EN), Hids, length_map.
  - intros j y Hy. right. by rewrite HE.
Qed.

(** *** The second application *)

Lemma applyIncremental_steps pg rnd st data :
  applyIncremental pg rnd st data =
  ensureInitialNodeExpansionStatus pg
    {| nodes := mergedNodes pg rnd data (preMerge pg data st);
       links := mergedLinks data (preMerge pg data st) |}.
Proof. done. Qed.

Lemma nodeIds_preMerge pg data st : nodeIds (preMerge pg data st) = nodeIds st.
Proof.
  unfold preMerge. destruct (data_expansion_info data); [| done].
  destruct (expansion_container pg); [apply nodeIds_ensure | done].
Qed.

(** After an update, [updateExpansionDisplay] finds the store healed. *)
Lemma preMerge_applyIncremental pg rnd st data :
  preMerge pg data (applyIncremental pg rnd st data) = applyIncremental pg rnd st data.
Proof.
  unfold preMerge. destruct (data_expansion_info data); [| done].
  destruct (expansion_container pg); [| done].
  rewrite applyIncremental_steps. apply ensure_idem.
Qed.

Lemma filter_none {A} (f : A → bool) (l : list A) :
  (∀ x, x ∈ l → f x = false) → List.filter f l = [].
Proof.
  induction l as [| x l IH]; intros Hf; cbn; [done |].
  rewrite (Hf x) by (by left). apply IH. intros y Hy. apply Hf. by right.
Qed.

(** The links of a batch are added once. *)
Lemma updateLinks_idem L ls :
  updateLinks true (updateLinks true L ls) ls = updateLinks true L ls.
Proof.
  unfold updateLinks at 1. set (L1 := updateLinks true L ls).
  rewrite filter_none; [by rewrite app_nil_r |].
  intros p Hp. apply bool_decide_eq_false. intros Hnot. apply Hnot.
  apply elem_of_list_to_set. subst L1. unfold updateLinks.
  rewrite map_app. apply elem_of_app.
  destruct (decide (link_id p ∈ map link_id L)) as [Hin | Hout]; [by left | right].
  match goal with |- _ ∈ map link_id ?l => change (link_id p ∈ link_id <$> l) end.
  apply list_elem_of_fmap_2, list_elem_of_In, filter_In.
  split; [by apply list_elem_of_In |].
  apply bool_decide_eq_true. intros Hc. apply Hout. by apply elem_of_list_to_set in Hc.
Qed.

Lemma mergedLinks_idem data st0 st1 :
  links st1 = mergedLinks data st0 → mergedLinks data st1 = mergedLinks data st0.
Proof.
  unfold mergedLinks. destruct (data_links data) as [ls |]; [| done].
  intros ->. apply updateLinks_idem.
Qed.

(** The pass keeps the body of every node. *)
Lemma ensure_sameBody pg X L j m :
  X !! j = Some m →
  ∃ e, nodes (ensureInitialNodeExpansionStatus pg {| nodes := X; links := L |}) !! j
         = Some e ∧ sameBody m e.
Proof.
  intros Hm. destruct (findInitialNode pg X) as [i |] eqn:Hfind.
  - rewrite (ensure_lookup pg X L i j Hfind), Hm. cbn. eexists. split; [done |].
    case_decide.
    + eapply sameBody_trans; [apply sameBody_promoteInitial | apply sameBody_healStatus].
    + apply sameBody_healStatus.
  - apply Seed.findInitialNode_None in Hfind. subst X. by rewrite lookup_nil in Hm.
Qed.

(** A record assigned to a node that differs from a stable node in its
    expansion fields gives the stable node back. *)
Lemma assignFrom_sameBody rs m e :
  sameBody m e → assignFrom rs m = m →
  assignFrom rs e = m ∨ assignFrom rs e = e.
Proof.
  intros Hbody Hstable. unfold assignFrom in *.
  destruct Hbody as (Hid & Hrest). rewrite Hid.
  destruct (list_find (λ r, rec_id r = node_id m) rs) as [[k r] |]; [left | by right].
  transitivity (assignNode r m); [| exact Hstable].
  apply assignNode_sameBody. by split.
Qed.

Lemma typeNotEmpty_markExpansion info r :
  typeNotEmpty r → typeNotEmpty (markExpansion info r).
Proof. unfold typeNotEmpty, markExpansion. by case_bool_decide. Qed.

Lemma markedNodes_types data rs :
  Forall typeNotEmpty (batchRecords data) → markedNodes data = Some rs →
  Forall typeNotEmpty rs.
Proof.
  unfold batchRecords, markedNodes.
  destruct (data_expansion_info data) as [info |], (data_nodes data) as [rs0 |];
    intros Htypes [= <-]; [| done].
  apply Forall_forall. intros r Hr. change (r ∈ markExpansion info <$> rs0) in Hr.
  apply list_elem_of_fmap in Hr as (r0 & -> & Hr0).
  apply typeNotEmpty_markExpansion. rewrite Forall_forall in Htypes. by apply Htypes.
Qed.

Lemma length_nodeIds st st' : nodeIds st = nodeIds st' → length (nodes st) = length (nodes st').
Proof.
  unfold nodeIds. intros H.
  by rewrite <- (length_map node_id (nodes st)), H, length_map.
Qed.

(** The nodes after the loop of the second application: each is the node
    the first loop left or the node the self-heal pass made of it. *)
Lemma mergedNodes_absorb pg rnd rnd' st data :
  NoDup (nodeIds st) → NoDup (batchIds data) →
  Forall typeNotEmpty (batchRecords data) →
  let M1 := mergedNodes pg rnd data (preMerge pg data st) in
  let S1 := applyIncremental pg rnd st data in
  let M2 := mergedNodes pg rnd' data S1 in
  length M2 = length M1 ∧
  ∀ j y, M2 !! j = Some y → M1 !! j = Some y ∨ nodes S1 !! j = Some y.
Proof.
  intros Hst Hbatch Htypes M1 S1 M2.
  assert (map node_id (nodes S1) = map node_id M1) as HidsS1.
  { subst S1. rewrite applyIncremental_steps.
    apply (nodeIds_ensure pg {| nodes := M1; links := _ |}). }
  assert (length (nodes S1) = length M1) as HlenS1.
  { by rewrite <- (length_map node_id (nodes S1)), HidsS1, length_map. }
  assert (∀ j m, M1 !! j = Some m → ∃ e, nodes S1 !! j = Some e ∧ sameBody m e) as Hbody.
  { intros j m Hm. subst S1. rewrite applyIncremental_steps. by apply ensure_sameBody. }
  subst M1 M2. unfold mergedNodes in *.
  pose proof (markedNodes_ids data) as Hrsids.
  destruct (markedNodes data) as [rs |] eqn:Hrs; [| by split; [| right]].
  pose proof (markedNodes_types data rs Htypes Hrs) as Hrstypes.
  rewrite <- Hrsids in Hbatch. unfold updateNodes in *.
  set (cur0 := nodes (preMerge pg data st)) in *.
  assert (NoDup (map node_id cur0)) as Hcur0.
  { subst cur0. fold (nodeIds (preMerge pg data st)). by rewrite nodeIds_preMerge. }
  rewrite (fold_mergeNode_shape pg rnd _ rs cur0) in * by
    (try done; intros x; by rewrite elem_of_list_to_set).
  set (M1 := map (assignFrom rs) cur0 ++ _) in *.
  assert (NoDup (map node_id (nodes S1))) as HS1.
  { subst S1. fold (nodeIds (applyIncremental pg rnd st data)).
    apply applyIncremental_unique; [done |]. by rewrite <- Hrsids. }
  rewrite (fold_mergeNode_shape pg rnd' _ rs (nodes S1)) by
    (try done; intros x; by rewrite elem_of_list_to_set).
  rewrite filter_none, app_nil_r.
  2:{ intros r Hr. apply bool_decide_eq_false. intros Hnot. apply Hnot.
      apply elem_of_list_to_set. fold (nodeIds S1). subst S1.
      rewrite nodeIds_applyIncremental, <- Hrsids. apply elem_of_app.
      destruct (decide (rec_id r ∈ nodeIds st)) as [Hin | Hout]; [by left | right].
      apply list_elem_of_In, filter_In. split.
      - apply list_elem_of_In. change (rec_id r ∈ rec_id <$> rs).
        by apply list_elem_of_fmap_2.
      - apply bool_decide_eq_true. intros Hc. apply Hout.
        by apply elem_of_list_to_set in Hc. }
  split; [by rewrite length_map |].
  intros j y Hy. change (map ?f ?l) with (f <$> l) in Hy.
  rewrite list_lookup_fmap in Hy.
  destruct (nodes S1 !! j) as [e |] eqn:He; [| done]. injection Hy as <-.
  destruct (lookup_lt_is_Some_2 M1 j) as [m Hm].
  { rewrite <- HlenS1. by eapply lookup_lt_Some. }
  destruct (Hbody j m Hm) as (e' & He' & Hme). assert (e' = e) as -> by congruence.
  assert (assignFrom rs m = m) as Hstable.
  { eapply (merged_stable pg rnd); [done | done |]. by eapply list_elem_of_lookup_2. }
  destruct (assignFrom_sameBody rs m e Hme Hstable) as [-> | ->]; [by left | by right].
Qed.

(** Merge idempotence for the batches the producer sends: when the ids
    of the store are pairwise distinct, the ids of the records of the
    batch are pairwise distinct and no record has an empty type, the
    second application of an incremental update changes nothing.  The
    fields of a record hold a string or a number when they are present
    (a field that is [null] has no value here: the creation replaces it
    by its default and the merge copies it, as for the empty type). *)
Lemma merge_idempotent pg rnd rnd' st data :
  NoDup (nodeIds st) → NoDup (batchIds data) →
  Forall typeNotEmpty (batchRecords data) →
  applyIncremental pg rnd' (applyIncremental pg rnd st data) data =
  applyIncremental pg rnd st data.
Proof.
  intros Hst Hbatch Htypes.
  destruct (mergedNodes_absorb pg rnd rnd' st data Hst Hbatch Htypes) as [Hlen Habs].
  rewrite (applyIncremental_steps pg rnd' _ data), preMerge_applyIncremental.
  apply graph_eq.
  - rewrite (applyIncremental_steps pg rnd st data) at 2.
    apply ensure_absorb; [done |].
    intros j y Hy. destruct (Habs j y Hy) as [H | H]; [by left | right].
    exact H.
  - assert (links (applyIncremental pg rnd st data)
            = mergedLinks data (preMerge pg data st)) as HL.
    { rewrite applyIncremental_steps. apply links_ensure. }
    rewrite links_ensure. cbn [links].
    by rewrite (mergedLinks_idem data (preMerge pg data st)).
Qed.

End Idempotence.

(** ** Full reload, updates without payload, redistribution *)

Module Reload.
Import SingleQA MergeFrame Identity Idempotence.

Lemma graph_eta (st : GraphData) : {| nodes := nodes st; links := links st |} = st.
Proof. by destruct st. Qed.

Lemma markedNodes_Some data rs :
  data_nodes data = Some rs →
  ∃ rs', markedNodes data = Some rs' ∧ map rec_id rs' = map rec_id rs ∧
         length rs' = length rs.
Proof.
  intros Hrs. unfold markedNodes. rewrite Hrs.
  destruct (data_expansion_info data) as [info |].
  - eexists. split; [done |]. rewrite map_map, length_map. split; [| done].
    apply map_ext. intros r. apply rec_id_markExpansion.
  - by exists rs.
Qed.

Lemma nodeIds_imap (f : nat → NodeRecord → Node) (rs : list NodeRecord) :
  (∀ i r, node_id (f i r) = rec_id r) → map node_id (imap f rs) = map rec_id rs.
Proof.
  revert f. induction rs as [| r rs IH]; intros f Hf; [done |].
  cbn. rewrite Hf. f_equal. apply IH. intros i r'. apply Hf.
Qed.

Lemma nodeIds_reload pg rnd (rs : list NodeRecord) total :
  map node_id (imap (λ index r, newNode pg r index total (rnd index)) rs) = map rec_id rs.
Proof. by apply nodeIds_imap. Qed.

Lemma reload_lookup pg rnd (rs : list NodeRecord) total i n :
  imap (λ index r, newNode pg r index total (rnd index)) rs !! i = Some n →
  ∃ r, rs !! i = Some r ∧ n = newNode pg r i total (rnd i).
Proof.
  rewrite list_lookup_imap. destruct (rs !! i) as [r |]; [| done].
  cbn. intros [= <-]. by exists r.
Qed.

(** X3, full reload: [updateGraph(data, false)] with nodes and links in
    the payload forgets the store.  The result is what the same call
    gives on the cleared store; its nodes carry the ids of the records,
    in the order of the records; node [i] is where [createPositionedNode]
    puts index [i] among as many nodes as the payload has records; its
    links are the normalised link records, all of them. *)
Theorem full_reload_replaces_store pg rnd st data rs ls :
  data_nodes data = Some rs → data_links data = Some ls →
  let st' := updateGraph pg rnd st data false in
  st' = updateGraph pg rnd clearGraph data false ∧
  nodeIds st' = map rec_id rs ∧
  (∀ i n, nodes st' !! i = Some n →
          (node_x n, node_y n)
            = position pg i (length rs) (fst (rnd i)) (snd (rnd i))) ∧
  links st' = map processLink ls.
Proof.
  intros Hrs Hls st'.
  destruct (markedNodes_Some data rs Hrs) as (rs' & Hrs' & Hids & Hlen).
  assert (st' = ensureInitialNodeExpansionStatus pg
            {| nodes := imap (λ index r, newNode pg r index (length rs') (rnd index)) rs';
               links := map processLink ls |}) as Hst'.
  { unfold st', updateGraph. by rewrite Hrs', Hls. }
  split; [| split; [| split]].
  - rewrite Hst'. unfold updateGraph. by rewrite Hrs', Hls.
  - rewrite Hst', nodeIds_ensure. unfold nodeIds. cbn [nodes].
    by rewrite nodeIds_reload.
  - intros i n Hn.
    set (N := imap (λ index r, newNode pg r index (length rs') (rnd index)) rs') in *.
    destruct (lookup_lt_is_Some_2 N i) as [m Hm].
    { apply lookup_lt_Some in Hn. rewrite Hst' in Hn.
      pose proof (f_equal (@length _) (nodeIds_ensure pg {| nodes := N; links := map processLink ls |})) as HL.
      unfold nodeIds in HL. rewrite !length_map in HL. cbn [nodes] in HL.
      by rewrite <- HL. }
    destruct (preserved_ensure pg {| nodes := N; links := map processLink ls |} i m Hm)
      as (n' & Hn' & _ & Hx & Hy).
    rewrite <- Hst' in Hn'. assert (n' = n) as -> by congruence.
    rewrite Hx, Hy. apply reload_lookup in Hm as (r & _ & ->).
    cbn. rewrite Hlen. by destruct (position pg i (length rs) _ _).
  - rewrite Hst'. apply links_ensure.
Qed.

Lemma full_reload_replaces_store_witness :
  let data := {| data_expansion_info := None;
                 data_nodes := Some [bareRecord "a" "A"; bareRecord "b" "B"];
                 data_links := Some [] |} in
  let st := {| nodes := [plainNode "z" "Z" 1 2]; links := [plainLink "z" "z" "r"] |} in
  let st' := updateGraph plainPage zeroRandom st data false in
  st' = updateGraph plainPage zeroRandom clearGraph data false ∧
  nodeIds st' = ["a"; "b"] ∧
  (∀ i n, nodes st' !! i = Some n →
          (node_x n, node_y n)
            = position plainPage i 2 (fst (zeroRandom i)) (snd (zeroRandom i))) ∧
  links st' = [].
Proof.
  exact (full_reload_replaces_store plainPage zeroRandom
           {| nodes := [plainNode "z" "Z" 1 2]; links := [plainLink "z" "z" "r"] |}
           {| data_expansion_info := None;
              data_nodes := Some [bareRecord "a" "A"; bareRecord "b" "B"];
              data_links := Some [] |}
           [bareRecord "a" "A"; bareRecord "b" "B"] [] eq_refl eq_refl).
Defined.

(** X4, update without payload: an update that carries neither nodes nor
    links, with or without expansion information, incremental or not,
    leaves the store exactly as the previous update left it: the
    self-heal pass has nothing left to change. *)
Theorem update_without_payload pg rnd rnd' st data isIncremental info isIncremental' :
  updateGraph pg rnd' (updateGraph pg rnd st data isIncremental)
              (bareUpdate info) isIncremental'
  = updateGraph pg rnd st data isIncremental.
Proof.
  assert (∃ X, updateGraph pg rnd st data isIncremental
               = ensureInitialNodeExpansionStatus pg X) as [X ->] by (by eexists).
  unfold updateGraph at 1. cbn [bareUpdate data_expansion_info data_links].
  assert (markedNodes (bareUpdate info) = None) as -> by (by destruct info).
  destruct info as [i |]; [destruct (expansion_container pg) |];
    rewrite ?ensure_idem, graph_eta; apply ensure_idem.
Qed.

Lemma fold_mergeNode_fresh pg rnd rs cur :
  fold_left (mergeNode pg rnd ∅) rs cur = cur ++ newsFrom pg rnd (length cur) rs.
Proof.
  revert cur. induction rs as [| r rs IH]; intros cur; cbn.
  - by rewrite app_nil_r.
  - unfold mergeNode at 2. rewrite bool_decide_eq_false_2 by set_solver.
    rewrite IH, length_app, <- app_assoc. cbn.
    by replace (length cur + 1)%nat with (S (length cur)) by lia.
Qed.

Lemma sameData_promoteInitial n n' :
  sameData n n' → sameData (promoteInitial n) (promoteInitial n').
Proof.
  intros (Hid & Hname & Htype & Hdesc & Hgroup & Hstatus & Horder).
  unfold promoteInitial. rewrite Hstatus.
  destruct (is_normal (node_expansion_status n)); by repeat split.
Qed.

Lemma sameData_healStatus n n' :
  sameData n n' → sameData (healStatus n) (healStatus n').
Proof.
  intros (Hid & Hname & Htype & Hdesc & Hgroup & Hstatus & Horder).
  unfold healStatus. rewrite Hstatus, Horder.
  destruct (node_expansion_order n) as [order |] eqn:Ho;
    [| repeat split; congruence].
  destruct (_ && _)%bool; repeat split; cbn; congruence.
Qed.

Lemma list_find_sameData (P : Node → Prop) `{!∀ x, Decision (P x)} (X Y : list Node) :
  (∀ x y, sameData x y → P x ↔ P y) →
  Forall2 sameData X Y → fst <$> list_find P X = fst <$> list_find P Y.
Proof.
  intros HP HXY. apply list_find_pointwise.
  eapply Forall2_impl; [exact HXY |]. intros x y Hxy. by apply HP.
Qed.

Lemma findInitialNode_fst pg ns :
  findInitialNode pg ns =
  match fst <$> list_find (λ n, node_expansion_order n = Some 0%Z) ns with
  | Some i => Some i
  | None =>
      match
        match initial_entity pg with
        | Some value =>
            if Js.truthy (Js.trim value)
            then fst <$> list_find (matches_entity (Js.trim value)) ns
            else None
        | None => None
        end
      with
      | Some i => Some i
      | None => match ns with [] => None | _ :: _ => Some 0%nat end
      end
  end.
Proof.
  unfold findInitialNode.
  by destruct (list_find (λ n, node_expansion_order n = Some 0%Z) ns) as [[i n] |].
Qed.

Lemma findInitialNode_sameData pg X Y :
  Forall2 sameData X Y → findInitialNode pg X = findInitialNode pg Y.
Proof.
  intros HXY. rewrite !findInitialNode_fst.
  rewrite (list_find_sameData (λ n, node_expansion_order n = Some 0%Z) X Y); [| | done].
  2: { intros x y (_ & _ & _ & _ & _ & _ & Horder). by rewrite Horder. }
  destruct (fst <$> list_find _ Y); [done |].
  assert (∀ e, fst <$> list_find (matches_entity e) X
               = fst <$> list_find (matches_entity e) Y) as Hentity.
  { intros e. apply list_find_sameData; [| done].
    intros x y (Hid & Hname & _). unfold matches_entity. by rewrite Hid, Hname. }
  destruct (initial_entity pg) as [value |].
  - destruct (Js.truthy (Js.trim value)).
    + rewrite Hentity. destruct (fst <$> list_find _ Y); [done |].
      by destruct HXY.
    + by destruct HXY.
  - by destruct HXY.
Qed.

Lemma ensure_sameData pg X Y LX LY :
  Forall2 sameData X Y →
  Forall2 sameData
    (nodes (ensureInitialNodeExpansionStatus pg {| nodes := X; links := LX |}))
    (nodes (ensureInitialNodeExpansionStatus pg {| nodes := Y; links := LY |})).
Proof.
  intros HXY. unfold ensureInitialNodeExpansionStatus. cbn [nodes links].
  rewrite (findInitialNode_sameData pg X Y HXY).
  destruct (findInitialNode pg Y) as [i |]; cbn [nodes]; [| done].
  change (map ?f ?l) with (f <$> l). apply Forall2_fmap.
  eapply Forall2_impl.
  - apply Forall2_alter; [exact HXY |].
    intros x y _ _ Hxy. by apply sameData_promoteInitial.
  - intros x y Hxy. by apply sameData_healStatus.
Qed.

Lemma sameData_newsFrom pg rnd rnd' (rs : list NodeRecord) total k k' :
  Forall2 sameData
    (imap (λ index r, newNode pg r (k + index) total (rnd (k + index)%nat)) rs)
    (newsFrom pg rnd' k' rs).
Proof.
  revert k k'. induction rs as [| r rs IH]; intros k k'; cbn; [constructor |].
  constructor; [by repeat split |].
  erewrite imap_ext; [apply (IH (S k) (S k')) |].
  intros i x _. cbn. by replace (k + S i)%nat with (S (k + i)) by lia.
Qed.

(** X5, first batch: on the cleared store an incremental update and a
    full reload of the same payload store the same nodes, in the same
    order and with the same attributes, and the same links; the two
    paths differ only in where they put the nodes. *)
Theorem first_batch_as_reload pg rnd rnd' data :
  let full := updateGraph pg rnd clearGraph data false in
  let incr := applyIncremental pg rnd' clearGraph data in
  Forall2 sameData (nodes full) (nodes incr) ∧ links full = links incr.
Proof.
  intros full incr.
  assert (preMerge pg data clearGraph = clearGraph) as Hpre.
  { unfold preMerge. destruct (data_expansion_info data); [| done].
    destruct (expansion_container pg); [| done].
    unfold ensureInitialNodeExpansionStatus, clearGraph. cbn [nodes].
    by rewrite findInitialNode_nil. }
  unfold full, incr, applyIncremental, updateGraph.
  fold (preMerge pg data clearGraph). rewrite Hpre. cbn [clearGraph nodes links].
  split.
  - apply ensure_sameData. destruct (markedNodes data) as [rs |]; [| constructor].
    unfold updateNodes. cbn [map]. rewrite fold_mergeNode_fresh. cbn [app length].
    apply (sameData_newsFrom pg rnd rnd' rs (length rs) 0 0).
  - rewrite !links_ensure. cbn [links].
    destruct (data_links data) as [ls |]; [| done].
    unfold updateLinks. cbn [map app].
    induction (map processLink ls) as [| l L IH]; [done |].
    cbn. rewrite bool_decide_eq_true_2 by set_solver. by f_equal.
Qed.

Lemma sameData_imap (f : nat → Node → Node) (ns : list Node) :
  (∀ i n, sameData n (f i n)) → Forall2 sameData ns (imap f ns).
Proof.
  revert f. induction ns as [| n ns IH]; intros f Hf; cbn; constructor; [done |].
  apply IH. intros i m. apply Hf.
Qed.

(** X6, redistribution: [redistributeNodes] keeps the nodes, their order,
    their attributes and the links, and puts node [i] of [n] where the
    initial placement puts index [i] among [n] nodes, around the centre
    [(width / 2, height / 2)] of the container (1200 and 800 standing for
    a width and a height of 0): at the centre alone, on one circle of
    radius 120 up to 6 nodes, on rings up to 20, on the hex-offset grid,
    jittered by at most 20 pixels, above. *)
Theorem redistribute_places pg rnd st :
  (∀ i, (0 <= fst (rnd i) < 1)%R ∧ (0 <= snd (rnd i) < 1)%R) →
  let width := if decide (clientWidth pg = 0%Z) then 1200%R else IZR (clientWidth pg) in
  let height := if decide (clientHeight pg = 0%Z) then 800%R else IZR (clientHeight pg) in
  let st' := redistributeNodes pg rnd st in
  links st' = links st ∧
  Forall2 sameData (nodes st) (nodes st') ∧
  (∀ i n, nodes st' !! i = Some n →
          placementSpec width height i (length (nodes st)) (node_x n, node_y n)).
Proof.
  intros Hrnd width height st'. unfold st', redistributeNodes.
  destruct (nodes st) as [| n0 rest] eqn:Hnodes.
  - rewrite Hnodes. split; [done |]. split; [constructor | done].
  - cbn [nodes links]. split; [done |]. split.
    + apply sameData_imap. intros i n. by repeat split.
    + intros i n Hn. rewrite list_lookup_imap in Hn.
      destruct ((n0 :: rest) !! i) as [m |]; [| done]. cbn in Hn.
      injection Hn as <-. cbn [moveTo node_x node_y createPositionedNode pos_x pos_y].
      rewrite <- surjective_pairing.
      apply InitialPlacement.position_spec; apply Hrnd.
Qed.

(** Two nodes in a container of 1000 by 600 pixels: both on the circle of
    radius 120 around (500, 300). *)
Lemma redistribute_places_witness :
  let pg := {| clientWidth := 1000; clientHeight := 600;
               initial_entity := None; expansion_container := false |} in
  let st := {| nodes := [plainNode "a" "A" 1 2; plainNode "b" "B" 3 4];
               links := [plainLink "a" "b" "r"] |} in
  let st' := redistributeNodes pg zeroRandom st in
  links st' = links st ∧
  Forall2 sameData (nodes st) (nodes st') ∧
  (∀ i n, nodes st' !! i = Some n →
          placementSpec 1000 600 i 2 (node_x n, node_y n)).
Proof.
  apply (redistribute_places
           {| clientWidth := 1000; clientHeight := 600;
              initial_entity := None; expansion_container := false |}
           zeroRandom
           {| nodes := [plainNode "a" "A" 1 2; plainNode "b" "B" 3 4];
              links := [plainLink "a" "b" "r"] |}).
  intros i. cbn. lra.
Defined.

End Reload.

(** ** The expansion sequence: marking and display *)

Module Expansion.
Import SingleQA MergeFrame Identity Idempotence.

Lemma markedStatus_not_normal info id : is_normal (markedStatus info id) = false.
Proof. unfold markedStatus. by destruct (bool_decide _). Qed.

Lemma status_markExpansion info r :
  rec_id r ∈ expansion_nodes info →
  Js.or_lit (rec_expansion_status (markExpansion info r)) "normal"
  = markedStatus info (rec_id r).
Proof.
  intros Hin. unfold markExpansion.
  rewrite bool_decide_eq_true_2 by (by apply elem_of_list_to_set).
  cbn. unfold markedStatus. by destruct (bool_decide _).
Qed.

Lemma marked_newNode pg info r k total uv :
  marked info (newNode pg (markExpansion info r) k total uv).
Proof.
  intros Hin. cbn in *. rewrite rec_id_markExpansion in *.
  by apply status_markExpansion.
Qed.

Lemma marked_assignNode info r m : marked info (assignNode (markExpansion info r) m).
Proof.
  intros Hin. cbn in *. rewrite rec_id_markExpansion in *.
  by apply status_markExpansion.
Qed.

(** A node of the store after the self-heal pass comes from a node of
    the store before it; a node with a status of the expansion sequence
    is not touched. *)
Lemma ensure_elem pg st n :
  n ∈ nodes (ensureInitialNodeExpansionStatus pg st) →
  ∃ m, m ∈ nodes st ∧ node_id m = node_id n ∧
       (is_normal (node_expansion_status m) = false → n = m).
Proof.
  intros Hn. apply list_elem_of_lookup in Hn as [j Hj].
  destruct st as [X L]. cbn [nodes].
  destruct (findInitialNode pg X) as [i |] eqn:Hi.
  - rewrite (ensure_lookup pg X L i j Hi) in Hj.
    destruct (X !! j) as [m |] eqn:Hm; [| done]. cbn in Hj. injection Hj as <-.
    exists m. split; [by eapply list_elem_of_lookup_2 |]. split.
    + destruct (decide (j = i)); by rewrite node_id_healStatus, ?node_id_promoteInitial.
    + intros Hmarked. destruct (decide (j = i)).
      * rewrite promoteInitial_marked by done. by apply healStatus_marked.
      * by apply healStatus_marked.
  - unfold ensureInitialNodeExpansionStatus in Hj. cbn [nodes] in Hj.
    rewrite Hi in Hj. cbn [nodes] in Hj.
    exists n. split; [by eapply list_elem_of_lookup_2 |]. done.
Qed.

Lemma one_index_per_stored_id (ids : gset string) (A B : list string) L i j (a b : Node) :
  map node_id L = A ++ B → NoDup A → (∀ x, x ∈ B → x ∉ ids) →
  L !! i = Some a → L !! j = Some b →
  node_id a = node_id b → node_id a ∈ ids → i = j.
Proof.
  intros HL HA HB Hi Hj Hab Hin.
  assert (∀ k c, L !! k = Some c → node_id c ∈ ids → A !! k = Some (node_id c)) as Hpre.
  { intros k c Hk Hc.
    assert ((A ++ B) !! k = Some (node_id c)) as Hk'.
    { rewrite <- HL. change (map ?f ?l) with (f <$> l).
      by rewrite list_lookup_fmap, Hk. }
    destruct (decide (k < length A)%nat) as [Hlt | Hge].
    - by rewrite lookup_app_l in Hk'.
    - rewrite lookup_app_r in Hk' by lia.
      exfalso. eapply HB; [| exact Hc]. by eapply list_elem_of_lookup_2. }
  eapply NoDup_lookup; [exact HA | by apply (Hpre i a) |].
  rewrite Hab. apply (Hpre j b); [done |]. by rewrite <- Hab.
Qed.

Lemma fold_mergeNode_marked pg rnd info (rs : list NodeRecord) cur n :
  NoDup (map node_id cur) →
  let ids : gset string := list_to_set (map node_id cur) in
  n ∈ fold_left (mergeNode pg rnd ids) (map (markExpansion info) rs) cur →
  node_id n ∈ map rec_id rs → marked info n.
Proof.
  intros Hcur ids. revert n.
  induction rs as [| r rs IH] using rev_ind; intros n Hn Hid.
  { by apply elem_of_nil in Hid. }
  rewrite map_app, fold_left_app in Hn. cbn [map fold_left] in Hn.
  set (L := fold_left (mergeNode pg rnd ids) (map (markExpansion info) rs) cur) in *.
  assert (map node_id L = map node_id cur ++
            List.filter (λ id, bool_decide (id ∉ ids))
                        (map rec_id (map (markExpansion info) rs))) as HL
    by apply nodeIds_fold_mergeNode.
  assert (∀ x, x ∈ List.filter (λ id, bool_decide (id ∉ ids))
                     (map rec_id (map (markExpansion info) rs)) →
               (x ∉ ids) ∧ (x ∈ map rec_id rs)) as Hfresh.
  { intros x Hx. apply list_elem_of_In, filter_In in Hx as [Hx Hnot].
    apply bool_decide_eq_true in Hnot. split; [done |].
    apply list_elem_of_In. rewrite map_map in Hx.
    erewrite map_ext in Hx; [exact Hx |]. intros r'. cbn.
    by rewrite rec_id_markExpansion. }
  rewrite map_app in Hid. cbn [map] in Hid.
  unfold mergeNode in Hn. rewrite rec_id_markExpansion in Hn.
  destruct (bool_decide (rec_id r ∈ ids)) eqn:Hr.
  - apply bool_decide_eq_true in Hr.
    destruct (list_find (λ n0, node_id n0 = rec_id r) L) as [[i m] |] eqn:Hfind.
    + apply list_find_Some in Hfind as (Hi & Hm & _).
      apply list_elem_of_lookup in Hn as [j Hj].
      destruct (decide (j = i)) as [-> | Hne].
      * rewrite list_lookup_alter_eq, Hi in Hj. cbn in Hj. injection Hj as <-.
        apply marked_assignNode.
      * rewrite list_lookup_alter_ne in Hj by done.
        apply elem_of_app in Hid as [Hid | Hid].
        -- apply IH; [by eapply list_elem_of_lookup_2 | done].
        -- apply list_elem_of_singleton in Hid. exfalso. apply Hne.
           eapply (one_index_per_stored_id ids _ _ L j i n m HL Hcur);
             [intros x Hx; by apply Hfresh | done | done | congruence |].
           by rewrite Hid.
    + apply elem_of_app in Hid as [Hid | Hid]; [by apply IH |].
      apply list_elem_of_singleton in Hid. exfalso.
      eapply list_find_None in Hfind. rewrite Forall_forall in Hfind.
      by apply (Hfind n).
  - apply bool_decide_eq_false in Hr.
    apply elem_of_app in Hn as [Hn | Hn].
    + apply IH; [done |].
      apply elem_of_app in Hid as [Hid | Hid]; [done |].
      apply list_elem_of_singleton in Hid.
      assert (node_id n ∈ map node_id L) as Hin' by (by apply list_elem_of_fmap_2).
      rewrite HL in Hin'. apply elem_of_app in Hin' as [Hin' | Hin'].
      * exfalso. apply Hr. rewrite <- Hid. by apply elem_of_list_to_set.
      * by apply Hfresh.
    + apply list_elem_of_singleton in Hn as ->. apply marked_newNode.
Qed.

(** X7, expansion marking: after an update whose payload carries
    expansion information and node records, every stored node whose id is
    the id of a record of the payload and an id of the expansion sequence
    has the status "current" when it is the current node and "expansion"
    otherwise; the self-heal pass that ends the update does not change
    it.  An incremental update needs a store whose ids are pairwise
    distinct. *)
Theorem expansion_marking pg rnd st data info rs isIncremental n :
  data_expansion_info data = Some info → data_nodes data = Some rs →
  (isIncremental = true → NoDup (nodeIds st)) →
  n ∈ nodes (updateGraph pg rnd st data isIncremental) →
  node_id n ∈ map rec_id rs → node_id n ∈ expansion_nodes info →
  node_expansion_status n = markedStatus info (node_id n).
Proof.
  intros Hinfo Hrs Hst Hn Hbatch Hseq.
  assert (markedNodes data = Some (map (markExpansion info) rs)) as Hmarked.
  { unfold markedNodes. by rewrite Hinfo, Hrs. }
  unfold updateGraph in Hn. fold (preMerge pg data st) in Hn. rewrite Hmarked in Hn.
  apply ensure_elem in Hn as (m & Hm & Hid & Hsame). cbn [nodes] in Hm.
  assert (marked info m) as Hmark.
  { destruct isIncremental; unfold updateNodes in Hm.
    - eapply fold_mergeNode_marked; [| exact Hm | by rewrite Hid].
      fold (nodeIds (preMerge pg data st)). rewrite nodeIds_preMerge. by apply Hst.
    - apply list_elem_of_lookup in Hm as [i Hi]. rewrite list_lookup_imap in Hi.
      change (map ?f ?l) with (f <$> l) in Hi. rewrite list_lookup_fmap in Hi.
      destruct (rs !! i) as [r |]; [| done]. cbn in Hi. injection Hi as <-.
      apply marked_newNode. }
  rewrite <- Hid in Hseq |- *. specialize (Hmark Hseq).
  rewrite Hsame; [done |]. rewrite Hmark. apply markedStatus_not_normal.
Qed.

Lemma expansion_marking_witness :
  let info := {| expansion_nodes := ["a"; "b"]; current_node := Some "b" |} in
  let data := {| data_expansion_info := Some info;
                 data_nodes := Some [bareRecord "a" "A"; bareRecord "b" "B"];
                 data_links := None |} in
  let st := {| nodes := [plainNode "b" "B" 10 20]; links := [] |} in
  node_expansion_status (plainNode "b" "B" 10 20) = "normal" ∧
  map node_expansion_status (nodes (updateGraph plainPage zeroRandom st data true))
    = ["current"; "expansion"].
Proof.
  set (info := {| expansion_nodes := ["a"; "b"]; current_node := Some "b" |}).
  set (data := {| data_expansion_info := Some info;
                  data_nodes := Some [bareRecord "a" "A"; bareRecord "b" "B"];
                  data_links := None |}).
  set (st := {| nodes := [plainNode "b" "B" 10 20]; links := [] |}).
  assert (NoDup (nodeIds st)) as Hst.
  { apply (bool_decide_unpack _). vm_compute. exact I. }
  assert (∃ n0 n1, nodes (updateGraph plainPage zeroRandom st data true) = [n0; n1] ∧
                   node_id n0 = "b" ∧ node_id n1 = "a") as (n0 & n1 & Hnodes & Hid0 & Hid1).
  { eexists _, _. split; [vm_compute; reflexivity |]. split; reflexivity. }
  pose proof (expansion_marking plainPage zeroRandom st data info
                [bareRecord "a" "A"; bareRecord "b" "B"] true n0
                eq_refl eq_refl (λ _, Hst)) as H0.
  pose proof (expansion_marking plainPage zeroRandom st data info
                [bareRecord "a" "A"; bareRecord "b" "B"] true n1
                eq_refl eq_refl (λ _, Hst)) as H1.
  cbv zeta. fold info data st. rewrite Hnodes in H0, H1 |- *.
  split; [reflexivity |]. cbn [map].
  rewrite H0, H1, Hid0, Hid1; [reflexivity | | | | | |];
    rewrite ?Hid0, ?Hid1; cbn; set_solver.
Defined.

(** The deduplication keeps [seenIds] and [seenNames] equal to the ids
    and names of [uniqueNodes], without repetition. *)
Lemma pushUnique_inv acc e :
  seenIds acc = list_to_set (map seq_id (seenNodes acc)) →
  seenNames acc = list_to_set (map seq_name (seenNodes acc)) →
  NoDup (map seq_id (seenNodes acc)) → NoDup (map seq_name (seenNodes acc)) →
  let acc' := pushUnique acc e in
  seenIds acc' = list_to_set (map seq_id (seenNodes acc')) ∧
  seenNames acc' = list_to_set (map seq_name (seenNodes acc')) ∧
  NoDup (map seq_id (seenNodes acc')) ∧ NoDup (map seq_name (seenNodes acc')) ∧
  (seq_id e ∈ seenIds acc' ∨ seq_name e ∈ seenNames acc') ∧
  seenIds acc ⊆ seenIds acc' ∧ seenNames acc ⊆ seenNames acc' ∧
  (∃ more, seenNodes acc' = seenNodes acc ++ more ∧ ∀ u, u ∈ more → u = e).
Proof.
  intros Hids Hnames Hnd1 Hnd2 acc'. unfold acc', pushUnique.
  destruct (bool_decide (seq_id e ∈ seenIds acc)) eqn:Hid; cbn [negb andb].
  { apply bool_decide_eq_true in Hid. repeat split; try done; [by left |].
    exists []. rewrite app_nil_r. split; [done |]. intros u Hu. by apply elem_of_nil in Hu. }
  destruct (bool_decide (seq_name e ∈ seenNames acc)) eqn:Hname; cbn [negb].
  { apply bool_decide_eq_true in Hname. repeat split; try done; [by right |].
    exists []. rewrite app_nil_r. split; [done |]. intros u Hu. by apply elem_of_nil in Hu. }
  apply bool_decide_eq_false in Hid, Hname. cbn [seenIds seenNames seenNodes].
  rewrite !map_app, !list_to_set_app_L. cbn [map list_to_set].
  rewrite !union_empty_r_L, <- Hids, <- Hnames.
  repeat split; try done.
  - apply NoDup_app. split; [done |]. split; [| apply NoDup_singleton].
    intros x Hx Hx'. apply list_elem_of_singleton in Hx' as ->.
    apply Hid. rewrite Hids. by apply elem_of_list_to_set.
  - apply NoDup_app. split; [done |]. split; [| apply NoDup_singleton].
    intros x Hx Hx'. apply list_elem_of_singleton in Hx' as ->.
    apply Hname. rewrite Hnames. by apply elem_of_list_to_set.
  - left. apply elem_of_union. right. by apply elem_of_singleton.
  - apply union_subseteq_l.
  - apply union_subseteq_l.
  - exists [e]. split; [done |]. intros u Hu. by apply list_elem_of_singleton in Hu.
Qed.

Lemma fold_pushUnique_inv es acc :
  seenIds acc = list_to_set (map seq_id (seenNodes acc)) →
  seenNames acc = list_to_set (map seq_name (seenNodes acc)) →
  NoDup (map seq_id (seenNodes acc)) → NoDup (map seq_name (seenNodes acc)) →
  let final := fold_left pushUnique es acc in
  seenIds final = list_to_set (map seq_id (seenNodes final)) ∧
  seenNames final = list_to_set (map seq_name (seenNodes final)) ∧
  NoDup (map seq_id (seenNodes final)) ∧ NoDup (map seq_name (seenNodes final)) ∧
  (∀ e, e ∈ es → seq_id e ∈ seenIds final ∨ seq_name e ∈ seenNames final) ∧
  seenIds acc ⊆ seenIds final ∧ seenNames acc ⊆ seenNames final ∧
  (∃ more, seenNodes final = seenNodes acc ++ more ∧ ∀ u, u ∈ more → u ∈ es).
Proof.
  revert acc. induction es as [| e es IH]; intros acc Hids Hnames Hnd1 Hnd2; cbn.
  { repeat split; try done.
    - intros e He. by apply elem_of_nil in He.
    - exists []. rewrite app_nil_r. split; [done |]. intros u Hu.
      by apply elem_of_nil in Hu. }
  destruct (pushUnique_inv acc e Hids Hnames Hnd1 Hnd2)
    as (Hids' & Hnames' & Hnd1' & Hnd2' & Hcov & Hs1 & Hs2 & more & Hmore & Hmore').
  destruct (IH (pushUnique acc e) Hids' Hnames' Hnd1' Hnd2')
    as (Hids'' & Hnames'' & Hnd1'' & Hnd2'' & Hcov' & Hsub1 & Hsub2 & more' & Hmore2 & Hmore2').
  clear IH.
  repeat split; try done.
  - intros e' He'. apply elem_of_cons in He' as [-> | He']; [| by apply Hcov'].
    destruct Hcov as [H | H]; [left; by apply Hsub1 | right; by apply Hsub2].
  - by etrans.
  - by etrans.
  - exists (more ++ more'). rewrite Hmore2, Hmore, <- app_assoc. split; [done |].
    intros u Hu. apply elem_of_app in Hu as [Hu | Hu].
    + apply elem_of_cons. left. by apply Hmore'.
    + apply elem_of_cons. right. by apply Hmore2'.
Qed.

Lemma findInitialNode_lt pg ns i :
  findInitialNode pg ns = Some i → is_Some (ns !! i).
Proof.
  unfold findInitialNode.
  destruct (list_find _ ns) as [[j n] |] eqn:H0.
  { intros [= <-]. apply list_find_Some in H0 as (H0 & _). by eexists. }
  destruct (initial_entity pg) as [value |].
  - destruct (Js.truthy (Js.trim value)).
    + destruct (list_find (matches_entity _) ns) as [[j n] |] eqn:H1; cbn.
      * intros [= <-]. apply list_find_Some in H1 as (H1 & _). by eexists.
      * destruct ns; [done |]. intros [= <-]. by eexists.
    + destruct ns; [done |]. intros [= <-]. by eexists.
  - destruct ns; [done |]. intros [= <-]. by eexists.
Qed.

(** On a store that is not empty the self-heal pass marks the initial
    node, and [findInitialNode] then returns that node. *)
Lemma findInitialNode_healed pg st :
  nodes st ≠ [] →
  let healed := nodes (ensureInitialNodeExpansionStatus pg st) in
  ∃ i n, findInitialNode pg healed = Some i ∧ healed !! i = Some n ∧
         is_normal (node_expansion_status n) = false.
Proof.
  intros Hst healed. destruct st as [X L]. cbn [nodes] in Hst.
  destruct (findInitialNode pg X) as [i |] eqn:Hi.
  2: { by apply Seed.findInitialNode_None in Hi. }
  destruct (findInitialNode_lt pg X i Hi) as [x Hx].
  assert (∀ j, healed !! j
               = (λ x, healStatus (if decide (j = i) then promoteInitial x else x))
                   <$> X !! j) as Hlook.
  { intros j. by apply ensure_lookup. }
  exists i, (healStatus (promoteInitial x)). split; [| split].
  - apply (findInitialNode_absorb pg X healed i Hi).
    + apply (length_nodeIds (ensureInitialNodeExpansionStatus pg {| nodes := X; links := L |})
                            {| nodes := X; links := L |}).
      apply nodeIds_ensure.
    + intros j y x' Hy Hx'. right. rewrite Hlook, Hx' in Hy. by injection Hy as <-.
  - rewrite Hlook, Hx. cbn. by rewrite decide_True.
  - apply heal_promote_marked.
Qed.

(** X8, expansion sequence: on a page with the expansion panel, the list
    shown for an expansion sequence that is not empty names no id twice
    and no name twice; every entry of the expansion sequence is
    shown or shares its id or its name with an entry that is shown; every
    entry shown is an entry of the sequence or the entry of the initial
    node; when the store is not empty the list begins with the initial
    node, which the self-heal pass has marked. *)
Theorem expansion_sequence_distinct pg st e es :
  expansion_container pg = true →
  let shown := expansionSequence pg st (e :: es) in
  NoDup (map seq_id shown) ∧ NoDup (map seq_name shown) ∧
  (∀ e', e' ∈ e :: es →
         ∃ u, u ∈ shown ∧ (seq_id u = seq_id e' ∨ seq_name u = seq_name e')) ∧
  (∀ u, u ∈ shown →
        u ∈ e :: es ∨ ∃ n, n ∈ nodes (ensureInitialNodeExpansionStatus pg st) ∧
                           u = initialEntry n) ∧
  (nodes st ≠ [] →
   ∃ n, n ∈ nodes (ensureInitialNodeExpansionStatus pg st) ∧
        is_normal (node_expansion_status n) = false ∧
        shown !! 0%nat = Some (initialEntry n)).
Proof.
  intros Hpanel shown. unfold shown, expansionSequence, uniqueNodes.
  rewrite Hpanel. cbn [negb].
  set (healed := nodes (ensureInitialNodeExpansionStatus pg st)).
  set (initialNode := findInitialNode pg healed ≫= λ i, healed !! i).
  set (none := {| seenIds := ∅; seenNames := ∅; seenNodes := [] |}).
  set (start := match initialNode with
                | Some n => _
                | None => none
                end).
  assert (seenNodes start = match initialNode with
                            | Some n => [initialEntry n]
                            | None => []
                            end ∧
          seenIds start = list_to_set (map seq_id (seenNodes start)) ∧
          seenNames start = list_to_set (map seq_name (seenNodes start)) ∧
          NoDup (map seq_id (seenNodes start)) ∧
          NoDup (map seq_name (seenNodes start)))
    as (Hstart & Hids & Hnames & Hnd1 & Hnd2).
  { unfold start. destruct initialNode as [n |]; cbn [none seenIds seenNames].
    - rewrite !bool_decide_eq_false_2 by apply not_elem_of_empty.
      cbn. rewrite !union_empty_l_L, !union_empty_r_L.
      repeat split; apply NoDup_singleton.
    - repeat split; constructor. }
  destruct (fold_pushUnique_inv (e :: es) start Hids Hnames Hnd1 Hnd2)
    as (Hids' & Hnames' & Hnd1' & Hnd2' & Hcov & _ & _ & more & Hmore & Hmore').
  split; [done |]. split; [done |]. split; [| split].
  - intros e' He'. destruct (Hcov e' He') as [H | H].
    + rewrite Hids' in H. apply elem_of_list_to_set, list_elem_of_fmap in H
        as (u & Hu & Hin). exists u. split; [done |]. by left.
    + rewrite Hnames' in H. apply elem_of_list_to_set, list_elem_of_fmap in H
        as (u & Hu & Hin). exists u. split; [done |]. by right.
  - intros u Hu. rewrite Hmore in Hu. apply elem_of_app in Hu as [Hu | Hu].
    + right. rewrite Hstart in Hu. destruct initialNode as [n |] eqn:Hinit.
      * apply list_elem_of_singleton in Hu as ->. exists n. split; [| done].
        unfold initialNode in Hinit. destruct (findInitialNode pg healed) as [i |];
          [| done]. cbn in Hinit. by eapply list_elem_of_lookup_2.
      * by apply elem_of_nil in Hu.
    + left. by apply Hmore'.
  - intros Hst.
    destruct (findInitialNode_healed pg st Hst) as (i & n & Hi & Hn & Hmark).
    fold healed in Hi, Hn.
    assert (initialNode = Some n) as Hinit.
    { unfold initialNode. rewrite Hi. exact Hn. }
    exists n. split; [by eapply list_elem_of_lookup_2 |]. split; [done |].
    by rewrite Hmore, Hstart, Hinit.
Qed.

Lemma expansion_sequence_distinct_witness :
  let pg := {| clientWidth := 1200; clientHeight := 800;
               initial_entity := Some "Aspirin"; expansion_container := true |} in
  let st := {| nodes := [plainNode "a" "Aspirin" 0 0; plainNode "b" "Fever" 0 0];
               links := [] |} in
  let entry id name := {| seq_id := id; seq_name := name; seq_order := None |} in
  map seq_name
      (expansionSequence pg st [entry "a" "Aspirin"; entry "b" "Fever"; entry "c" "Fever"])
    = ["Aspirin"; "Fever"] ∧
  NoDup (map seq_id
           (expansionSequence pg st
              [entry "a" "Aspirin"; entry "b" "Fever"; entry "c" "Fever"])).
Proof.
  split; [vm_compute; reflexivity |].
  exact (proj1 (expansion_sequence_distinct
                  {| clientWidth := 1200; clientHeight := 800;
                     initial_entity := Some "Aspirin"; expansion_container := true |}
                  {| nodes := [plainNode "a" "Aspirin" 0 0; plainNode "b" "Fever" 0 0];
                     links := [] |}
                  {| seq_id := "a"; seq_name := "Aspirin"; seq_order := None |}
                  [ {| seq_id := "b"; seq_name := "Fever"; seq_order := None |};
                    {| seq_id := "c"; seq_name := "Fever"; seq_order := None |} ]
                  eq_refl)).
Defined.

End Expansion.

(** ** Node radius and link lines *)

Module Geometry.
Import SingleQA.

Lemma filter_length_app {A} (f : A → bool) (l k : list A) :
  length (List.filter f (l ++ k)) = (length (List.filter f l) + length (List.filter f k))%nat.
Proof. by rewrite List.filter_app, length_app. Qed.

Lemma filter_length_zero {A} (f : A → bool) (l : list A) :
  length (List.filter f l) = 0%nat ↔ ∀ x, x ∈ l → f x = false.
Proof.
  induction l as [| x l IH]; cbn.
  - split; [| done]. intros _ y Hy. by apply elem_of_nil in Hy.
  - destruct (f x) eqn:Hx; cbn.
    + split; [done |]. intros H. specialize (H x (list_elem_of_here _ _)). congruence.
    + rewrite IH. split.
      * intros H y Hy. apply elem_of_cons in Hy as [-> | Hy]; [done | by apply H].
      * intros H y Hy. apply H. by apply list_elem_of_further.
Qed.

Lemma touches_namesNode d l : touches d l = true ↔ namesNode d l.
Proof.
  unfold touches, namesNode.
  rewrite orb_true_iff, !bool_decide_eq_true. done.
Qed.

Lemma connectionCount_snoc ns ls l d :
  connectionCount {| nodes := ns; links := ls ++ [l] |} d
  = (connectionCount {| nodes := ns; links := ls |} d
     + (if touches d l then 1 else 0))%nat.
Proof.
  unfold connectionCount. cbn [links]. rewrite filter_length_app. cbn.
  by destruct (touches d l).
Qed.

(** X9, node radius: the radius of a node depends on the links of the
    store and on the id of the node only.  It is 25 pixels in a store
    without links; a link added to the store makes it 2 pixels larger, up
    to 40 pixels, when the link names the node as its source or as its
    target ([source_id] before [source], [target_id] before [target]),
    and leaves it as it is otherwise.  So it lies between 25 and 40, and
    it is 25 exactly when no link of the store names the node. *)
Theorem node_radius_range ns ls l d :
  let r := getNodeRadius {| nodes := ns; links := ls |} d in
  let r' := getNodeRadius {| nodes := ns; links := ls ++ [l] |} d in
  getNodeRadius {| nodes := ns; links := [] |} d = 25%nat ∧
  (Js.or (link_source_id l) (link_source l) = Some (node_id d) ∨
   Js.or (link_target_id l) (link_target l) = Some (node_id d) →
   r' = Nat.min 40 (r + 2)) ∧
  (Js.or (link_source_id l) (link_source l) ≠ Some (node_id d) ∧
   Js.or (link_target_id l) (link_target l) ≠ Some (node_id d) →
   r' = r) ∧
  (25 ≤ r ≤ 40)%nat ∧
  (r = 25%nat ↔ ∀ l0, l0 ∈ ls → ¬ namesNode d l0) ∧
  (∀ ns' d', node_id d' = node_id d →
             getNodeRadius {| nodes := ns'; links := ls |} d' = r).
Proof.
  intros r r'. unfold r, r', getNodeRadius. rewrite connectionCount_snoc.
  split_and!.
  - done.
  - intros Hl. rewrite (proj2 (touches_namesNode d l) Hl). lia.
  - intros [Hs Ht].
    destruct (touches d l) eqn:Hl; [| by rewrite Nat.add_0_r].
    apply touches_namesNode in Hl as [Hl | Hl]; contradiction.
  - lia.
  - lia.
  - unfold connectionCount. cbn [links].
    assert (length (List.filter (touches d) ls) = 0%nat
            ↔ ∀ l0, l0 ∈ ls → ¬ namesNode d l0) as <-; [| lia].
    rewrite filter_length_zero. split.
    + intros H l0 Hl0 Hn. apply touches_namesNode in Hn.
      rewrite (H l0 Hl0) in Hn. done.
    + intros H l0 Hl0. destruct (touches d l0) eqn:Ht; [| done].
      apply touches_namesNode in Ht. by apply H in Ht.
  - intros ns' d' Hid. unfold connectionCount, touches. cbn [links].
    by rewrite Hid.
Qed.

(** The store of the links from "a" to "b" and from "b" to "c": the
    radius of "b" is 27 after the first link and 29 after the second,
    which leaves the radius of "a" at 27. *)
Lemma node_radius_range_witness :
  let ab := plainLink "a" "b" "r" in
  let bc := plainLink "b" "c" "r" in
  let a := plainNode "a" "A" 0 0 in
  let b := plainNode "b" "B" 0 0 in
  getNodeRadius {| nodes := []; links := [ab] |} b = 27%nat ∧
  getNodeRadius {| nodes := []; links := [ab; bc] |} b = 29%nat ∧
  getNodeRadius {| nodes := []; links := [ab] |} a = 27%nat ∧
  getNodeRadius {| nodes := []; links := [ab; bc] |} a = 27%nat.
Proof.
  intros ab bc a b.
  destruct (node_radius_range [] [] ab b) as (Hb0 & Hb1 & _).
  destruct (node_radius_range [] [ab] bc b) as (_ & Hb2 & _).
  destruct (node_radius_range [] [] ab a) as (Ha0 & Ha1 & _).
  destruct (node_radius_range [] [ab] bc a) as (_ & _ & Ha2 & _).
  cbn [app] in *.
  assert (getNodeRadius {| nodes := []; links := [ab] |} b = 27%nat) as Hb.
  { rewrite Hb1, Hb0; [done |]. by right. }
  assert (getNodeRadius {| nodes := []; links := [ab] |} a = 27%nat) as Ha.
  { rewrite Ha1, Ha0; [done |]. by left. }
  split_and!; [done | | done |].
  - rewrite Hb2, Hb; [done |]. by left.
  - rewrite Ha2, Ha; [done |]. split; discriminate.
Defined.

Section Lines.
Local Open Scope R_scope.

Lemma distance_zero dx dy : sqrt (dx * dx + dy * dy) = 0 ↔ dx = 0 ∧ dy = 0.
Proof.
  split.
  - intros H. apply sqrt_eq_0 in H; [| nra]. split; nra.
  - intros [-> ->]. replace (0 * 0 + 0 * 0) with 0 by ring. apply sqrt_0.
Qed.

(** X10, link line: the line drawn for a link between two nodes at
    different places starts on the circle of radius (radius + 2) around
    the source and ends on the circle of radius (radius + 2) around the
    target, both points on the straight line through the two centres, the
    first on the side of the target and the second on the side of the
    source.  Between two nodes at the same place the line is the point
    itself: nothing is divided by the zero distance. *)
Theorem line_points_on_circles st source target :
  let p := getLinePoints st source target in
  let sourceRadius := INR (getNodeRadius st source) + 2 in
  let targetRadius := INR (getNodeRadius st target) + 2 in
  let dx := node_x target - node_x source in
  let dy := node_y target - node_y source in
  let ax := points_x1 p - node_x source in
  let ay := points_y1 p - node_y source in
  let bx := points_x2 p - node_x target in
  let by' := points_y2 p - node_y target in
  (dx = 0 ∧ dy = 0 → ax = 0 ∧ ay = 0 ∧ bx = 0 ∧ by' = 0) ∧
  (dx ≠ 0 ∨ dy ≠ 0 →
     ax * ax + ay * ay = sourceRadius * sourceRadius ∧
     bx * bx + by' * by' = targetRadius * targetRadius ∧
     ax * dy = ay * dx ∧ bx * dy = by' * dx ∧
     0 < ax * dx + ay * dy ∧ bx * dx + by' * dy < 0).
Proof.
  intros p sourceRadius targetRadius dx dy ax ay bx by'.
  unfold ax, ay, bx, by', p, getLinePoints.
  fold sourceRadius targetRadius dx dy.
  set (distance := sqrt (dx * dx + dy * dy)).
  assert (27 <= sourceRadius ∧ 27 <= targetRadius) as [Hs Ht].
  { unfold sourceRadius, targetRadius.
    pose proof (ViewportFit.getNodeRadius_ge st source).
    pose proof (ViewportFit.getNodeRadius_ge st target). lra. }
  destruct (Req_dec_T distance 0) as [Hzero | Hpos];
    cbn [points_x1 points_y1 points_x2 points_y2].
  - apply distance_zero in Hzero as [Hdx Hdy]. split.
    + intros _. repeat split; lra.
    + intros [H | H]; contradiction.
  - split.
    + intros Hboth. exfalso. apply Hpos. by apply distance_zero.
    + intros _.
      assert (0 < distance) as Hd.
      { pose proof (sqrt_pos (dx * dx + dy * dy)). fold distance in H. lra. }
      assert (distance * distance = dx * dx + dy * dy) as Hsq.
      { unfold distance. apply sqrt_sqrt. nra. }
      assert (dx / distance * (dx / distance) + dy / distance * (dy / distance) = 1)
        as Hunit.
      { replace (dx / distance * (dx / distance) + dy / distance * (dy / distance))
          with ((dx * dx + dy * dy) / (distance * distance)) by (field; lra).
        rewrite <- Hsq. field. lra. }
      assert (dx / distance * dx + dy / distance * dy = distance) as Hdot.
      { replace (dx / distance * dx + dy / distance * dy)
          with ((dx * dx + dy * dy) / distance) by (field; lra).
        rewrite <- Hsq. field. lra. }
      set (unitX := dx / distance) in *. set (unitY := dy / distance) in *.
      assert (unitX * dy = unitY * dx) as Hcol.
      { unfold unitX, unitY. field. lra. }
      repeat split.
      * replace (node_x source + unitX * sourceRadius - node_x source)
          with (unitX * sourceRadius) by ring.
        replace (node_y source + unitY * sourceRadius - node_y source)
          with (unitY * sourceRadius) by ring.
        replace (unitX * sourceRadius * (unitX * sourceRadius) +
                 unitY * sourceRadius * (unitY * sourceRadius))
          with ((unitX * unitX + unitY * unitY) * (sourceRadius * sourceRadius)) by ring.
        rewrite Hunit. ring.
      * replace (node_x target - unitX * targetRadius - node_x target)
          with (- (unitX * targetRadius)) by ring.
        replace (node_y target - unitY * targetRadius - node_y target)
          with (- (unitY * targetRadius)) by ring.
        replace (- (unitX * targetRadius) * - (unitX * targetRadius) +
                 - (unitY * targetRadius) * - (unitY * targetRadius))
          with ((unitX * unitX + unitY * unitY) * (targetRadius * targetRadius)) by ring.
        rewrite Hunit. ring.
      * replace (node_x source + unitX * sourceRadius - node_x source)
          with (unitX * sourceRadius) by ring.
        replace (node_y source + unitY * sourceRadius - node_y source)
          with (unitY * sourceRadius) by ring.
        replace (unitX * sourceRadius * dy) with (unitX * dy * sourceRadius) by ring.
        rewrite Hcol. ring.
      * replace (node_x target - unitX * targetRadius - node_x target)
          with (- (unitX * targetRadius)) by ring.
        replace (node_y target - unitY * targetRadius - node_y target)
          with (- (unitY * targetRadius)) by ring.
        replace (- (unitX * targetRadius) * dy) with (- (unitX * dy * targetRadius)) by ring.
        rewrite Hcol. ring.
      * replace ((node_x source + unitX * sourceRadius - node_x source) * dx +
                 (node_y source + unitY * sourceRadius - node_y source) * dy)
          with ((unitX * dx + unitY * dy) * sourceRadius) by ring.
        rewrite Hdot. nra.
      * replace ((node_x target - unitX * targetRadius - node_x target) * dx +
                 (node_y target - unitY * targetRadius - node_y target) * dy)
          with (- ((unitX * dx + unitY * dy) * targetRadius)) by ring.
        rewrite Hdot. nra.
Qed.

End Lines.

End Geometry.

(** ** The string helpers *)

Module Text.
Import SingleQA.

Section Hash.
Local Open Scope Z_scope.

Lemma toInt32_range z : - 2 ^ 31 ≤ toInt32 z < 2 ^ 31.
Proof.
  unfold toInt32. pose proof (Z.mod_pos_bound (z + 2 ^ 31) (2 ^ 32)). lia.
Qed.

Lemma toInt32_multiple z : ∃ k, toInt32 z = z + 2 ^ 32 * k.
Proof.
  exists (- ((z + 2 ^ 31) / 2 ^ 32)). unfold toInt32.
  rewrite Z.mod_eq by lia. lia.
Qed.

Lemma toInt32_congruent a b k : a = b + 2 ^ 32 * k → toInt32 a = toInt32 b.
Proof.
  intros ->. unfold toInt32. f_equal.
  replace (b + 2 ^ 32 * k + 2 ^ 31) with (b + 2 ^ 31 + k * 2 ^ 32) by lia.
  apply Z_mod_plus_full.
Qed.

Lemma toInt32_idem z : toInt32 (toInt32 z) = toInt32 z.
Proof.
  destruct (toInt32_multiple z) as [k Hk]. by apply (toInt32_congruent _ _ k).
Qed.

Lemma hash_step hash p char :
  hash = toInt32 p →
  toInt32 (Z.land (toInt32 (toInt32 (Z.shiftl (toInt32 hash) 5) - hash + char))
                  (toInt32 (toInt32 (Z.shiftl (toInt32 hash) 5) - hash + char)))
  = toInt32 (31 * p + char).
Proof.
  intros ->. rewrite Z.land_diag, !toInt32_idem, Z.shiftl_mul_pow2 by lia.
  destruct (toInt32_multiple p) as [k1 H1].
  destruct (toInt32_multiple (toInt32 p * 2 ^ 5)) as [k2 H2].
  apply (toInt32_congruent _ _ (31 * k1 + k2)). rewrite H2, H1. lia.
Qed.

Lemma hash_fold str hash p :
  hash = toInt32 p →
  fold_left
    (λ hash char,
       let hash1 := toInt32 (Z.shiftl (toInt32 hash) 5) - hash + char in
       toInt32 (Z.land (toInt32 hash1) (toInt32 hash1)))
    str hash
  = toInt32 (fold_left (λ acc char, 31 * acc + char) str p).
Proof.
  revert hash p. induction str as [| char str IH]; intros hash p Hp; cbn; [done |].
  apply IH. by apply hash_step.
Qed.

(** X11, string hash: [hashCode] is the polynomial hash of the code
    units in base 31, the last code unit at degree 0, reduced to a 32-bit
    signed integer: the shifts and the masks of the loop lose nothing
    else.  The hash of the empty string is 0. *)
Theorem hashCode_polynomial str :
  hashCode str = toInt32 (polynomial31 str) ∧
  - 2 ^ 31 ≤ hashCode str < 2 ^ 31 ∧
  (hashCode str - polynomial31 str) mod 2 ^ 32 = 0 ∧
  hashCode [] = 0.
Proof.
  assert (hashCode str = toInt32 (polynomial31 str)) as H.
  { unfold hashCode, polynomial31. by apply hash_fold. }
  split; [done |]. split; [| split; [| done]].
  - rewrite H. apply toInt32_range.
  - rewrite H. destruct (toInt32_multiple (polynomial31 str)) as [k ->].
    replace (polynomial31 str + 2 ^ 32 * k - polynomial31 str) with (k * 2 ^ 32) by lia.
    apply Z_mod_mult.
Qed.

End Hash.

Lemma append_nil t : "" +:+ t = t.
Proof. reflexivity. Qed.

Lemma append_cons c s t : String c s +:+ t = String c (s +:+ t).
Proof. reflexivity. Qed.

(** X12, text truncation: [truncateText] returns a text of at most
    [maxLength] code units unchanged and cuts a longer one to its first
    [maxLength] code units followed by three full stops, so that the
    result has [maxLength + 3] code units (three more than asked, and
    more than the text itself when the text is less than three code
    units too long); truncating the result again changes nothing. *)
Theorem truncateText_bounded text maxLength :
  let t := truncateText text maxLength in
  let kept := Z.to_nat maxLength in
  ((Z.of_nat (length text) ≤ maxLength)%Z → t = text) ∧
  ((maxLength < Z.of_nat (length text))%Z →
     take kept t = take kept text ∧ drop kept t = [46; 46; 46]%Z ∧
     length t = (kept + 3)%nat) ∧
  truncateText t maxLength = t.
Proof.
  intros t kept. unfold t, truncateText.
  destruct (Z.of_nat (length text) <=? maxLength)%Z eqn:Hle.
  - apply Z.leb_le in Hle. split; [done |]. split; [lia |].
    apply Z.leb_le in Hle. by rewrite Hle.
  - apply Z.leb_gt in Hle. split; [lia |]. fold kept.
    assert (length (take kept text) = kept) as Hlen.
    { rewrite length_take. unfold kept. lia. }
    split.
    + intros _. split_and!.
      * rewrite take_app_le by lia. by rewrite take_take, Nat.min_id.
      * rewrite drop_app_ge by lia. by rewrite Hlen, Nat.sub_diag.
      * rewrite length_app, Hlen. done.
    + rewrite length_app, Hlen.
      destruct (Z.of_nat (kept + length [46; 46; 46]%Z) <=? maxLength)%Z eqn:Hle'.
      { apply Z.leb_le in Hle'. cbn [length] in Hle'. unfold kept in Hle'. lia. }
      f_equal. rewrite take_app_le by lia. by rewrite take_take, Nat.min_id.
Qed.

(** The four code units of a text of four Chinese characters are kept
    for the bound 4, and cut to two code units and three full stops for
    the bound 2; "abcdef" is cut to "abc..." for the bound 3, and this
    again to itself. *)
Lemma truncateText_bounded_witness :
  let text := [30693; 35782; 22270; 35889]%Z in
  truncateText text 4 = text ∧
  truncateText text 2 = [30693; 35782; 46; 46; 46]%Z ∧
  truncateText [97; 98; 99; 100; 101; 102]%Z 3 = [97; 98; 99; 46; 46; 46]%Z ∧
  truncateText [97; 98; 99; 46; 46; 46]%Z 3 = [97; 98; 99; 46; 46; 46]%Z.
Proof.
  intros text.
  destruct (truncateText_bounded text 4) as (H4 & _).
  destruct (truncateText_bounded text 2) as (_ & H2 & _).
  destruct (truncateText_bounded [97; 98; 99; 100; 101; 102]%Z 3) as (_ & H3 & Hidem).
  split; [apply H4; cbn; lia |].
  assert (∀ (l cut : list Z) k, take k l = cut → drop k l = [46; 46; 46]%Z →
                                l = cut ++ [46; 46; 46]%Z) as Hjoin.
  { intros l cut k <- <-. by rewrite take_drop. }
  destruct H2 as (Ht2 & Hd2 & _); [cbn; lia |].
  destruct H3 as (Ht3 & Hd3 & _); [cbn; lia |].
  assert (truncateText [97; 98; 99; 100; 101; 102]%Z 3 = [97; 98; 99; 46; 46; 46]%Z)
    as Habc by (exact (Hjoin _ _ _ Ht3 Hd3)).
  split; [exact (Hjoin _ _ _ Ht2 Hd2) |]. split; [exact Habc |].
  by rewrite Habc in Hidem.
Defined.

End Text.

(** ** The highlight overlay: which elements are highlighted *)

Module Highlight.
Import SingleQA Overlay.

(** X13, highlighted nodes: after [highlightSampledGraph] a node group is
    in the sampled style exactly when the key of a sampled node (its id,
    or its name when it has no id) is not empty and equals the id or the
    name of the node of the group; every other node group is dimmed.  The
    data bound to the groups and their order are unchanged. *)
Theorem sampled_node_highlighted st sampledNodes sampledLinks dom i d style :
  node_groups dom !! i = Some (d, style) →
  ∃ style',
    node_groups (highlightSampledGraph st sampledNodes sampledLinks dom) !! i
      = Some (d, style') ∧
    ((∃ sn key, sn ∈ sampledNodes ∧ sampledKey sn = Some key ∧ key ≠ "" ∧
                (key = node_id d ∨ key = node_name d)) →
     style' = sampledNodeStyle) ∧
    ((∀ sn key, sn ∈ sampledNodes → sampledKey sn = Some key → key ≠ "" →
                key ≠ node_id d ∧ key ≠ node_name d) →
     style' = dimmedNodeStyle d).
Proof.
  intros Hi. rewrite highlight_from_data. cbn [node_groups].
  change (map ?f ?l) with (f <$> l). rewrite list_lookup_fmap, Hi. cbn.
  eexists. split; [done |]. unfold highlightNodeStyle, isSampledNode. split.
  - intros (sn & key & Hsn & Hkey & Hne & [-> | ->]).
    + rewrite bool_decide_eq_true_2; [done |]. apply sampledNodeIds_elem. by exists sn.
    + rewrite (bool_decide_eq_true_2 (node_name d ∈ _)), orb_true_r; [done |].
      apply sampledNodeIds_elem. by exists sn.
  - intros Hnone.
    rewrite !bool_decide_eq_false_2; [done | |].
    + intros Hin. apply sampledNodeIds_elem in Hin as (sn & Hsn & Hkey & Hne).
      by destruct (Hnone sn _ Hsn Hkey Hne).
    + intros Hin. apply sampledNodeIds_elem in Hin as (sn & Hsn & Hkey & Hne).
      by destruct (Hnone sn _ Hsn Hkey Hne).
Qed.

Lemma sampled_node_highlighted_witness :
  let dom := renderCurrentGraph
               {| nodes := [plainNode "a" "Aspirin" 0 0; plainNode "b" "B" 0 0];
                  links := [] |} in
  let sn := {| sampled_id := None; sampled_name := Some "Aspirin" |} in
  map (λ e, group_sampled (snd e))
      (node_groups (highlightSampledGraph emptyGraph [sn] [] dom)) = [true; false].
Proof.
  set (st := {| nodes := [plainNode "a" "Aspirin" 0 0; plainNode "b" "B" 0 0];
                links := [] |}).
  set (sn := {| sampled_id := None; sampled_name := Some "Aspirin" |}).
  destruct (sampled_node_highlighted emptyGraph [sn] [] (renderCurrentGraph st) 0
              (plainNode "a" "Aspirin" 0 0) (renderedNodeStyle (plainNode "a" "Aspirin" 0 0))
              eq_refl) as (s0 & H0 & Hyes & _).
  destruct (sampled_node_highlighted emptyGraph [sn] [] (renderCurrentGraph st) 1
              (plainNode "b" "B" 0 0) (renderedNodeStyle (plainNode "b" "B" 0 0))
              eq_refl) as (s1 & H1 & _ & Hno).
  cbv zeta. fold st sn.
  assert (node_groups (highlightSampledGraph emptyGraph [sn] [] (renderCurrentGraph st))
          = [(plainNode "a" "Aspirin" 0 0, s0); (plainNode "b" "B" 0 0, s1)]) as ->.
  { apply list_eq. intros [| [| k]]; [exact H0 | exact H1 |]. reflexivity. }
  cbn [map snd]. rewrite Hyes, Hno; [reflexivity | |].
  - intros sn' key Hin Hkey Hne. apply list_elem_of_singleton in Hin as ->.
    injection Hkey as <-. split; discriminate.
  - exists sn, "Aspirin". split; [apply list_elem_of_here |].
    split; [reflexivity |]. split; [discriminate | by right].
Defined.

Lemma sampledLinkIds_fold (ls : list SampledLink) (acc : gset string) key :
  key ∈ fold_left
    (λ set link,
       let sourceId := Js.or (sampled_source_id link) (sampled_source link) in
       let targetId := Js.or (sampled_target_id link) (sampled_target link) in
       if (Js.truthy_opt sourceId && Js.truthy_opt targetId)%bool
       then set ∪ {[ pairKey sourceId targetId ]} ∪ {[ pairKey targetId sourceId ]}
       else set) ls acc →
  key ∈ acc ∨
  ∃ sl, sl ∈ ls ∧
        Js.truthy_opt (Js.or (sampled_source_id sl) (sampled_source sl)) = true ∧
        Js.truthy_opt (Js.or (sampled_target_id sl) (sampled_target sl)) = true ∧
        (key = pairKey (Js.or (sampled_source_id sl) (sampled_source sl))
                       (Js.or (sampled_target_id sl) (sampled_target sl)) ∨
         key = pairKey (Js.or (sampled_target_id sl) (sampled_target sl))
                       (Js.or (sampled_source_id sl) (sampled_source sl))).
Proof.
  revert acc. induction ls as [| sl ls IH]; intros acc; cbn [fold_left]; [by left |].
  intros H. apply IH in H as [H | (sl' & Hin & H)]; clear IH.
  - destruct (Js.truthy_opt (Js.or (sampled_source_id sl) (sampled_source sl))) eqn:Hs;
      [| by left].
    destruct (Js.truthy_opt (Js.or (sampled_target_id sl) (sampled_target sl))) eqn:Ht;
      [| by left].
    cbn [andb] in H. apply elem_of_union in H as [H | H].
    + apply elem_of_union in H as [H | H]; [by left |].
      apply elem_of_singleton in H. right. exists sl.
      split; [apply list_elem_of_here |]. repeat split; try done. by left.
    + apply elem_of_singleton in H. right. exists sl.
      split; [apply list_elem_of_here |]. repeat split; try done. by right.
  - right. exists sl'. split; [by apply list_elem_of_further | done].
Qed.

Lemma connectedLinkIds_fold ids (ls : list Link) (acc : gset string) key :
  key ∈ fold_left
    (λ set link,
       let sourceId := Js.or (link_source_id link) (link_source link) in
       let targetId := Js.or (link_target_id link) (link_target link) in
       if (has ids sourceId || has ids targetId)%bool
       then set ∪ {[ pairKey sourceId targetId ]} ∪ {[ pairKey targetId sourceId ]}
       else set) ls acc →
  key ∈ acc ∨
  ∃ l, l ∈ ls ∧
       (has ids (Js.or (link_source_id l) (link_source l)) ||
        has ids (Js.or (link_target_id l) (link_target l)))%bool = true ∧
       (key = pairKey (Js.or (link_source_id l) (link_source l))
                      (Js.or (link_target_id l) (link_target l)) ∨
        key = pairKey (Js.or (link_target_id l) (link_target l))
                      (Js.or (link_source_id l) (link_source l))).
Proof.
  revert acc. induction ls as [| l ls IH]; intros acc; cbn [fold_left]; [by left |].
  intros H. apply IH in H as [H | (l' & Hin & H)]; clear IH.
  - destruct (has ids (Js.or (link_source_id l) (link_source l)) ||
              has ids (Js.or (link_target_id l) (link_target l)))%bool eqn:Hhas;
      [| by left].
    apply elem_of_union in H as [H | H].
    + apply elem_of_union in H as [H | H]; [by left |].
      apply elem_of_singleton in H. right. exists l.
      split; [apply list_elem_of_here |]. split; [done | by left].
    + apply elem_of_singleton in H. right. exists l.
      split; [apply list_elem_of_here |]. split; [done | by right].
  - right. exists l'. split; [by apply list_elem_of_further | done].
Qed.

(** X14, highlighted lines have a cause: a line that
    [highlightSampledGraph] leaves in the sampled style has, read from
    source to target or from target to source, the key of a sampled link
    that names both its endpoints or of a link of the store one endpoint
    of which is a sampled node, this key too read in one of the two
    orders; every other line is dimmed.  The comparison is one of keys,
    the two ids joined by a dash. *)
Theorem highlighted_line_has_cause st sampledNodes sampledLinks dom i d style :
  link_elems (highlightSampledGraph st sampledNodes sampledLinks dom) !! i
    = Some (d, style) →
  (style = sampledLinkStyle ∨ style = dimmedLinkStyle) ∧
  (line_sampled style = true →
   ∃ a b,
     ((∃ sl, sl ∈ sampledLinks ∧
             Js.or (sampled_source_id sl) (sampled_source sl) = a ∧
             Js.or (sampled_target_id sl) (sampled_target sl) = b ∧
             Js.truthy_opt a = true ∧ Js.truthy_opt b = true) ∨
      (∃ l, l ∈ links st ∧
            Js.or (link_source_id l) (link_source l) = a ∧
            Js.or (link_target_id l) (link_target l) = b ∧
            (has (sampledNodeIds sampledNodes) a = true ∨
             has (sampledNodeIds sampledNodes) b = true))) ∧
     (pairKey (link_source d) (link_target d) = pairKey a b ∨
      pairKey (link_source d) (link_target d) = pairKey b a ∨
      pairKey (link_target d) (link_source d) = pairKey a b ∨
      pairKey (link_target d) (link_source d) = pairKey b a)).
Proof.
  rewrite highlight_from_data. cbn [link_elems].
  change (map ?f ?l) with (f <$> l). rewrite list_lookup_fmap.
  destruct (link_elems dom !! i) as [[d0 s0] |]; [| done]. cbn. intros [= <- <-].
  unfold highlightLinkStyle.
  destruct (isHighlightedLink _ d0) eqn:Hhl; [| split; [by right | done]].
  split; [by left |]. intros _.
  assert (∀ key, key ∈ connectedLinkIds st sampledNodes sampledLinks →
            ∃ a b,
              ((∃ sl, sl ∈ sampledLinks ∧
                      Js.or (sampled_source_id sl) (sampled_source sl) = a ∧
                      Js.or (sampled_target_id sl) (sampled_target sl) = b ∧
                      Js.truthy_opt a = true ∧ Js.truthy_opt b = true) ∨
               (∃ l, l ∈ links st ∧
                     Js.or (link_source_id l) (link_source l) = a ∧
                     Js.or (link_target_id l) (link_target l) = b ∧
                     (has (sampledNodeIds sampledNodes) a = true ∨
                      has (sampledNodeIds sampledNodes) b = true))) ∧
              (key = pairKey a b ∨ key = pairKey b a)) as Hcause.
  { intros key Hkey. unfold connectedLinkIds in Hkey.
    apply connectedLinkIds_fold in Hkey as [Hkey | (l & Hl & Hhas & Hk)].
    - unfold sampledLinkIds in Hkey.
      apply sampledLinkIds_fold in Hkey as [Hkey | (sl & Hsl & Hs & Ht & Hk)].
      + by apply not_elem_of_empty in Hkey.
      + eexists _, _. split; [| exact Hk]. left. by exists sl.
    - eexists _, _. split; [| exact Hk]. right. exists l.
      split; [done |]. split; [done |]. split; [done |].
      by apply orb_true_iff in Hhas. }
  unfold isHighlightedLink in Hhl. apply orb_true_iff in Hhl as [Hhl | Hhl];
    apply bool_decide_eq_true in Hhl; apply Hcause in Hhl as (a & b & Hwhy & Hk);
    exists a, b; (split; [exact Hwhy |]); destruct Hk as [Hk | Hk]; auto.
Qed.

Lemma highlighted_line_has_cause_witness :
  let st := {| nodes := [plainNode "a" "A" 0 0; plainNode "b" "B" 0 0];
               links := [plainLink "a" "b" "causes"] |} in
  let sn := {| sampled_id := Some "b"; sampled_name := None |} in
  let d := boundLink (plainLink "a" "b" "causes") in
  link_elems (highlightSampledGraph st [sn] [] (renderCurrentGraph st)) !! 0%nat
    = Some (d, sampledLinkStyle) ∧
  ∃ a b,
    ((∃ sl, sl ∈ [] ∧
            Js.or (sampled_source_id sl) (sampled_source sl) = a ∧
            Js.or (sampled_target_id sl) (sampled_target sl) = b ∧
            Js.truthy_opt a = true ∧ Js.truthy_opt b = true) ∨
     (∃ l, l ∈ links st ∧
           Js.or (link_source_id l) (link_source l) = a ∧
           Js.or (link_target_id l) (link_target l) = b ∧
           (has (sampledNodeIds [sn]) a = true ∨
            has (sampledNodeIds [sn]) b = true))) ∧
    (pairKey (link_source d) (link_target d) = pairKey a b ∨
     pairKey (link_source d) (link_target d) = pairKey b a ∨
     pairKey (link_target d) (link_source d) = pairKey a b ∨
     pairKey (link_target d) (link_source d) = pairKey b a).
Proof.
  set (st := {| nodes := [plainNode "a" "A" 0 0; plainNode "b" "B" 0 0];
                links := [plainLink "a" "b" "causes"] |}).
  set (sn := {| sampled_id := Some "b"; sampled_name := None |}).
  cbv zeta.
  assert (link_elems (highlightSampledGraph st [sn] [] (renderCurrentGraph st)) !! 0%nat
          = Some (boundLink (plainLink "a" "b" "causes"), sampledLinkStyle)) as Hline.
  { vm_compute. reflexivity. }
  split; [exact Hline |].
  exact (proj2 (highlighted_line_has_cause st [sn] [] (renderCurrentGraph st) 0 _ _ Hline)
               eq_refl).
Defined.

End Highlight.

(** ** The preview: nodes, dictionary and fit *)

Module Preview.
Import RunsQA Links.

Lemma or_lit_truthy a lit : lit ≠ "" → Js.or_lit a lit ≠ "".
Proof.
  intros Hlit. unfold Js.or_lit. destruct a as [s |]; [| done].
  unfold Js.truthy. destruct (String.eqb s "") eqn:Hs; cbn; [done |].
  by apply String.eqb_neq.
Qed.

Lemma insertEntity_elem counts a l x :
  x ∈ insertEntity counts a l ↔ x = a ∨ x ∈ l.
Proof.
  induction l as [| b l IH]; cbn.
  - rewrite list_elem_of_singleton. split; [by left |].
    intros [-> | H]; [done |]. by apply elem_of_nil in H.
  - destruct (_ <=? _)%Z.
    + by rewrite elem_of_cons.
    + rewrite !elem_of_cons, IH. tauto.
Qed.

Lemma insertEntity_Permutation counts a l : insertEntity counts a l ≡ₚ a :: l.
Proof.
  induction l as [| b l IH]; cbn; [done |].
  destruct (_ <=? _)%Z; [done |]. rewrite IH. apply Permutation_swap.
Qed.

Lemma sortedEntities_Permutation counts l : sortedEntities counts l ≡ₚ l.
Proof.
  induction l as [| a l IH]; cbn; [done |].
  by rewrite insertEntity_Permutation, IH.
Qed.

(** Where every count is a number, the insertion keeps the list in
    descending order. *)
Lemma descending_insert counts count a l :
  (∀ e, e ∈ a :: l → connections counts e = Some (count e)) →
  descending count l → descending count (insertEntity counts a l).
Proof.
  induction l as [| b l IH]; cbn.
  - intros _ _. split; [| done]. intros x Hx. by apply elem_of_nil in Hx.
  - intros Hnum [Hb Hl]. unfold compareEntities.
    rewrite (Hnum a) by apply list_elem_of_here.
    rewrite (Hnum b) by apply list_elem_of_further, list_elem_of_here.
    change (default 0%Z (Some ?z)) with z.
    destruct (Z.of_nat (count b) - Z.of_nat (count a) <=? 0)%Z eqn:Hle.
    + apply Z.leb_le in Hle. cbn. split; [| done].
      intros x Hx. apply elem_of_cons in Hx as [-> | Hx]; [lia |].
      specialize (Hb x Hx). lia.
    + apply Z.leb_gt in Hle. cbn. split.
      * intros x Hx. apply insertEntity_elem in Hx as [-> | Hx]; [lia | by apply Hb].
      * apply IH; [| done]. intros e He. apply Hnum.
        apply elem_of_cons in He as [-> | He]; [apply list_elem_of_here |].
        by do 2 apply list_elem_of_further.
Qed.

Lemma descending_sortedEntities counts count l :
  (∀ e, e ∈ l → connections counts e = Some (count e)) →
  descending count (sortedEntities counts l).
Proof.
  induction l as [| a l IH]; [done |]. intros Hnum.
  change (sortedEntities counts (a :: l))
    with (insertEntity counts a (sortedEntities counts l)).
  apply descending_insert.
  - intros e He. apply Hnum. apply elem_of_cons in He as [-> | He].
    + apply list_elem_of_here.
    + apply list_elem_of_further. by rewrite sortedEntities_Permutation in He.
  - apply IH. intros e He. apply Hnum. by apply list_elem_of_further.
Qed.

Lemma descending_app count l1 l2 a b :
  descending count (l1 ++ l2) → a ∈ l1 → b ∈ l2 → (count b ≤ count a)%nat.
Proof.
  induction l1 as [| x l1 IH]; cbn.
  - intros _ Ha. by apply elem_of_nil in Ha.
  - intros [Hx Hl] Ha Hb. apply elem_of_cons in Ha as [-> | Ha]; [| by apply IH].
    apply Hx. apply elem_of_app. by right.
Qed.

Lemma descending_take count k l : descending count l → descending count (take k l).
Proof.
  revert k. induction l as [| a l IH]; intros [| k]; cbn; try done.
  intros [Ha Hl]. split; [| by apply IH].
  intros b Hb. apply Ha. apply elem_of_take in Hb as (i & Hi & _).
  by eapply list_elem_of_lookup_2.
Qed.

Lemma countKey_lookup key counts k n :
  k ∉ objectPrototype → counts !! k = asProperty n →
  countKey key counts !! k
  = asProperty (n + (if bool_decide (key = Some k ∧ k ≠ "") then 1 else 0)).
Proof.
  intros Hk Hn. unfold countKey.
  assert (k ≠ "__proto__") as Hproto.
  { intros ->. apply Hk, proto_in_prototype. }
  destruct (Js.truthy_opt key) eqn:Ht.
  - destruct (decide (Js.show key = k)) as [Heq | Hne].
    + rewrite bool_decide_eq_true_2 by (by apply truthy_opt_key).
      rewrite Heq, lookup_setProperty_eq by done.
      rewrite Links.getProperty_own, Hn by done.
      unfold asProperty. destruct (decide (n = 0%nat)) as [-> | Hpos]; cbn.
      * done.
      * destruct (decide (n + 1 = 0)%nat); [lia | done].
    + rewrite bool_decide_eq_false_2.
      * rewrite lookup_setProperty_ne, Nat.add_0_r by done. done.
      * intros H. apply truthy_opt_key in H as [_ H]. done.
  - rewrite bool_decide_eq_false_2; [by rewrite Nat.add_0_r |].
    intros H. apply truthy_opt_key in H as [H _]. congruence.
Qed.

Lemma entityConnectionCount_fold relationships counts k n :
  k ∉ objectPrototype → counts !! k = asProperty n →
  fold_left
    (λ counts rel, countKey (targetKey rel) (countKey (sourceKey rel) counts))
    relationships counts !! k
  = asProperty (n + endpointCount k relationships).
Proof.
  intros Hk. revert counts n. induction relationships as [| rel rels IH]; intros counts n Hn.
  - cbn. unfold endpointCount. cbn. by rewrite Nat.add_0_r.
  - cbn [fold_left].
    rewrite (IH _ (n + (if bool_decide (sourceKey rel = Some k ∧ k ≠ "") then 1 else 0)
                     + (if bool_decide (targetKey rel = Some k ∧ k ≠ "") then 1 else 0))%nat).
    + f_equal. unfold endpointCount. cbn [List.filter].
      destruct (bool_decide (sourceKey rel = Some k ∧ k ≠ ""));
        destruct (bool_decide (targetKey rel = Some k ∧ k ≠ "")); cbn [length]; lia.
    + apply countKey_lookup; [done |]. by apply countKey_lookup.
Qed.

(** The number of connections of an entity whose name the prototype does
    not define is the number of endpoints of relationships that are its
    name. *)
Lemma connections_endpointCount relationships a :
  Js.show (entity_name a) ∉ objectPrototype →
  connections (entityConnectionCount relationships) a
  = Some (endpointCount (Js.show (entity_name a)) relationships).
Proof.
  intros Hk. unfold connections, entityConnectionCount.
  rewrite Links.getProperty_own by done.
  rewrite (entityConnectionCount_fold relationships ∅ _ 0) by done.
  cbn. unfold asProperty. by destruct (decide _) as [-> |].
Qed.

Lemma previewNode_named i e :
  node_id (previewNode i e) ≠ "" ∧ node_name (previewNode i e) ≠ "" ∧
  node_type (previewNode i e) ≠ "".
Proof.
  cbn [previewNode node_id node_name node_type].
  split; [apply or_lit_truthy; discriminate |].
  split; [apply or_lit_truthy; discriminate | by apply or_lit_truthy].
Qed.

Lemma length_entitiesToShow entities relationships :
  length (entitiesToShow entities relationships) = Nat.min (length entities) 200.
Proof.
  unfold entitiesToShow.
  destruct (200 <? length entities)%nat eqn:Hlt.
  - apply Nat.ltb_lt in Hlt.
    rewrite length_take, (Permutation_length (sortedEntities_Permutation _ entities)).
    lia.
  - apply Nat.ltb_ge in Hlt. lia.
Qed.

(** X15, entities shown: let no entity have a name that [Object.prototype]
    defines, and let an entity count the endpoints of relationships that
    are its name.  With more than 200 entities the preview shows 200 of
    them, in descending order of their counts, and no entity left out
    counts more than an entity shown.  With 200 entities or fewer all
    are shown, in their order. *)
Theorem most_connected_shown entities relationships :
  (∀ e, e ∈ entities → Js.show (entity_name e) ∉ objectPrototype) →
  let shown := entitiesToShow entities relationships in
  let count := λ e, endpointCount (Js.show (entity_name e)) relationships in
  ((length entities ≤ 200)%nat → shown = entities) ∧
  ((200 < length entities)%nat →
     length shown = 200%nat ∧ descending count shown ∧
     ∃ hidden, entities ≡ₚ shown ++ hidden ∧
               ∀ a b, a ∈ shown → b ∈ hidden → (count b ≤ count a)%nat).
Proof.
  intros Hnames shown count. split.
  - intros Hle. unfold shown, entitiesToShow.
    by rewrite (proj2 (Nat.ltb_ge 200 (length entities)) Hle).
  - intros Hlt. unfold shown, entitiesToShow.
    rewrite (proj2 (Nat.ltb_lt 200 (length entities)) Hlt).
    set (counts := entityConnectionCount relationships).
    pose proof (sortedEntities_Permutation counts entities) as Hperm.
    assert (descending count (sortedEntities counts entities)) as Hdesc.
    { apply descending_sortedEntities. intros e He.
      apply connections_endpointCount. by apply Hnames. }
    split_and!.
    + pose proof (length_entitiesToShow entities relationships) as Hlen.
      unfold entitiesToShow in Hlen.
      rewrite (proj2 (Nat.ltb_lt 200 (length entities)) Hlt) in Hlen.
      fold counts in Hlen. rewrite Hlen. lia.
    + by apply descending_take.
    + exists (drop 200 (sortedEntities counts entities)). split.
      * by rewrite take_drop.
      * intros a b Ha Hb. eapply descending_app; [| exact Ha | exact Hb].
        by rewrite take_drop.
Qed.

(** 201 entities named "x", then "b" and "c"; one relationship from "b" to
    "y" and two from "c" to "y".  The preview shows "c", "b" and 198 of
    the entities "x". *)
Lemma most_connected_shown_witness :
  let entities := replicate 201 (namedEntity "x") ++ [namedEntity "b"; namedEntity "c"] in
  let relationships := [plainRelationship "b" "y"; plainRelationship "c" "y";
                        plainRelationship "c" "y"] in
  let shown := entitiesToShow entities relationships in
  let count := λ e, endpointCount (Js.show (entity_name e)) relationships in
  shown = namedEntity "c" :: namedEntity "b" :: replicate 198 (namedEntity "x") ∧
  map count [namedEntity "c"; namedEntity "b"; namedEntity "x"] = [2; 1; 0]%nat ∧
  length shown = 200%nat ∧ descending count shown ∧
  ∃ hidden, entities ≡ₚ shown ++ hidden ∧
            ∀ a b, a ∈ shown → b ∈ hidden → (count b ≤ count a)%nat.
Proof.
  intros entities relationships shown count.
  split; [by vm_compute |]. split; [by vm_compute |].
  apply (most_connected_shown entities relationships).
  - intros e He. apply (bool_decide_unpack _).
    apply elem_of_app in He as [He | He].
    + apply elem_of_replicate in He as [-> _]. by vm_compute.
    + apply list_elem_of_In in He. destruct He as [<- | [<- | []]]; by vm_compute.
  - unfold entities. rewrite length_app, length_replicate. cbn. lia.
Defined.

(** X16, nodes of the preview: every node built from an entity has an id,
    a name and a type that are not empty, whatever the entity lacks; the
    id is the name of the entity when it has one; there are as many nodes
    as entities, and at most 200. *)
Theorem preview_nodes_named entities relationships :
  let nodes := previewNodes entities relationships in
  length nodes = Nat.min (length entities) 200 ∧
  ∀ n, n ∈ nodes →
       node_id n ≠ "" ∧ node_name n ≠ "" ∧ node_type n ≠ "" ∧
       ∃ e, e ∈ entities ∧ node_originalId n = entity_id e ∧
            (∀ name, entity_name e = Some name → name ≠ "" →
                     node_id n = name ∧ node_name n = name).
Proof.
  intros nodes. unfold nodes, previewNodes. split.
  - rewrite length_imap. apply length_entitiesToShow.
  - intros n Hn. apply list_elem_of_lookup in Hn as [i Hi].
    rewrite list_lookup_imap in Hi.
    destruct (entitiesToShow entities relationships !! i) as [e |] eqn:He; [| done].
    cbn in Hi. injection Hi as <-.
    destruct (previewNode_named i e) as (Hid' & Hname' & Htype').
    split; [done |]. split; [done |]. split; [done |]. clear Hid' Hname' Htype'.
    cbn [previewNode node_id node_name node_type node_originalId].
    exists e. split; [| split; [done |]].
    + apply list_elem_of_lookup_2 in He. unfold entitiesToShow in He.
      destruct (200 <? length entities)%nat; [| done].
      apply elem_of_take in He as (j & Hj & _).
      apply list_elem_of_lookup_2 in Hj.
      by rewrite sortedEntities_Permutation in Hj.
    + intros name Hname Hne. rewrite Hname. cbn. unfold Js.truthy.
      rewrite (proj2 (String.eqb_neq name "") Hne). cbn. unfold Js.truthy.
      by rewrite (proj2 (String.eqb_neq name "") Hne).
Qed.

Lemma chainLinks_elem nodes l :
  l ∈ chainLinks nodes → ∃ a b, a ∈ nodes ∧ b ∈ nodes ∧ l = chainLink a b.
Proof.
  unfold chainLinks. intros Hl. apply list_elem_of_In, in_flat_map in Hl as (i & _ & Hl).
  destruct (nodes !! i) as [a |] eqn:Ha; [| done].
  destruct (nodes !! (i + 1)%nat) as [b |] eqn:Hb; [| done].
  destruct Hl as [<- | []]. exists a, b.
  split; [by eapply list_elem_of_lookup_2 |]. split; [by eapply list_elem_of_lookup_2 | done].
Qed.

(** X17, links of the preview: when no endpoint of a relationship is a
    name that [Object.prototype] defines, every link [drawGraph] hands to
    the force simulation, resolved from a relationship or made by the
    chain fallback, joins the ids of two nodes it hands over with it, and
    neither id is empty: the simulation finds the node of every
    endpoint. *)
Theorem preview_links_resolve functionText hasCountEl entities relationships l :
  (∀ rel, rel ∈ relationships →
          (Js.show (sourceKey rel) ∉ objectPrototype) ∧
          (Js.show (targetKey rel) ∉ objectPrototype)) →
  let graph := drawGraph functionText hasCountEl entities relationships in
  l ∈ preview_links (snd graph) →
  (∃ n, n ∈ fst graph ∧ link_source l = Own (node_id n) ∧ node_id n ≠ "") ∧
  (∃ n, n ∈ fst graph ∧ link_target l = Own (node_id n) ∧ node_id n ≠ "") ∧
  link_source_id l = link_source l ∧ link_target_id l = link_target l.
Proof.
  intros Hkeys graph. unfold graph, drawGraph. cbn [fst snd].
  set (nodes := previewNodes entities relationships).
  assert (∀ n, n ∈ nodes → node_id n ≠ "") as Hids.
  { intros n Hn. apply list_elem_of_lookup in Hn as [i Hi].
    unfold nodes, previewNodes in Hi. rewrite list_lookup_imap in Hi.
    destruct (entitiesToShow entities relationships !! i) as [e |]; [| done].
    cbn in Hi. injection Hi as <-. apply previewNode_named. }
  intros Hl.
  assert (l ∈ resolveLinks functionText nodes relationships ∨ l ∈ chainLinks nodes)
    as [Hwhere | Hwhere].
  { unfold previewLinks in Hl. destruct (_ && _)%bool; cbn [preview_links] in Hl.
    - by apply elem_of_app in Hl.
    - by left. }
  - destruct (Links.resolveLinks_valid functionText nodes relationships l Hwhere)
      as (_ & Hsid & Htid & rel & Hrel & _ & Hs & Ht).
    destruct (Hkeys rel Hrel) as [Hks Hkt].
    split; [by apply Hs |]. split; [by apply Ht | done].
  - apply chainLinks_elem in Hwhere as (a & b & Ha & Hb & ->). cbn.
    split; [exists a; split_and!; [done | done | by apply Hids] |].
    split; [exists b; split_and!; [done | done | by apply Hids] | done].
Qed.

(** The entities "Aspirin", "Fever" and one without a name and with the
    id "e7", and the relationships from "Aspirin" to "Fever" and from
    "e7" to "Aspirin". *)
Lemma preview_links_resolve_witness :
  let entities := [namedEntity "Aspirin"; namedEntity "Fever";
                   {| entity_id := Some "e7"; entity_name := None;
                      entity_type := None; entity_description := None |}] in
  let relationships := [plainRelationship "Aspirin" "Fever";
                        plainRelationship "e7" "Aspirin"] in
  let graph := drawGraph nativeText true entities relationships in
  map node_id (fst graph) = ["Aspirin"; "Fever"; "e7"] ∧
  map (λ l, (link_source l, link_target l)) (preview_links (snd graph))
    = [(Own "Aspirin", Own "Fever"); (Own "e7", Own "Aspirin")] ∧
  ∀ l, l ∈ preview_links (snd graph) →
       (∃ n, n ∈ fst graph ∧ link_source l = Own (node_id n) ∧ node_id n ≠ "") ∧
       (∃ n, n ∈ fst graph ∧ link_target l = Own (node_id n) ∧ node_id n ≠ "") ∧
       link_source_id l = link_source l ∧ link_target_id l = link_target l.
Proof.
  intros entities relationships graph.
  split; [by vm_compute |]. split; [by vm_compute |].
  intros l. apply (preview_links_resolve nativeText true entities relationships l).
  intros rel Hrel. apply list_elem_of_In in Hrel.
  destruct Hrel as [<- | [<- | []]];
    split; apply (bool_decide_unpack _); by vm_compute.
Defined.

Section FitView.
Local Open Scope R_scope.

Lemma fold_Rmin_le xs x0 :
  fold_left Rmin xs x0 <= x0 ∧ ∀ x, x ∈ xs → fold_left Rmin xs x0 <= x.
Proof.
  revert x0. induction xs as [| y xs IH]; intros x0; cbn.
  - split; [lra |]. intros x Hx. by apply elem_of_nil in Hx.
  - destruct (IH (Rmin x0 y)) as [H0 Hrest].
    pose proof (Rmin_l x0 y). pose proof (Rmin_r x0 y). split; [lra |].
    intros x Hx. apply elem_of_cons in Hx as [-> | Hx]; [lra | by apply Hrest].
Qed.

Lemma fold_Rmax_ge xs x0 :
  x0 <= fold_left Rmax xs x0 ∧ ∀ x, x ∈ xs → x <= fold_left Rmax xs x0.
Proof.
  revert x0. induction xs as [| y xs IH]; intros x0; cbn.
  - split; [lra |]. intros x Hx. by apply elem_of_nil in Hx.
  - destruct (IH (Rmax x0 y)) as [H0 Hrest].
    pose proof (Rmax_l x0 y). pose proof (Rmax_r x0 y). split; [lra |].
    intros x Hx. apply elem_of_cons in Hx as [-> | Hx]; [lra | by apply Hrest].
Qed.

Lemma fit_axis size lo hi k x :
  0 < size → lo <= x <= hi →
  0 < k → k * (hi - lo + 50 * 2) <= 8 / 10 * size →
  size / 10 + 50 * k <= size / 2 - k * ((lo + hi) / 2) + k * x
    <= size - size / 10 - 50 * k.
Proof. intros Hsize [Hlo Hhi] Hk Hfit. split; nra. Qed.

(** X18, fit of the preview: for a container of positive width and
    height [fitGraphToView] chooses a scale between 0 and 1 and a
    translation that put every node centre in the middle 80 per cent of
    the container, at least 50 scaled pixels inside it on each side. *)
Theorem fit_graph_in_view width height n0 rest :
  0 < width → 0 < height →
  ∃ t, fitGraphToView width height (n0 :: rest) = Some t ∧
       0 < SingleQA.transform_k t <= 1 ∧
       ∀ p, p ∈ n0 :: rest →
            width / 10 + 50 * SingleQA.transform_k t
              <= fst (onScreen t p)
              <= width - width / 10 - 50 * SingleQA.transform_k t ∧
            height / 10 + 50 * SingleQA.transform_k t
              <= snd (onScreen t p)
              <= height - height / 10 - 50 * SingleQA.transform_k t.
Proof.
  intros Hw Hh. unfold fitGraphToView. eexists. split; [reflexivity |].
  cbn [SingleQA.transform_k SingleQA.transform_x SingleQA.transform_y onScreen fst snd].
  set (minX := fold_left Rmin (map fst rest) (fst n0)).
  set (maxX := fold_left Rmax (map fst rest) (fst n0)).
  set (minY := fold_left Rmin (map snd rest) (snd n0)).
  set (maxY := fold_left Rmax (map snd rest) (snd n0)).
  assert (∀ p, p ∈ n0 :: rest →
               (minX <= fst p <= maxX) ∧ (minY <= snd p <= maxY)) as Hbox.
  { intros p Hp.
    destruct (fold_Rmin_le (map fst rest) (fst n0)) as [Hx0 Hx].
    destruct (fold_Rmax_ge (map fst rest) (fst n0)) as [Hx0' Hx'].
    destruct (fold_Rmin_le (map snd rest) (snd n0)) as [Hy0 Hy].
    destruct (fold_Rmax_ge (map snd rest) (snd n0)) as [Hy0' Hy'].
    apply elem_of_cons in Hp as [-> | Hp]; [done |].
    assert (fst p ∈ map fst rest) as Hfst by (by apply list_elem_of_fmap_2).
    assert (snd p ∈ map snd rest) as Hsnd by (by apply list_elem_of_fmap_2).
    repeat split; [by apply Hx | by apply Hx' | by apply Hy | by apply Hy']. }
  destruct (Hbox n0 (list_elem_of_here _ _)) as [Hx0 Hy0].
  set (graphWidth := maxX - minX + 50 * 2).
  set (graphHeight := maxY - minY + 50 * 2).
  assert (0 < graphWidth ∧ 0 < graphHeight) as [Hgw Hgh].
  { unfold graphWidth, graphHeight. lra. }
  set (scale := Rmin (Rmin (8 / 10 * width / graphWidth)
                           (8 / 10 * height / graphHeight)) 1).
  assert (0 < scale ∧ scale <= 1 ∧
          scale * graphWidth <= 8 / 10 * width ∧
          scale * graphHeight <= 8 / 10 * height) as (Hpos & Hone & Hfw & Hfh).
  { assert (0 < 8 / 10 * width / graphWidth) as H1.
    { apply Rdiv_lt_0_compat; lra. }
    assert (0 < 8 / 10 * height / graphHeight) as H2.
    { apply Rdiv_lt_0_compat; lra. }
    assert (scale <= 8 / 10 * width / graphWidth) as H3.
    { unfold scale. etrans; [apply Rmin_l | apply Rmin_l]. }
    assert (scale <= 8 / 10 * height / graphHeight) as H4.
    { unfold scale. etrans; [apply Rmin_l | apply Rmin_r]. }
    repeat split.
    - unfold scale. repeat apply Rmin_glb_lt; lra.
    - apply Rmin_r.
    - apply (Rmult_le_compat_r graphWidth) in H3; [| lra].
      replace (8 / 10 * width / graphWidth * graphWidth) with (8 / 10 * width) in H3
        by (field; lra). done.
    - apply (Rmult_le_compat_r graphHeight) in H4; [| lra].
      replace (8 / 10 * height / graphHeight * graphHeight) with (8 / 10 * height) in H4
        by (field; lra). done. }
  split; [done |].
  intros p Hp. destruct (Hbox p Hp) as [Hx Hy]. split.
  - by apply fit_axis.
  - by apply fit_axis.
Qed.

Lemma fit_graph_in_view_witness :
  ∃ t, fitGraphToView 600 400 [(0, 0); (1000, 500)] = Some t ∧
       0 < SingleQA.transform_k t <= 1 ∧
       ∀ p, p ∈ [(0, 0); (1000, 500)] →
            600 / 10 + 50 * SingleQA.transform_k t
              <= fst (onScreen t p)
              <= 600 - 600 / 10 - 50 * SingleQA.transform_k t ∧
            400 / 10 + 50 * SingleQA.transform_k t
              <= snd (onScreen t p)
              <= 400 - 400 / 10 - 50 * SingleQA.transform_k t.
Proof. apply (fit_graph_in_view 600 400 (0, 0) [(1000, 500)]); lra. Defined.

End FitView.

(** A relationship from "constructor", which no entity is named: the
    dictionary answers with the function of the prototype, the link is
    pushed with this function as its source, and the chain fallback does
    not run. *)
Lemma inherited_endpoint_pushed :
  let graph := drawGraph nativeText true [namedEntity "Aspirin"; namedEntity "Fever"]
                         [plainRelationship "constructor" "Fever"] in
  map (λ l, (link_source l, link_target l, link_id l)) (preview_links (snd graph))
    = [(Member "constructor", Own "Fever",
        "function Object() { [native code] }-Fever-related")] ∧
  preview_count (snd graph) = Some "1".
Proof. by vm_compute. Qed.

(** X19, exact keys first.  The ids of the nodes are not empty, as the
    preview builds them.  An endpoint key other than [__proto__] that is
    the id, the name or the original id of a node is resolved by the
    dictionary, to the id of the last node of the list that carries the
    key, whatever the names that contain the key or are contained in it.
    The search by containment runs for a key that no node carries and
    that [Object.prototype] does not define, and returns the first node
    that matches.  A key that [Object.prototype] defines and that no node
    carries, and the key [__proto__] in any case, is answered by the
    dictionary with the member of the prototype: the search does not run
    and the endpoint is no id of a node. *)
Theorem exact_key_first nodes key :
  (∀ n, n ∈ nodes → node_id n ≠ "") →
  (key ≠ "__proto__" →
   ∀ n, last (filter (carries key) nodes) = Some n →
        resolveEndpoint nodes key = Some (Own (node_id n))) ∧
  (key ∉ objectPrototype → filter (carries key) nodes = [] →
   resolveEndpoint nodes key
     = (λ e, Own (node_id (snd e))) <$> list_find (fuzzyMatch key) nodes) ∧
  (key ∈ objectPrototype →
   key = "__proto__" ∨ filter (carries key) nodes = [] →
   resolveEndpoint nodes key = Some (Member key)).
Proof.
  intros Hids. split_and!;
    [intros Hproto n Hn; by apply resolveEndpoint_exact | |];
    unfold resolveEndpoint, getProperty.
  - intros Hkey Hnone.
    assert (key ≠ "__proto__") as Hproto.
    { intros ->. apply Hkey, proto_in_prototype. }
    rewrite nameToId_last, Hnone by done. cbn.
    by rewrite bool_decide_eq_false_2.
  - intros Hkey Hnone.
    assert (nameToId nodes !! key = None) as ->.
    { destruct (decide (key = "__proto__")) as [-> | Hproto]; [apply nameToId_proto |].
      destruct Hnone as [| Hnone]; [done |]. by rewrite nameToId_last, Hnone. }
    by rewrite bool_decide_eq_true_2.
Qed.

(** The preview of the entity "Aspirin", of id "x1", and of the entity
    "Aspirin (drug)".  The key "Aspirin" and the key "x1" are answered by
    the dictionary, the key "drug" by the search, and the key
    "constructor" by the prototype. *)
Lemma exact_key_first_witness :
  let nodes := previewNodes [listedEntity "x1" "Aspirin"; namedEntity "Aspirin (drug)"] [] in
  map node_id nodes = ["Aspirin"; "Aspirin (drug)"] ∧
  resolveEndpoint nodes "Aspirin" = Some (Own "Aspirin") ∧
  resolveEndpoint nodes "x1" = Some (Own "Aspirin") ∧
  resolveEndpoint nodes "drug" = Some (Own "Aspirin (drug)") ∧
  resolveEndpoint nodes "constructor" = Some (Member "constructor").
Proof.
  intros nodes.
  assert (∀ n, n ∈ nodes → node_id n ≠ "") as Hids.
  { intros n Hn. unfold nodes in Hn. vm_compute in Hn.
    apply list_elem_of_In in Hn. destruct Hn as [<- | [<- | []]]; discriminate. }
  split; [by vm_compute |]. split_and!.
  - apply (proj1 (exact_key_first nodes "Aspirin" Hids) ltac:(discriminate)
             (previewNode 0 (listedEntity "x1" "Aspirin"))).
    by vm_compute.
  - apply (proj1 (exact_key_first nodes "x1" Hids) ltac:(discriminate)
             (previewNode 0 (listedEntity "x1" "Aspirin"))).
    by vm_compute.
  - rewrite (proj1 (proj2 (exact_key_first nodes "drug" Hids))).
    + by vm_compute.
    + apply (bool_decide_unpack _). by vm_compute.
    + by vm_compute.
  - apply (proj2 (proj2 (exact_key_first nodes "constructor" Hids))).
    + apply (bool_decide_unpack _). by vm_compute.
    + right. by vm_compute.
Defined.

End Preview.

(** ** The links of the store and the lines drawn *)

Module Render.
Import SingleQA MergeFrame Identity.

Lemma links_applyIncremental pg rnd st data l :
  l ∈ links st → l ∈ links (applyIncremental pg rnd st data).
Proof.
  intros Hl. destruct (Links.applyIncremental_links pg rnd st data) as (added & -> & _).
  apply elem_of_app. by left.
Qed.

Lemma nodeIds_grow pg rnd st data a :
  a ∈ nodeIds st ++ batchIds data → a ∈ nodeIds (applyIncremental pg rnd st data).
Proof.
  rewrite nodeIds_applyIncremental, !elem_of_app. intros [Ha | Ha]; [by left |].
  destruct (decide (a ∈ nodeIds st)) as [Hin | Hout]; [by left | right].
  apply list_elem_of_In, filter_In. split; [by apply list_elem_of_In |].
  apply bool_decide_eq_true. by rewrite elem_of_list_to_set.
Qed.

(** X20, links that arrive before their nodes: a link of the store with
    an endpoint that is the id of no stored node is not drawn; it stays
    in the store through an incremental update, and the render that ends
    the update draws it as soon as both its endpoints are ids of nodes of
    the store or of records of the payload. *)
Theorem late_nodes_draw_link pg rnd st data l a b :
  l ∈ links st →
  Js.or (link_source_id l) (link_source l) = Some a →
  Js.or (link_target_id l) (link_target l) = Some b →
  ((a ∉ nodeIds st ∨ b ∉ nodeIds st) →
   ∀ style, (boundLink l, style) ∉ link_elems (renderCurrentGraph st)) ∧
  (a ∈ nodeIds st ++ batchIds data → b ∈ nodeIds st ++ batchIds data →
   (boundLink l, renderedLinkStyle)
     ∈ link_elems (renderCurrentGraph (applyIncremental pg rnd st data))).
Proof.
  intros Hl Ha Hb. split.
  - intros Hmissing style Hdrawn.
    apply Links.renderCurrentGraph_valid in Hdrawn
      as (n1 & n2 & Hn1 & Hn2 & Hsrc & Htgt).
    cbn [boundLink link_source link_target] in Hsrc, Htgt.
    rewrite Ha in Hsrc. rewrite Hb in Htgt.
    injection Hsrc as ->. injection Htgt as ->.
    destruct Hmissing as [H | H]; apply H; by apply list_elem_of_fmap_2.
  - intros Ha' Hb'. unfold renderCurrentGraph. cbn [link_elems].
    apply (list_elem_of_fmap_2 (λ l0, (boundLink l0, renderedLinkStyle))).
    apply list_elem_of_In, filter_In. split.
    + apply list_elem_of_In. by apply links_applyIncremental.
    + unfold validLink. rewrite Ha, Hb.
      rewrite !Links.hasNode_true; [done | |]; by apply nodeIds_grow.
Qed.

Lemma late_nodes_draw_link_witness :
  let st := {| nodes := [plainNode "a" "A" 0 0]; links := [plainLink "a" "b" "causes"] |} in
  let data := nodeBatch [bareRecord "b" "B"] in
  link_elems (renderCurrentGraph st) = [] ∧
  (boundLink (plainLink "a" "b" "causes"), renderedLinkStyle)
    ∈ link_elems (renderCurrentGraph (applyIncremental plainPage zeroRandom st data)).
Proof.
  split; [vm_compute; reflexivity |].
  apply (late_nodes_draw_link plainPage zeroRandom
           {| nodes := [plainNode "a" "A" 0 0]; links := [plainLink "a" "b" "causes"] |}
           (nodeBatch [bareRecord "b" "B"]) (plainLink "a" "b" "causes") "a" "b").
  - apply list_elem_of_here.
  - reflexivity.
  - reflexivity.
  - cbn. apply list_elem_of_here.
  - cbn. apply list_elem_of_further, list_elem_of_here.
Defined.

Lemma linkIds_applyIncremental pg rnd st data :
  linkIds (applyIncremental pg rnd st data) =
  linkIds st ++
  List.filter (λ id, bool_decide (id ∉ (list_to_set (linkIds st) : gset string)))
              (batchLinkIds data).
Proof.
  unfold applyIncremental, updateGraph, linkIds. rewrite links_ensure. cbn [links].
  assert (∀ st0, links st0 = links st →
            map link_id (match data_links data with
                         | Some ls => updateLinks true (links st0) ls
                         | None => links st0
                         end)
            = map link_id (links st) ++
              List.filter (λ id, bool_decide (id ∉ (list_to_set (map link_id (links st))
                                                     : gset string)))
                          (batchLinkIds data)) as Hany.
  { intros st0 ->. unfold batchLinkIds.
    destruct (data_links data) as [ls |]; [| by rewrite app_nil_r].
    unfold updateLinks. rewrite map_app. f_equal.
    rewrite <- (map_map processLink link_id).
    induction (map processLink ls) as [| l L IH]; [done |].
    cbn. destruct (bool_decide (link_id l ∉ _)); cbn; by rewrite IH. }
  apply Hany. destruct (data_expansion_info data); [| done].
  destruct (expansion_container pg); [apply links_ensure | done].
Qed.

(** X21, link identity for well-formed payloads: along any sequence of
    [graph_update] events in each of which the link records have pairwise
    distinct ids (source, target and relation), a store whose link ids
    are pairwise distinct keeps them pairwise distinct, and no link is
    ever removed or reordered. *)
Theorem link_ids_unique pg events st :
  NoDup (linkIds st) →
  Forall (λ e, NoDup (batchLinkIds (snd e))) events →
  NoDup (linkIds (applyAll pg st events)) ∧
  ∃ added, links (applyAll pg st events) = links st ++ added.
Proof.
  intros Hst Hev. revert st Hst.
  induction Hev as [| e events He _ IH]; intros st Hst.
  { split; [done |]. exists []. by rewrite app_nil_r. }
  change (applyAll pg st (e :: events))
    with (applyAll pg (applyIncremental pg (fst e) st (snd e)) events).
  destruct (IH (applyIncremental pg (fst e) st (snd e))) as (Hnd & added & Hadded).
  - rewrite linkIds_applyIncremental. apply NoDup_app. split; [done |]. split.
    + intros id Hin Hin'. apply list_elem_of_In, filter_In in Hin' as [_ Hnot].
      apply bool_decide_eq_true in Hnot. apply Hnot. by apply elem_of_list_to_set.
    + by apply NoDup_filter_list.
  - split; [done |].
    destruct (Links.applyIncremental_links pg (fst e) st (snd e)) as (first & Hfirst & _).
    exists (first ++ added). by rewrite Hadded, Hfirst, <- app_assoc.
Qed.

Lemma link_ids_unique_witness :
  let batch ls := {| data_expansion_info := None; data_nodes := None;
                     data_links := Some ls |} in
  let record s t := {| lrec_source_id := None; lrec_source := Some s;
                       lrec_target_id := None; lrec_target := Some t;
                       lrec_relation := Some "causes"; lrec_relationship := None |} in
  let events := [(zeroRandom, batch [record "a" "b"; record "b" "c"]);
                 (zeroRandom, batch [record "b" "c"; record "c" "d"])] in
  NoDup (linkIds (applyAll plainPage emptyGraph events)) ∧
  ∃ added, links (applyAll plainPage emptyGraph events) = links emptyGraph ++ added.
Proof.
  cbv zeta. apply link_ids_unique.
  - constructor.
  - repeat constructor; apply (bool_decide_unpack _); vm_compute; exact I.
Defined.

End Render.

(** ** The pagination of the data page *)

Module Pagination.
Import FinalData.

Lemma ceil_div (a b : Z) :
  (0 < b)%Z → Js.ceil (IZR a / IZR b) = ((a + b - 1) / b)%Z.
Proof.
  intros Hb. unfold Js.ceil. apply Zceil_eq.
  set (n := ((a + b - 1) / b)%Z).
  assert (b * (n - 1) < a ∧ a ≤ b * n)%Z as [Hlo Hhi].
  { unfold n. pose proof (Z.div_mod (a + b - 1) b ltac:(lia)) as Hdm.
    pose proof (Z.mod_pos_bound (a + b - 1) b Hb). lia. }
  assert (0 < IZR b)%R as Hb' by (by apply IZR_lt).
  apply IZR_lt in Hlo. apply IZR_le in Hhi.
  rewrite mult_IZR in Hlo, Hhi. rewrite minus_IZR in Hlo.
  split.
  - apply Rmult_lt_reg_r with (IZR b); [done |].
    unfold Rdiv. rewrite Rmult_assoc, Rinv_l by lra. nra.
  - apply Rmult_le_reg_r with (IZR b); [done |].
    unfold Rdiv. rewrite Rmult_assoc, Rinv_l by lra. nra.
Qed.

Section Pages.
Context {Item : Type}.
Implicit Types (m : Manager Item) (l : list Item).

Lemma totalPages_pageCount m : (0 < pageSize m)%Z → totalPages m = pageCount m.
Proof. intros Hs. unfold totalPages, pageCount. by apply ceil_div. Qed.

Lemma pageCount_bounds m :
  (0 < pageSize m)%Z →
  (pageSize m * (pageCount m - 1) < Z.of_nat (length (filteredData m))
     ≤ pageSize m * pageCount m)%Z ∨
  (filteredData m = [] ∧ pageCount m = 0%Z).
Proof.
  intros Hs. unfold pageCount.
  pose proof (Z.div_mod (Z.of_nat (length (filteredData m)) + pageSize m - 1)
                        (pageSize m) ltac:(lia)) as Hdm.
  pose proof (Z.mod_pos_bound (Z.of_nat (length (filteredData m)) + pageSize m - 1)
                              (pageSize m) Hs).
  destruct (filteredData m) as [| x l'] eqn:Hl.
  - right. split; [done |]. cbn [length]. apply Z.div_small. lia.
  - left. rewrite <- Hl in *. lia.
Qed.

Lemma slice_nonneg l (a b : Z) :
  (0 ≤ a ≤ b)%Z → slice l a b = take (Z.to_nat (b - a)) (drop (Z.to_nat a) l).
Proof.
  intros [Ha Hb]. unfold slice, relativeIndex.
  rewrite (proj2 (Z.ltb_ge a 0) Ha), (proj2 (Z.ltb_ge b 0)) by lia.
  destruct (decide (a ≤ Z.of_nat (length l))%Z) as [Hin | Hout].
  - rewrite (Z.min_l a) by lia.
    destruct (decide (b ≤ Z.of_nat (length l))%Z) as [Hin' | Hout'].
    + rewrite (Z.min_l b) by lia. f_equal. lia.
    + rewrite (Z.min_r b) by lia.
      rewrite !take_ge; [done | |]; rewrite length_drop; lia.
  - rewrite (drop_ge l (Z.to_nat a)) by lia.
    rewrite (drop_ge l (Z.to_nat (Z.min a (Z.of_nat (length l))))) by lia.
    by rewrite !take_nil.
Qed.

(** The page of number [1 + k] holds the items from [k * pageSize] on,
    [pageSize] of them at most. *)
Lemma pageData_chunk m (k : nat) :
  (0 < pageSize m)%Z →
  pageData (onPage m (1 + Z.of_nat k)) =
  take (Z.to_nat (pageSize m)) (drop (k * Z.to_nat (pageSize m)) (filteredData m)).
Proof.
  intros Hs. unfold pageData. cbn [onPage currentPage pageSize filteredData].
  rewrite slice_nonneg by nia. f_equal; [f_equal; lia |]. f_equal. nia.
Qed.

Lemma chunks_take l (s N : nat) :
  concat (map (λ k, take s (drop (k * s) l)) (seq 0 N)) = take (N * s) l.
Proof.
  induction N as [| N IH]; [by rewrite take_0 |].
  rewrite seq_S, map_app, concat_app, IH. cbn [map concat plus].
  rewrite app_nil_r, take_take_drop. f_equal. lia.
Qed.

Lemma fromTo_seq (n : nat) : fromTo 1 (Z.of_nat n) = map (λ k, (1 + Z.of_nat k)%Z) (seq 0 n).
Proof. unfold fromTo. do 2 f_equal. lia. Qed.

(** X22, pages: with a positive page size the pages 1 to [totalPages],
    one after the other, are the filtered data: every item is on one
    page and no item is on two; no page is empty and no page holds more
    than [pageSize] items.  Without data there is no page. *)
Theorem pages_partition m :
  (0 < pageSize m)%Z →
  let pages := map (λ page, pageData (onPage m page)) (fromTo 1 (totalPages m)) in
  concat pages = filteredData m ∧
  Z.of_nat (length pages) = totalPages m ∧
  (∀ items, items ∈ pages →
            items ≠ [] ∧ (Z.of_nat (length items) ≤ pageSize m)%Z) ∧
  (filteredData m = [] → pages = []).
Proof.
  intros Hs pages. unfold pages. rewrite totalPages_pageCount by done.
  assert (0 ≤ pageCount m)%Z as Hcount.
  { unfold pageCount. apply Z.div_pos; lia. }
  set (N := Z.to_nat (pageCount m)). set (s := Z.to_nat (pageSize m)).
  replace (pageCount m) with (Z.of_nat N) by lia.
  rewrite fromTo_seq, map_map.
  assert (map (λ k, pageData (onPage m (1 + Z.of_nat k))) (seq 0 N)
          = map (λ k, take s (drop (k * s) (filteredData m))) (seq 0 N)) as ->.
  { apply map_ext. intros k. by apply pageData_chunk. }
  pose proof (pageCount_bounds m Hs) as Hbounds.
  split; [| split; [| split]].
  - rewrite chunks_take. apply take_ge.
    destruct Hbounds as [[_ Hhi] | [-> _]]; [nia | cbn; lia].
  - rewrite length_map, length_seq. lia.
  - intros items Hitems. apply list_elem_of_fmap in Hitems as (k & -> & Hk).
    apply list_elem_of_In, in_seq in Hk as [_ Hk]. cbn in Hk.
    destruct Hbounds as [[Hlo _] | [_ H0]]; [| lia].
    split.
    + intros Hnil. apply (f_equal (@length _)) in Hnil.
      rewrite length_take, length_drop in Hnil. cbn in Hnil. nia.
    + rewrite length_take. lia.
  - intros Hnil. destruct Hbounds as [[Hlo _] | [_ H0]].
    + assert (N = 0%nat) as ->; [| done].
      rewrite Hnil in Hlo. cbn in Hlo. unfold N. nia.
    + by replace N with 0%nat by lia.
Qed.

Lemma pageData_valid m :
  (0 < pageSize m)%Z → (1 ≤ currentPage m ≤ totalPages m)%Z →
  pageData m = take (Z.to_nat (pageSize m))
                    (drop (Z.to_nat ((currentPage m - 1) * pageSize m)) (filteredData m)) ∧
  ((currentPage m - 1) * pageSize m < Z.of_nat (length (filteredData m)))%Z.
Proof.
  intros Hs [Hlo Hhi]. rewrite totalPages_pageCount in Hhi by done. split.
  - unfold pageData. rewrite slice_nonneg by nia. do 2 f_equal. lia.
  - destruct (pageCount_bounds m Hs) as [[Hb _] | [_ H0]]; [nia | lia].
Qed.

Lemma pageData_nonempty m :
  (0 < pageSize m)%Z → (1 ≤ currentPage m ≤ totalPages m)%Z → pageData m ≠ [].
Proof.
  intros Hs Hp. destruct (pageData_valid m Hs Hp) as [-> Hlt].
  intros Hnil. apply (f_equal (@length _)) in Hnil.
  rewrite length_take, length_drop in Hnil. cbn in Hnil.
  assert (0 ≤ (currentPage m - 1) * pageSize m)%Z by nia. lia.
Qed.

Lemma totalPages_positive m :
  (0 < pageSize m)%Z → filteredData m ≠ [] → (1 ≤ totalPages m)%Z.
Proof.
  intros Hs Hdata. rewrite totalPages_pageCount by done.
  destruct (pageCount_bounds m Hs) as [[Hlo Hhi] | [H _]]; [| done].
  destruct (filteredData m); [done |]. cbn [length] in Hhi. nia.
Qed.

(** X23, page in range: from a state whose page number is between 1 and
    the number of pages, [goToPage] leads to such a state, whatever the
    page asked for: it shows the page asked for when it exists and
    changes nothing otherwise; [changePageSize] to a positive size shows
    page 1.  In such a state no empty page is shown while there is
    data. *)
Theorem page_stays_in_range m page newSize :
  (0 < pageSize m)%Z → (1 ≤ currentPage m ≤ Z.max 1 (totalPages m))%Z →
  let there := goToPage m page in
  let resized := changePageSize m newSize in
  (1 ≤ currentPage there ≤ Z.max 1 (totalPages there))%Z ∧
  filteredData there = filteredData m ∧ pageSize there = pageSize m ∧
  ((1 ≤ page ≤ totalPages m)%Z → currentPage there = page) ∧
  ((page < 1 ∨ totalPages m < page)%Z → there = m) ∧
  (filteredData m ≠ [] → pageData m ≠ [] ∧ pageData there ≠ []) ∧
  ((0 < newSize)%Z →
     currentPage resized = 1%Z ∧ filteredData resized = filteredData m ∧
     (filteredData m ≠ [] → pageData resized ≠ [])).
Proof.
  intros Hs Hp there resized.
  assert (∀ m0 : Manager Item, (0 < pageSize m0)%Z → filteredData m0 ≠ [] →
            (1 ≤ currentPage m0 ≤ Z.max 1 (totalPages m0))%Z → pageData m0 ≠ [])
    as Hshown.
  { intros m0 Hs0 Hdata0 Hp0. apply pageData_nonempty; [done |].
    pose proof (totalPages_positive m0 Hs0 Hdata0). lia. }
  assert ((1 ≤ currentPage there ≤ Z.max 1 (totalPages there))%Z ∧
          filteredData there = filteredData m ∧ pageSize there = pageSize m)
    as (Hthere & Hdata & Hsize).
  { unfold there, goToPage.
    destruct (page <? 1)%Z eqn:H1; [done |].
    destruct (totalPages m <? page)%Z eqn:H2; [done |].
    apply Z.ltb_ge in H1, H2. cbn. split; [| done].
    unfold totalPages. cbn. fold (totalPages m). lia. }
  split; [done |]. split; [done |]. split; [done |]. split; [| split; [| split]].
  - intros [H1 H2]. unfold there, goToPage.
    by rewrite (proj2 (Z.ltb_ge page 1) H1), (proj2 (Z.ltb_ge (totalPages m) page) H2).
  - intros [H | H]; unfold there, goToPage.
    + by rewrite (proj2 (Z.ltb_lt page 1) H).
    + rewrite (proj2 (Z.ltb_lt (totalPages m) page) H). by rewrite orb_true_r.
  - intros Hne. split; [by apply Hshown |].
    apply Hshown; [by rewrite Hsize | by rewrite Hdata | done].
  - intros Hnew. split; [done |]. split; [done |].
    intros Hne. apply Hshown; [done | done |]. cbn. lia.
Qed.

(** X24, page information: in a state whose page number is between 1 and
    the number of pages, the text under the table names the first and the
    last item of the page shown, counted from 1, and the number of items:
    the page holds exactly the items from the first to the last. *)
Theorem page_info_matches m :
  (0 < pageSize m)%Z → (1 ≤ currentPage m ≤ totalPages m)%Z →
  ∃ first last,
    paginationInfo m = Some (first, last, Z.of_nat (length (filteredData m))) ∧
    (1 ≤ first ≤ last)%Z ∧ (last ≤ Z.of_nat (length (filteredData m)))%Z ∧
    Z.of_nat (length (pageData m)) = (last - first + 1)%Z ∧
    ∀ i, (i < length (pageData m))%nat →
         pageData m !! i = filteredData m !! (Z.to_nat (first - 1) + i)%nat.
Proof.
  intros Hs Hp. destruct (pageData_valid m Hs Hp) as [Hpage Hlt].
  assert (0 ≤ (currentPage m - 1) * pageSize m)%Z as Hfirst by nia.
  assert (currentPage m * pageSize m
          = (currentPage m - 1) * pageSize m + pageSize m)%Z as Hnext by ring.
  unfold paginationInfo.
  rewrite (proj2 (Z.ltb_lt 0 (Z.of_nat (length (filteredData m))))) by lia.
  eexists _, _. split; [reflexivity |]. rewrite Hnext.
  assert (Z.of_nat (length (pageData m)) =
          Z.min ((currentPage m - 1) * pageSize m + pageSize m)
                (Z.of_nat (length (filteredData m)))
          - ((currentPage m - 1) * pageSize m + 1) + 1)%Z as Hlen.
  { rewrite Hpage, length_take, length_drop. lia. }
  split; [lia |]. split; [lia |]. split; [done |].
  intros i Hi. rewrite Hpage, lookup_take_lt, lookup_drop.
  - f_equal. lia.
  - rewrite Hpage, length_take in Hi. lia.
Qed.

Lemma linkedPages_app a b : linkedPages (a ++ b) = linkedPages a ++ linkedPages b.
Proof.
  unfold linkedPages. induction a as [| x a IH]; [done |].
  cbn. destruct x; cbn; by rewrite ?IH.
Qed.

Lemma linkedPages_links (f : Z → bool) (pages : list Z) :
  linkedPages (map (λ i, PageLink i (f i)) pages) = pages.
Proof.
  unfold linkedPages. induction pages as [| x pages IH]; [done |]. cbn. by f_equal.
Qed.

Lemma fromTo_elem a b x : x ∈ fromTo a b ↔ (a ≤ x ≤ b)%Z.
Proof.
  unfold fromTo. rewrite list_elem_of_fmap. split.
  - intros (k & -> & Hk). apply list_elem_of_In, in_seq in Hk. lia.
  - intros Hx. exists (Z.to_nat (x - a)). split; [lia |].
    apply list_elem_of_In, in_seq. lia.
Qed.

Lemma fromTo_NoDup a b : NoDup (fromTo a b).
Proof.
  unfold fromTo. apply NoDup_fmap_2.
  - intros x y Hxy. lia.
  - apply NoDup_ListNoDup, List.seq_NoDup.
Qed.

Lemma fromTo_length a b : length (fromTo a b) = Z.to_nat (b - a + 1).
Proof. unfold fromTo. by rewrite length_map, length_seq. Qed.

(** The pages [renderPagination] links, from the number of pages and the
    page shown. *)
Lemma linkedPages_controls m :
  (1 < totalPages m)%Z →
  let start := Z.max 1 (currentPage m - 2) in
  let final := Z.min (totalPages m) (currentPage m + 2) in
  linkedPages (paginationControls m) =
  (if (1 <? start)%Z then [1%Z] else []) ++ fromTo start final ++
  (if (final <? totalPages m)%Z then [totalPages m] else []).
Proof.
  intros Hmany start final. unfold paginationControls.
  rewrite (proj2 (Z.leb_gt (totalPages m) 1) Hmany). fold start final.
  rewrite !linkedPages_app, linkedPages_links.
  destruct (1 <? start)%Z, (2 <? start)%Z, (final <? totalPages m)%Z,
    (final <? totalPages m - 1)%Z; cbn; by rewrite ?app_nil_r.
Qed.

(** X25, page links: with more than one page the pagination bar links
    page 1, the last page, and the pages at most two away from the page
    shown, each once and none outside 1 to [totalPages]: at most seven
    links, of which the link of the page shown is the one marked active.
    With one page or none the bar is empty. *)
Theorem pagination_links m :
  (1 ≤ currentPage m ≤ totalPages m)%Z →
  let links := linkedPages (paginationControls m) in
  ((totalPages m ≤ 1)%Z → paginationControls m = []) ∧
  ((1 < totalPages m)%Z →
     NoDup links ∧ (length links ≤ 7)%nat ∧
     (∀ page, page ∈ links ↔
              (1 ≤ page ≤ totalPages m)%Z ∧
              (page = 1%Z ∨ page = totalPages m ∨
               (currentPage m - 2 ≤ page ≤ currentPage m + 2)%Z)) ∧
     (∀ page active, PageLink page active ∈ paginationControls m →
                     active = true ↔ page = currentPage m)).
Proof.
  intros Hp links. split.
  - intros Hfew. unfold paginationControls.
    by rewrite (proj2 (Z.leb_le (totalPages m) 1) Hfew).
  - intros Hmany. unfold links. rewrite linkedPages_controls by done.
    set (start := Z.max 1 (currentPage m - 2)).
    set (final := Z.min (totalPages m) (currentPage m + 2)).
    split; [| split; [| split]].
    + apply NoDup_app. split; [| split].
      * destruct (1 <? start)%Z; [apply NoDup_singleton | constructor].
      * intros x Hx Hx'. destruct (1 <? start)%Z eqn:H1; [| by apply elem_of_nil in Hx].
        apply Z.ltb_lt in H1. apply list_elem_of_singleton in Hx as ->.
        apply elem_of_app in Hx' as [Hx' | Hx'].
        -- apply fromTo_elem in Hx'. lia.
        -- destruct (final <? totalPages m)%Z; [| by apply elem_of_nil in Hx'].
           apply list_elem_of_singleton in Hx'. lia.
      * apply NoDup_app. split; [apply fromTo_NoDup |]. split.
        -- intros x Hx Hx'. apply fromTo_elem in Hx.
           destruct (final <? totalPages m)%Z eqn:H2; [| by apply elem_of_nil in Hx'].
           apply Z.ltb_lt in H2. apply list_elem_of_singleton in Hx'. lia.
        -- destruct (final <? totalPages m)%Z; [apply NoDup_singleton | constructor].
    + rewrite !length_app, fromTo_length.
      destruct (1 <? start)%Z, (final <? totalPages m)%Z; cbn [length]; lia.
    + intros page. rewrite !elem_of_app, fromTo_elem.
      destruct (1 <? start)%Z eqn:H1; destruct (final <? totalPages m)%Z eqn:H2;
        rewrite ?list_elem_of_singleton, ?elem_of_nil;
        try apply Z.ltb_lt in H1; try apply Z.ltb_ge in H1;
        try apply Z.ltb_lt in H2; try apply Z.ltb_ge in H2; lia.
    + intros page active Hin. unfold paginationControls in Hin.
      rewrite (proj2 (Z.leb_gt (totalPages m) 1) Hmany) in Hin. fold start final in Hin.
      rewrite !elem_of_app, list_elem_of_fmap in Hin.
      destruct Hin as [Hin | [Hin | [Hin | [Hin | Hin]]]].
      * by apply list_elem_of_singleton in Hin.
      * destruct (1 <? start)%Z eqn:H1; [| by apply elem_of_nil in Hin].
        apply Z.ltb_lt in H1. apply elem_of_app in Hin as [Hin | Hin].
        -- apply list_elem_of_singleton in Hin. injection Hin as -> ->.
           split; [done | lia].
        -- destruct (2 <? start)%Z; [| by apply elem_of_nil in Hin].
           by apply list_elem_of_singleton in Hin.
      * destruct Hin as (i & [= -> ->] & _). apply Z.eqb_eq.
      * destruct (final <? totalPages m)%Z eqn:H2; [| by apply elem_of_nil in Hin].
        apply Z.ltb_lt in H2. apply elem_of_app in Hin as [Hin | Hin].
        -- destruct (final <? totalPages m - 1)%Z; [| by apply elem_of_nil in Hin].
           by apply list_elem_of_singleton in Hin.
        -- apply list_elem_of_singleton in Hin. injection Hin as -> ->.
           split; [done | lia].
      * by apply list_elem_of_singleton in Hin.
Qed.

End Pages.

Lemma page_stays_in_range_witness :
  let m := {| filteredData := ["a"; "b"; "c"; "d"; "e"]; currentPage := 1;
              pageSize := 2 |} in
  currentPage (goToPage m 3) = 3%Z ∧ pageData (goToPage m 3) = ["e"] ∧
  goToPage m 4 = m ∧ pageData (changePageSize (goToPage m 3) 4) ≠ [].
Proof.
  set (m := {| filteredData := ["a"; "b"; "c"; "d"; "e"]; currentPage := 1;
               pageSize := 2 |}).
  assert (totalPages m = 3%Z) as Htotal.
  { rewrite totalPages_pageCount by (cbn; lia). reflexivity. }
  destruct (page_stays_in_range m 3 4) as (_ & _ & _ & Hthere & _);
    [cbn; lia | rewrite Htotal; cbn; lia |].
  destruct (page_stays_in_range m 4 4) as (_ & _ & _ & _ & Hstay & _);
    [cbn; lia | rewrite Htotal; cbn; lia |].
  assert (goToPage m 3 = onPage m 3) as H3.
  { unfold goToPage. rewrite Htotal. reflexivity. }
  destruct (page_stays_in_range (goToPage m 3) 3 4) as (_ & _ & _ & _ & _ & _ & Hsize).
  { cbn. rewrite H3. cbn. lia. }
  { rewrite H3. cbn [onPage currentPage]. unfold totalPages. cbn [onPage filteredData pageSize].
    fold (totalPages m). rewrite Htotal. lia. }
  split; [apply Hthere; rewrite Htotal; lia |].
  split; [rewrite H3; reflexivity |].
  split; [apply Hstay; right; rewrite Htotal; lia |].
  apply Hsize; [lia |]. rewrite H3. discriminate.
Defined.

Lemma page_info_matches_witness :
  let m := {| filteredData := ["a"; "b"; "c"; "d"; "e"]; currentPage := 3;
              pageSize := 2 |} in
  ∃ first last,
    paginationInfo m = Some (first, last, 5%Z) ∧
    (1 ≤ first ≤ last)%Z ∧ (last ≤ 5)%Z ∧
    Z.of_nat (length (pageData m)) = (last - first + 1)%Z ∧
    ∀ i, (i < length (pageData m))%nat →
         pageData m !! i = filteredData m !! (Z.to_nat (first - 1) + i)%nat.
Proof.
  apply (page_info_matches
           {| filteredData := ["a"; "b"; "c"; "d"; "e"]; currentPage := 3;
              pageSize := 2 |}).
  - cbn. lia.
  - rewrite totalPages_pageCount by (cbn; lia). cbv. split; discriminate.
Defined.

Lemma pagination_links_witness :
  let m := {| filteredData := replicate 100 "x"; currentPage := 5; pageSize := 10 |} in
  linkedPages (paginationControls m) = [1; 3; 4; 5; 6; 7; 10]%Z ∧
  ∀ page active, PageLink page active ∈ paginationControls m →
                 active = true ↔ page = 5%Z.
Proof.
  set (m := {| filteredData := replicate 100 "x"; currentPage := 5; pageSize := 10 |}).
  assert (totalPages m = 10%Z) as Htotal.
  { rewrite totalPages_pageCount by (cbn; lia). reflexivity. }
  destruct (pagination_links m) as [_ Hlinks]; [rewrite Htotal; cbn; lia |].
  destruct Hlinks as (_ & _ & _ & Hactive); [rewrite Htotal; lia |].
  split; [| exact Hactive].
  rewrite linkedPages_controls by (rewrite Htotal; lia). rewrite Htotal. reflexivity.
Defined.

Lemma pages_partition_witness :
  let m := {| filteredData := ["a"; "b"; "c"; "d"; "e"]; currentPage := 1;
              pageSize := 2 |} in
  let pages := map (λ page, pageData (onPage m page)) (fromTo 1 (totalPages m)) in
  concat pages = ["a"; "b"; "c"; "d"; "e"] ∧
  Z.of_nat (length pages) = totalPages m ∧
  (∀ items, items ∈ pages → items ≠ [] ∧ (Z.of_nat (length items) ≤ 2)%Z) ∧
  (filteredData m = [] → pages = []).
Proof.
  apply (pages_partition
           {| filteredData := ["a"; "b"; "c"; "d"; "e"]; currentPage := 1;
              pageSize := 2 |}).
  cbn. lia.
Defined.

End Pagination.

(** ** The list of runs: timestamps and selection *)

Module Runs.
Import RunsQA.

Lemma chars_append s t :
  list_ascii_of_string (s +:+ t) = list_ascii_of_string s ++ list_ascii_of_string t.
Proof.
  induction s as [| c s IH]; [done |]. rewrite Text.append_cons. cbn. by rewrite IH.
Qed.

Lemma digits_append k d rest :
  digitString k d → digits k (d +:+ rest) = Some (d, rest).
Proof.
  revert d. induction k as [| k IH]; intros d [Hlen Hd].
  - destruct d; [done | discriminate].
  - destruct d as [| c d]; [discriminate |]. rewrite Text.append_cons. cbn [digits].
    rewrite (Hd c) by (by left). rewrite IH; [done |].
    split; [by injection Hlen |]. intros c' Hc'. apply Hd. by right.
Qed.

Lemma digits_Some k s d rest :
  digits k s = Some (d, rest) → s = d +:+ rest ∧ digitString k d.
Proof.
  revert s d. induction k as [| k IH]; intros s d; cbn.
  - intros [= <- <-]. split; [done |]. split; [done |]. by intros c [].
  - destruct s as [| c s]; [done |]. destruct (is_digit c) eqn:Hc; [| done].
    destruct (digits k s) as [[d' rest'] |] eqn:Hk; [| done]. intros [= <- <-].
    destruct (IH s d' Hk) as (-> & Hlen & Hd).
    split; [by rewrite Text.append_cons |]. split; [cbn; by rewrite Hlen |].
    intros c' [<- | Hc']; [done | by apply Hd].
Qed.

Lemma stampAt_Some s g :
  stampAt s = Some g →
  In "_"%char (list_ascii_of_string s) ∧
  digitString 4 (year g) ∧ digitString 2 (month g) ∧ digitString 2 (day g) ∧
  digitString 2 (hour g) ∧ digitString 2 (minute g) ∧ digitString 2 (second g).
Proof.
  unfold stampAt.
  destruct (digits 4 s) as [[y s1] |] eqn:H1; [| done].
  destruct (digits 2 s1) as [[mo s2] |] eqn:H2; [| done].
  destruct (digits 2 s2) as [[d s3'] |] eqn:H3; [| done].
  destruct s3' as [| c s3]; [done |].
  destruct (Ascii.ascii_dec c "_") as [-> | Hc].
  2: { destruct c as [[] [] [] [] [] [] [] []]; try done. }
  destruct (digits 2 s3) as [[h s4] |] eqn:H4; [| done].
  destruct (digits 2 s4) as [[mi s5] |] eqn:H5; [| done].
  destruct (digits 2 s5) as [[se s6] |] eqn:H6; [| done].
  intros [= <-]. cbn.
  apply digits_Some in H1 as [-> ?], H2 as [-> ?], H3 as [-> ?],
    H4 as [-> ?], H5 as [-> ?], H6 as [-> ?].
  split; [| done]. rewrite !chars_append. cbn.
  apply in_or_app. right. apply in_or_app. right. apply in_or_app. right. by left.
Qed.

Lemma matchStamp_Some s g :
  matchStamp s = Some g →
  In "_"%char (list_ascii_of_string s) ∧
  digitString 4 (year g) ∧ digitString 2 (month g) ∧ digitString 2 (day g) ∧
  digitString 2 (hour g) ∧ digitString 2 (minute g) ∧ digitString 2 (second g).
Proof.
  induction s as [| c s IH]; cbn [matchStamp].
  - destruct (stampAt "") eqn:H0; [| done]. intros [= <-]. by apply stampAt_Some.
  - destruct (stampAt (String c s)) eqn:H0.
    + intros [= <-]. by apply stampAt_Some.
    + intros H. destruct (IH H) as [Hin Hg]. split; [by right | done].
Qed.

Lemma matchStamp_first s g : stampAt s = Some g → matchStamp s = Some g.
Proof. intros H. destruct s; cbn [matchStamp]; by rewrite H. Qed.

Lemma digit_not_underscore s k :
  digitString k s → ¬ In "_"%char (list_ascii_of_string s).
Proof. intros [_ Hd] Hin. by specialize (Hd _ Hin). Qed.

Lemma truthy_append_cons s c t : Js.truthy (s +:+ String c t) = true.
Proof. destruct s; [done |]. by rewrite Text.append_cons. Qed.

(** X26, timestamps: [formatTimestamp] shows a string that begins with a
    timestamp YYYYMMDD_HHMMSS as YYYY-MM-DD HH:MM:SS, with the same
    digits, and drops what follows; a string without an underscore is
    shown as it is, and no string at all as a fixed text.  What it shows
    is never changed by formatting it again. *)
Theorem formatTimestamp_reads_stamp timestamp :
  let shown := formatTimestamp timestamp in
  formatTimestamp (Some shown) = shown ∧
  (∀ y mo d h mi se rest,
     digitString 4 y → digitString 2 mo → digitString 2 d →
     digitString 2 h → digitString 2 mi → digitString 2 se →
     timestamp = Some (y +:+ mo +:+ d +:+ "_" +:+ h +:+ mi +:+ se +:+ rest) →
     shown = y +:+ "-" +:+ mo +:+ "-" +:+ d +:+ " " +:+ h +:+ ":" +:+ mi +:+ ":" +:+ se) ∧
  (timestamp = None ∨ timestamp = Some "" → shown = "未知时间") ∧
  (∀ t, timestamp = Some t → t ≠ "" →
        ¬ In "_"%char (list_ascii_of_string t) → shown = t).
Proof.
  intros shown.
  assert (∀ t, ¬ In "_"%char (list_ascii_of_string t) → matchStamp t = None) as Hnone.
  { intros t Ht. destruct (matchStamp t) as [g |] eqn:Hg; [| done].
    by apply matchStamp_Some in Hg as [Hin _]. }
  assert (∀ t, Js.truthy t = true → ¬ In "_"%char (list_ascii_of_string t) →
               formatTimestamp (Some t) = t) as Hplain.
  { intros t Ht Hno. unfold formatTimestamp. cbn. rewrite Ht. cbn. by rewrite Hnone. }
  split; [| split; [| split]].
  - unfold shown, formatTimestamp.
    destruct (Js.truthy_opt timestamp) eqn:Htruthy; cbn [negb].
    + destruct timestamp as [t |]; [| done]. cbn in Htruthy. cbn [Js.show].
      destruct (matchStamp t) as [g |] eqn:Hg.
      * apply matchStamp_Some in Hg as (_ & Hy & Hmo & Hd & Hh & Hmi & Hse).
        apply Hplain; [apply truthy_append_cons |].
        rewrite !chars_append. cbn. intros Hin.
        apply in_app_or in Hin as [Hin | [Hin | Hin]];
          [exact (digit_not_underscore _ _ Hy Hin) | discriminate |].
        apply in_app_or in Hin as [Hin | [Hin | Hin]];
          [exact (digit_not_underscore _ _ Hmo Hin) | discriminate |].
        apply in_app_or in Hin as [Hin | [Hin | Hin]];
          [exact (digit_not_underscore _ _ Hd Hin) | discriminate |].
        apply in_app_or in Hin as [Hin | [Hin | Hin]];
          [exact (digit_not_underscore _ _ Hh Hin) | discriminate |].
        apply in_app_or in Hin as [Hin | [Hin | Hin]];
          [exact (digit_not_underscore _ _ Hmi Hin) | discriminate |].
        exact (digit_not_underscore _ _ Hse Hin).
      * fold (formatTimestamp (Some t)). unfold formatTimestamp. cbn.
        by rewrite Htruthy, Hg.
    + vm_compute. reflexivity.
  - intros y mo d h mi se rest Hy Hmo Hd Hh Hmi Hse ->.
    unfold shown, formatTimestamp.
    assert (Js.truthy_opt (Some (y +:+ mo +:+ d +:+ "_" +:+ h +:+ mi +:+ se +:+ rest))
            = true) as ->.
    { cbn. destruct Hy as [Hlen _]. destruct y; [discriminate | done]. }
    cbn [negb Js.show].
    rewrite (matchStamp_first _ {| year := y; month := mo; day := d;
                                   hour := h; minute := mi; second := se |});
      [reflexivity |].
    unfold stampAt. rewrite (digits_append 4 y) by done.
    rewrite (digits_append 2 mo) by done. rewrite (digits_append 2 d) by done.
    rewrite Text.append_cons, Text.append_nil.
    rewrite (digits_append 2 h) by done. rewrite (digits_append 2 mi) by done.
    by rewrite (digits_append 2 se) by done.
  - intros [-> | ->]; reflexivity.
  - intros t -> Hne Hno. apply Hplain; [| done].
    unfold Js.truthy. by rewrite (proj2 (String.eqb_neq t "") Hne).
Qed.

Lemma selectAll_fold startTime endTime runs (acc : gset string) id :
  id ∈ fold_left
         (λ set run,
            if (has_graph_data run && isRunInTimeRange run startTime endTime)%bool
            then set ∪ {[ run_id run ]} else set)
         runs acc
  ↔ id ∈ acc ∨ ∃ run, run ∈ runs ∧ run_id run = id ∧ has_graph_data run = true ∧
                      isRunInTimeRange run startTime endTime = true.
Proof.
  revert acc. induction runs as [| r runs IH]; intros acc; cbn [fold_left].
  - split; [by left |]. intros [H | (run & Hrun & _)]; [done |].
    by apply elem_of_nil in Hrun.
  - rewrite IH. clear IH. split.
    + intros [Hacc | (run & Hrun & H)].
      * destruct (has_graph_data r && isRunInTimeRange r startTime endTime)%bool eqn:Hr;
          [| by left].
        apply elem_of_union in Hacc as [Hacc | Hnew]; [by left |].
        apply elem_of_singleton in Hnew. apply andb_true_iff in Hr as [Hg Ht].
        right. exists r. split; [apply list_elem_of_here | done].
      * right. exists run. split; [by apply list_elem_of_further | done].
    + intros [Hacc | (run & Hrun & Hid & Hg & Ht)].
      * left. destruct (_ && _)%bool; [| done]. apply elem_of_union. by left.
      * apply elem_of_cons in Hrun as [-> | Hrun].
        -- left. rewrite Hg, Ht. cbn. apply elem_of_union. right.
           by apply elem_of_singleton.
        -- right. by exists run.
Qed.

Lemma isRunInTimeRange_true run startTime endTime :
  isRunInTimeRange run startTime endTime = true ↔
  ∀ t, run_time run = Some t →
       (∀ s, startTime = Some s → (s ≤ t)%Z) ∧ (∀ e, endTime = Some e → (t ≤ e)%Z).
Proof.
  unfold isRunInTimeRange.
  destruct (run_time run) as [t |]; [| split; [intros _ t [=] | done]].
  split.
  - intros H t' [= <-]. split.
    + intros s ->. destruct (t <? s)%Z eqn:H1; [done |]. by apply Z.ltb_ge in H1.
    + intros e ->.
      destruct (match startTime with Some s => (t <? s)%Z | None => false end);
        [done |].
      destruct (e <? t)%Z eqn:H2; [done |]. by apply Z.ltb_ge in H2.
  - intros H. destruct (H t eq_refl) as [Hs He].
    assert (match startTime with Some s => (t <? s)%Z | None => false end = false) as ->.
    { destruct startTime as [s |]; [| done]. apply Z.ltb_ge. by apply Hs. }
    assert (match endTime with Some e => (e <? t)%Z | None => false end = false) as ->.
    { destruct endTime as [e |]; [| done]. apply Z.ltb_ge. by apply He. }
    done.
Qed.

Lemma selectable_toggle sel runId : selectable sel → selectable (toggleRunSelection sel runId).
Proof.
  intros Hsel. unfold toggleRunSelection.
  destruct (list_find _ (availableRuns sel)) as [[i run] |] eqn:Hfind; [| done].
  apply list_find_Some in Hfind as (Hi & Hid & _).
  destruct (has_graph_data run) eqn:Hg; cbn [negb]; [| done].
  destruct (bool_decide (runId ∈ selectedRuns sel)); intros id Hin; cbn in Hin.
  - apply elem_of_difference in Hin as [Hin _]. by apply Hsel.
  - apply elem_of_union in Hin as [Hin | Hin]; [by apply Hsel |].
    apply elem_of_singleton in Hin as ->. exists run.
    split; [by eapply list_elem_of_lookup_2 | done].
Qed.

Lemma selectable_act sel a :
  selectable sel →
  selectable (act sel a) ∧ availableRuns (act sel a) = availableRuns sel.
Proof.
  intros Hsel. destruct a as [runId | | startTime endTime]; cbn [act].
  - split; [by apply selectable_toggle |]. unfold toggleRunSelection.
    destruct (list_find _ (availableRuns sel)) as [[i run] |]; [| done].
    destruct (has_graph_data run); cbn [negb]; [| done].
    by destruct (bool_decide _).
  - split; [| done]. intros id Hin. by apply not_elem_of_empty in Hin.
  - unfold selectAllInTimeRange.
    destruct startTime as [s |]; [| destruct endTime as [e |]; [| done]].
    all: split; [| done]; intros id Hin; cbn in Hin;
      apply selectAll_fold in Hin as [Hin | (run & Hrun & Hid & Hg & _)];
      [by apply not_elem_of_empty in Hin | by exists run].
Qed.

(** X27, selection of runs: whatever the user does, toggling runs,
    clearing the selection or selecting all the runs of a time range,
    every selected id stays the id of an available run that has graph
    data, and the list of available runs is not changed; toggling the
    same run twice restores the selection. *)
Theorem selection_has_graph_data sel actions runId :
  selectable sel →
  selectable (fold_left act actions sel) ∧
  availableRuns (fold_left act actions sel) = availableRuns sel ∧
  toggleRunSelection (toggleRunSelection sel runId) runId = sel.
Proof.
  intros Hsel. split; [| split].
  - revert sel Hsel. induction actions as [| a actions IH]; intros sel Hsel; [done |].
    cbn [fold_left]. apply IH. by apply selectable_act.
  - revert sel Hsel. induction actions as [| a actions IH]; intros sel Hsel; [done |].
    cbn [fold_left]. destruct (selectable_act sel a Hsel) as [Hsel' Hruns].
    by rewrite IH, Hruns.
  - clear Hsel. destruct sel as [runs selected]. unfold toggleRunSelection at 2.
    cbn [availableRuns selectedRuns].
    destruct (list_find (λ r, run_id r = runId) runs) as [[i run] |] eqn:Hfind.
    2: { unfold toggleRunSelection. cbn [availableRuns]. by rewrite Hfind. }
    destruct (has_graph_data run) eqn:Hg; cbn [negb].
    2: { unfold toggleRunSelection. cbn [availableRuns]. by rewrite Hfind, Hg. }
    destruct (bool_decide (runId ∈ selected)) eqn:Hin;
      unfold toggleRunSelection; cbn [availableRuns selectedRuns];
      rewrite Hfind, Hg; cbn [negb].
    + apply bool_decide_eq_true in Hin.
      rewrite bool_decide_eq_false_2.
      * f_equal. apply set_eq. intros x.
        rewrite elem_of_union, elem_of_difference, elem_of_singleton.
        destruct (decide (x = runId)) as [-> | Hne]; tauto.
      * rewrite elem_of_difference, elem_of_singleton. tauto.
    + apply bool_decide_eq_false in Hin.
      rewrite bool_decide_eq_true_2.
      * f_equal. apply set_eq. intros x.
        rewrite elem_of_difference, elem_of_union, elem_of_singleton.
        split; [tauto |]. intros Hx. split; [by left |]. by intros ->.
      * apply elem_of_union. right. by apply elem_of_singleton.
Qed.

Lemma selection_has_graph_data_witness :
  let sel := {| availableRuns :=
                  [ {| run_id := "r1"; has_graph_data := true; run_time := Some 10%Z |};
                    {| run_id := "r2"; has_graph_data := false; run_time := None |} ];
                selectedRuns := ∅ |} in
  let actions := [Toggle "r1"; Toggle "r2"; SelectAll (Some 5%Z) None] in
  selectable (fold_left act actions sel) ∧
  availableRuns (fold_left act actions sel) = availableRuns sel ∧
  toggleRunSelection (toggleRunSelection sel "r1") "r1" = sel.
Proof.
  apply (selection_has_graph_data
           {| availableRuns :=
                [ {| run_id := "r1"; has_graph_data := true; run_time := Some 10%Z |};
                  {| run_id := "r2"; has_graph_data := false; run_time := None |} ];
              selectedRuns := ∅ |}
           [Toggle "r1"; Toggle "r2"; SelectAll (Some 5%Z) None] "r1").
  intros id Hid. cbn in Hid. by apply not_elem_of_empty in Hid.
Defined.

(** X28, all the runs of a time range: with at least one bound set,
    [selectAllInTimeRange] replaces the selection by the ids of the
    available runs that have graph data and whose time is not before the
    start and not after the end; a run whose timestamp gives no time is
    in every range.  With no bound set it changes nothing. *)
Theorem select_all_in_range sel startTime endTime id :
  (startTime = None ∧ endTime = None →
   selectAllInTimeRange sel startTime endTime = sel) ∧
  (startTime ≠ None ∨ endTime ≠ None →
   id ∈ selectedRuns (selectAllInTimeRange sel startTime endTime) ↔
   ∃ run, run ∈ availableRuns sel ∧ run_id run = id ∧ has_graph_data run = true ∧
          ∀ t, run_time run = Some t →
               (∀ s, startTime = Some s → (s ≤ t)%Z) ∧
               (∀ e, endTime = Some e → (t ≤ e)%Z)).
Proof.
  split.
  - by intros [-> ->].
  - intros Hbound.
    assert (selectedRuns (selectAllInTimeRange sel startTime endTime) =
            fold_left
              (λ set run,
                 if (has_graph_data run && isRunInTimeRange run startTime endTime)%bool
                 then set ∪ {[ run_id run ]} else set)
              (availableRuns sel) ∅) as ->.
    { unfold selectAllInTimeRange. destruct startTime, endTime; try done.
      by destruct Hbound. }
    rewrite selectAll_fold. split.
    + intros [H | (run & Hrun & Hid & Hg & Ht)]; [by apply not_elem_of_empty in H |].
      exists run. split; [done |]. split; [done |]. split; [done |].
      by apply isRunInTimeRange_true.
    + intros (run & Hrun & Hid & Hg & Ht). right. exists run.
      split; [done |]. split; [done |]. split; [done |].
      by apply isRunInTimeRange_true.
Qed.

Lemma formatTimestamp_reads_stamp_witness :
  formatTimestamp (Some "20240131_235959_run7") = "2024-01-31 23:59:59".
Proof.
  apply (proj1 (proj2 (formatTimestamp_reads_stamp (Some "20240131_235959_run7")))
           "2024" "01" "31" "23" "59" "59" "_run7");
    try (split; [reflexivity |]; intros c Hc; cbn in Hc;
         repeat (destruct Hc as [<- | Hc]; [reflexivity |]); destruct Hc).
  reflexivity.
Defined.

End Runs.
